(** * The popup-menu engine of phosphor-ui: a shallow embedding

    The development follows [src/src/box-panel.ts] (the [Menu] widget, its
    [MenuItem] records, the default [MenuItemRenderer] and the functions of
    the [Private] namespace; menus built from templates; and, from the
    first part of the file, the two passes [_fit] and [_update] of
    [BoxLayout]).

    Conventions of the embedding.
    - A [Menu] object is a record; menu objects live in a store
      ([World]) and are named by their position in it ([MenuId]), so the
      mutual references [_childMenu] / [_parentMenu] are store references
      and aliasing is kept.
    - Indices and pixel coordinates are integers ([Z]); the value [-1] is
      the source's "no index".  A [number] argument that the source passes
      through [Math.floor] is taken after flooring.
    - Strings are [string] (lists of 8-bit characters).
    - Signals ([triggered], [closed]) are recorded, oldest first, in the
      [emitted] log of the world.
    - A call that the source can leave by an exception has an [Outcome]:
      [returned], or [raised] with the store as the exception finds it. *)

From Stdlib Require Import ZArith Lia Bool Ascii String.
From stdpp Require Import base list strings.

Open Scope Z_scope.

(** ** Class names *)

Definition ITEM_CLASS : string := "p-Menu-item".
Definition ICON_CLASS : string := "p-Menu-itemIcon".
Definition NORMAL_TYPE_CLASS : string := "p-type-normal".
Definition CHECK_TYPE_CLASS : string := "p-type-check".
Definition RADIO_TYPE_CLASS : string := "p-type-radio".
Definition SEPARATOR_TYPE_CLASS : string := "p-type-separator".
Definition SUBMENU_TYPE_CLASS : string := "p-type-submenu".
Definition ACTIVE_CLASS : string := "p-mod-active".
Definition DISABLED_CLASS : string := "p-mod-disabled".
Definition CHECKED_CLASS : string := "p-mod-checked".
Definition HIDDEN_CLASS : string := "p-mod-hidden".

(** The delay of the open and close timers and the overlap of a submenu. *)
Definition TIMER_DELAY : Z := 300.
Definition SUBMENU_OVERLAP : Z := 3.

(** ** Menu items *)

(** Menus are named by their position in the store. *)
Abbreviation MenuId := nat (only parsing).

Inductive MenuItemType := normal | check | radio | submenu | separator.

Definition MenuItemType_eqb (a b : MenuItemType) : bool :=
  match a, b with
  | normal, normal | check, check | radio, radio
  | submenu, submenu | separator, separator => true
  | _, _ => false
  end.

(** [class MenuItem]: a plain record.  [args] is an opaque value the menu
    never reads; the [submenu] field ([item_submenu]) is a reference to a
    menu of the store, [None] for [null]. *)
Record MenuItem := mkItem {
  type : MenuItemType;
  text : string;
  icon : string;
  shortcut : string;
  checked : bool;
  disabled : bool;
  hidden : bool;
  className : string;
  command : string;
  item_submenu : option MenuId
}.

(** The field defaults of [class MenuItem]. *)
Definition defaultItem : MenuItem :=
  {| type := normal; text := ""; icon := ""; shortcut := "";
     checked := false; disabled := false; hidden := false;
     className := ""; command := ""; item_submenu := None |}.

(** ** Item nodes

    An item node is the [<li>] element with its class list and the three
    children the default renderer fills in. *)
Record Node := mkNode {
  classList : list string;
  iconClass : list string;
  textContent : string;
  shortcutContent : string
}.

Definition classList_contains (c : string) (n : Node) : bool :=
  bool_decide (c ∈ classList n).

Definition classList_add (c : string) (n : Node) : Node :=
  if classList_contains c n then n
  else {| classList := classList n ++ [c]; iconClass := iconClass n;
          textContent := textContent n; shortcutContent := shortcutContent n |}.

Definition classList_remove (c : string) (n : Node) : Node :=
  {| classList := filter (λ d, d ≠ c) (classList n); iconClass := iconClass n;
     textContent := textContent n; shortcutContent := shortcutContent n |}.

(** Splitting a class attribute at blanks ([className = "a b"]). *)
Fixpoint words_aux (acc : string) (s : string) : list string :=
  match s with
  | EmptyString => if bool_decide (acc = "") then [] else [String.rev acc]
  | String c r =>
      if bool_decide (c = " "%char)
      then (if bool_decide (acc = "") then [] else [String.rev acc]) ++ words_aux "" r
      else words_aux (String c acc) r
  end.

Definition words (s : string) : list string := words_aux "" s.

(** [text.replace(/&&/g, '')]. *)
Fixpoint stripMnemonicMarks (s : string) : string :=
  match s with
  | String "&" (String "&" r) => stripMnemonicMarks r
  | String c r => String c (stripMnemonicMarks r)
  | EmptyString => EmptyString
  end.

(** ** The item renderer *)

Record IMenuItemRenderer := mkRenderer {
  createItemNode : Node;
  updateItemNode : Node -> MenuItem -> Node
}.

Module MenuItemRenderer.

Definition createItemNode : Node :=
  {| classList := [ITEM_CLASS]; iconClass := []; textContent := "";
     shortcutContent := "" |}.

Definition createItemClassName (item : MenuItem) : list string :=
  let name := [ITEM_CLASS] in
  let name :=
    match type item with
    | normal =>
        name ++ [NORMAL_TYPE_CLASS]
             ++ (if disabled item then [DISABLED_CLASS] else [])
    | check =>
        name ++ [CHECK_TYPE_CLASS]
             ++ (if checked item then [CHECKED_CLASS] else [])
             ++ (if disabled item then [DISABLED_CLASS] else [])
    | radio =>
        name ++ [RADIO_TYPE_CLASS]
             ++ (if checked item then [CHECKED_CLASS] else [])
             ++ (if disabled item then [DISABLED_CLASS] else [])
    | submenu =>
        name ++ [SUBMENU_TYPE_CLASS]
             ++ (if disabled item then [DISABLED_CLASS] else [])
    | separator => name ++ [SEPARATOR_TYPE_CLASS]
    end in
  let name := if hidden item then name ++ [HIDDEN_CLASS] else name in
  name ++ words (className item).

Definition createIconClassName (item : MenuItem) : list string :=
  let name := [ICON_CLASS] in
  if negb (MenuItemType_eqb (type item) separator) then name ++ words (icon item)
  else name.

Definition updateItemNode (node : Node) (item : MenuItem) : Node :=
  let sub := MenuItemType_eqb (type item) submenu in
  let sep := MenuItemType_eqb (type item) separator in
  {| classList := createItemClassName item;
     iconClass := createIconClassName item;
     textContent := if sep then "" else stripMnemonicMarks (text item);
     shortcutContent := if sep || sub then "" else shortcut item |}.

(** The singleton default renderer. *)
Definition instance : IMenuItemRenderer :=
  mkRenderer createItemNode updateItemNode.

End MenuItemRenderer.

(** ** Vectors

    [Vector<T>] of phosphor-core is a growable array; it is a [list] here.
    [at_ l i] is [l.at(i)], [None] outside the bounds. *)
Definition at_ {A} (l : list A) (i : Z) : option A :=
  if i <? 0 then None else l !! Z.to_nat i.

Definition len {A} (l : list A) : Z := Z.of_nat (length l).

(** [update_at l i f]: the in-place change [f] of the element [l.at(i)]. *)
Definition update_at {A} (l : list A) (i : Z) (f : A -> A) : list A :=
  if i <? 0 then l else alter f (Z.to_nat i) l.

(** [l.insert(i, v)] for an index already clamped to [0, length]. *)
Definition vec_insert {A} (l : list A) (i : Z) (v : A) : list A :=
  take (Z.to_nat i) l ++ v :: drop (Z.to_nat i) l.

(** [l.remove(i)] for an index within the bounds. *)
Definition vec_remove {A} (l : list A) (i : Z) : list A :=
  delete (Z.to_nat i) l.

(** ** Private.isSelectable *)
Definition isSelectable (item : MenuItem) : bool :=
  negb (MenuItemType_eqb (type item) separator || disabled item || hidden item).

(** ** Private.hideExtraSeparators

    The three loops of the source, each walking the part of [items] it
    visits; [k1] and [k2] are the loop counters. *)
Definition hideNode (nodes : list Node) (k : Z) : list Node :=
  update_at nodes k (classList_add HIDDEN_CLASS).

(** [for (; k1 < n; ++k1)]: [rest] is [items] from position [k1] on. *)
Fixpoint hideLeading (rest : list MenuItem) (k1 : Z) (nodes : list Node)
  : Z * list Node :=
  match rest with
  | [] => (k1, nodes)
  | item :: rest' =>
      if hidden item then hideLeading rest' (k1 + 1) nodes
      else if negb (MenuItemType_eqb (type item) separator) then (k1, nodes)
      else hideLeading rest' (k1 + 1) (hideNode nodes k1)
  end.

(** [for (; k2 >= 0; --k2)]: [rest] is [items] from position [k2] down. *)
Fixpoint hideTrailing (rest : list MenuItem) (k2 : Z) (nodes : list Node)
  : Z * list Node :=
  match rest with
  | [] => (k2, nodes)
  | item :: rest' =>
      if hidden item then hideTrailing rest' (k2 - 1) nodes
      else if negb (MenuItemType_eqb (type item) separator) then (k2, nodes)
      else hideTrailing rest' (k2 - 1) (hideNode nodes k2)
  end.

(** [while (++k1 < k2)]: [rest] is [items] from position [k1 + 1] on. *)
Fixpoint hideConsecutive (rest : list MenuItem) (k1 k2 : Z) (hide : bool)
    (nodes : list Node) : list Node :=
  match rest with
  | [] => nodes
  | item :: rest' =>
      let k1 := k1 + 1 in
      if k1 <? k2 then
        if hidden item then hideConsecutive rest' k1 k2 hide nodes
        else if negb (MenuItemType_eqb (type item) separator)
        then hideConsecutive rest' k1 k2 false nodes
        else if hide then hideConsecutive rest' k1 k2 hide (hideNode nodes k1)
        else hideConsecutive rest' k1 k2 true nodes
      else nodes
  end.

Definition hideExtraSeparators (items : list MenuItem) (nodes : list Node)
  : list Node :=
  let '(k1, nodes) := hideLeading items 0 nodes in
  let n := len items in
  let '(k2, nodes) := hideTrailing (reverse items) (n - 1) nodes in
  hideConsecutive (drop (Z.to_nat (k1 + 1)) items) k1 k2 false nodes.

(** ** Mnemonics *)

(** [\w] of a JavaScript regular expression: [A-Za-z0-9_]. *)
Definition isWordChar (c : ascii) : bool :=
  let n := Z.of_N (N_of_ascii c) in
  ((65 <=? n) && (n <=? 90)) || ((97 <=? n) && (n <=? 122))
  || ((48 <=? n) && (n <=? 57)) || (n =? 95).

(** [toUpperCase] on one character.  Only [a]..[z] change; a character
    above code 127 is left as it is, which is enough here: the source
    compares the result with the upper case of a [\w] character only. *)
Definition toUpperCase (c : ascii) : ascii :=
  let n := N_of_ascii c in
  if ((97 <=? n) && (n <=? 122))%N then ascii_of_N (n - 32) else c.

(** [text.match(/&&\w/)], returning [match[0][2]]: the word character of
    the leftmost place where the pattern matches. *)
Fixpoint matchMnemonic (s : string) : option ascii :=
  match s with
  | String a r =>
      match r with
      | String b (String c _) =>
          if bool_decide (a = "&"%char) && bool_decide (b = "&"%char) && isWordChar c
          then Some c else matchMnemonic r
      | _ => None
      end
  | EmptyString => None
  end.

(** The test of one item in [activateNextMnemonic]: [false] is the
    source's [continue]. *)
Definition mnemonicHit (c : ascii) (item : MenuItem) : bool :=
  if negb (isSelectable item) then false
  else match matchMnemonic (text item) with
       | None => false
       | Some d => bool_decide (toUpperCase d = c)
       end.

(** [for (let i = 0; i < n; ++i) { ... return k ... }]: the first [i] of
    [start, start + count) for which the body returns. *)
Fixpoint scan {A} (body : Z -> option A) (i : Z) (count : nat) : option A :=
  match count with
  | O => None
  | S count' =>
      match body i with
      | Some r => Some r
      | None => scan body (i + 1) count'
      end
  end.

(** ** Placement of a root menu

    The two adjustments of [Private.openRootMenu], on the coordinates
    before the final [Math.max(0, _)]. *)
Definition adjustX (forceX : bool) (x width px cw : Z) : Z :=
  if negb forceX && (x + width >? px + cw) then px + cw - width else x.

Definition adjustY (forceY : bool) (y height py ch : Z) : Z :=
  if negb forceY && (y + height >? py + ch) then
    if y >? py + ch then py + ch - height else y - height
  else y.

(** ** The menu object *)

(** The inline style of the menu node, in pixels; [None] is the empty
    string. *)
Record Style := mkStyle {
  style_top : option Z;
  style_left : option Z;
  style_width : option Z;
  style_height : option Z;
  style_hidden : bool;            (* visibility = 'hidden' *)
  style_maxHeight : option Z
}.

Definition emptyStyle : Style := mkStyle None None None None false None.

(** The private fields of [class Menu], followed by what the menu uses of
    its [Widget] base class: [parent], [isAttached] and the style of its
    node. *)
Record Menu := mkMenu {
  _childIndex : Z;
  _openTimerID : Z;
  _closeTimerID : Z;
  _activeIndex : Z;
  _childMenu : option MenuId;
  _parentMenu : option MenuId;
  _renderer : IMenuItemRenderer;
  _items : list MenuItem;
  _nodes : list Node;
  parent : option nat;
  isAttached : bool;
  style : Style
}.

(** [new Menu({ renderer })]. *)
Definition newMenu (renderer : IMenuItemRenderer) : Menu :=
  {| _childIndex := -1; _openTimerID := 0; _closeTimerID := 0;
     _activeIndex := -1; _childMenu := None; _parentMenu := None;
     _renderer := renderer; _items := []; _nodes := [];
     parent := None; isAttached := false; style := emptyStyle |}.

Definition set_childLink (i : Z) (c : option MenuId) (m : Menu) : Menu :=
  mkMenu i (_openTimerID m) (_closeTimerID m) (_activeIndex m) c
    (_parentMenu m) (_renderer m) (_items m) (_nodes m) (parent m)
    (isAttached m) (style m).

Definition set_openTimerID (v : Z) (m : Menu) : Menu :=
  mkMenu (_childIndex m) v (_closeTimerID m) (_activeIndex m) (_childMenu m)
    (_parentMenu m) (_renderer m) (_items m) (_nodes m) (parent m)
    (isAttached m) (style m).

Definition set_closeTimerID (v : Z) (m : Menu) : Menu :=
  mkMenu (_childIndex m) (_openTimerID m) v (_activeIndex m) (_childMenu m)
    (_parentMenu m) (_renderer m) (_items m) (_nodes m) (parent m)
    (isAttached m) (style m).

Definition set_active (v : Z) (nodes : list Node) (m : Menu) : Menu :=
  mkMenu (_childIndex m) (_openTimerID m) (_closeTimerID m) v (_childMenu m)
    (_parentMenu m) (_renderer m) (_items m) nodes (parent m)
    (isAttached m) (style m).

Definition set_parentMenu (p : option MenuId) (m : Menu) : Menu :=
  mkMenu (_childIndex m) (_openTimerID m) (_closeTimerID m) (_activeIndex m)
    (_childMenu m) p (_renderer m) (_items m) (_nodes m) (parent m)
    (isAttached m) (style m).

Definition set_vectors (items : list MenuItem) (nodes : list Node) (m : Menu)
  : Menu :=
  mkMenu (_childIndex m) (_openTimerID m) (_closeTimerID m) (_activeIndex m)
    (_childMenu m) (_parentMenu m) (_renderer m) items nodes (parent m)
    (isAttached m) (style m).

Definition set_nodes (nodes : list Node) (m : Menu) : Menu :=
  set_vectors (_items m) nodes m.

Definition set_mount (p : option nat) (attached : bool) (m : Menu) : Menu :=
  mkMenu (_childIndex m) (_openTimerID m) (_closeTimerID m) (_activeIndex m)
    (_childMenu m) (_parentMenu m) (_renderer m) (_items m) (_nodes m) p
    attached (style m).

Definition set_style (s : Style) (m : Menu) : Menu :=
  mkMenu (_childIndex m) (_openTimerID m) (_closeTimerID m) (_activeIndex m)
    (_childMenu m) (_parentMenu m) (_renderer m) (_items m) (_nodes m)
    (parent m) (isAttached m) s.

(** *** Accessors and the [activeIndex] setter *)

(** [get activeItem]. *)
Definition activeItem (m : Menu) : option MenuItem :=
  let i := _activeIndex m in
  if negb (i =? -1) then at_ (_items m) i else None.

(** [Private.isSelectable(this._items.at(i))]. *)
Definition selectableAt (items : list MenuItem) (i : Z) : bool :=
  match at_ items i with
  | Some item => isSelectable item
  | None => false
  end.

(** [set activeIndex(value)]; [value] is [Math.floor] of the argument. *)
Definition setActiveIndex (value : Z) (m : Menu) : Menu :=
  let i := value in
  let i := if (i <? 0) || (i >=? len (_items m)) then -1 else i in
  let i := if negb (i =? -1) && negb (selectableAt (_items m) i) then -1 else i in
  if _activeIndex m =? i then m
  else
    let nodes := _nodes m in
    let nodes :=
      if negb (_activeIndex m =? -1)
      then update_at nodes (_activeIndex m) (classList_remove ACTIVE_CLASS)
      else nodes in
    let nodes :=
      if negb (i =? -1) then update_at nodes i (classList_add ACTIVE_CLASS)
      else nodes in
    set_active i nodes m.

(** [_cancelOpenTimer] and [_cancelCloseTimer]: [clearTimeout] and the
    reset of the handle. *)
Definition _cancelOpenTimer (m : Menu) : Menu :=
  if negb (_openTimerID m =? 0) then set_openTimerID 0 m else m.

Definition _cancelCloseTimer (m : Menu) : Menu :=
  if negb (_closeTimerID m =? 0) then set_closeTimerID 0 m else m.

(** *** Activation inside one menu *)

Definition activateFirstSelectable (m : Menu) : Menu :=
  let items := _items m in
  match scan (λ i, if selectableAt items i then Some i else None)
             0 (length items) with
  | Some i => setActiveIndex i m
  | None => setActiveIndex (-1) m
  end.

Definition activateNextSelectable (m : Menu) : Menu :=
  let items := _items m in
  let j := _activeIndex m + 1 in
  let n := len items in
  match scan (λ i, let k := Z.rem (i + j) n in
                   if selectableAt items k then Some k else None)
             0 (length items) with
  | Some k => setActiveIndex k m
  | None => setActiveIndex (-1) m
  end.

Definition activatePrevSelectable (m : Menu) : Menu :=
  let items := _items m in
  let ai := _activeIndex m in
  let j := if ai <=? 0 then len items - 1 else ai - 1 in
  let n := len items in
  match scan (λ i, let k := Z.rem (j - i + n) n in
                   if selectableAt items k then Some k else None)
             0 (length items) with
  | Some k => setActiveIndex k m
  | None => setActiveIndex (-1) m
  end.

(** [Private.activateNextMnemonic(menu, char)]. *)
Definition mnemonicAt (items : list MenuItem) (c : ascii) (k : Z) : bool :=
  match at_ items k with
  | Some item => mnemonicHit c item
  | None => false
  end.

Definition activateNextMnemonic (char : ascii) (m : Menu) : Menu :=
  let items := _items m in
  let c := toUpperCase char in
  let j := _activeIndex m + 1 in
  let n := len items in
  match scan (λ i, let k := Z.rem (i + j) n in
                   if mnemonicAt items c k then Some k else None)
             0 (length items) with
  | Some k => setActiveIndex k m
  | None => setActiveIndex (-1) m
  end.

(** *** Rendering: [onUpdateRequest] *)

(** [for (i = 0; i < n; ++i) renderer.updateItemNode(nodes.at(i), items.at(i))];
    [rest] is [items] from position [i] on. *)
Fixpoint updateNodes (r : IMenuItemRenderer) (rest : list MenuItem) (i : Z)
    (nodes : list Node) : list Node :=
  match rest with
  | [] => nodes
  | item :: rest' =>
      updateNodes r rest' (i + 1)
        (update_at nodes i (λ node, updateItemNode r node item))
  end.

Definition onUpdateRequest (m : Menu) : Menu :=
  let items := _items m in
  let nodes := updateNodes (_renderer m) items 0 (_nodes m) in
  let nodes :=
    if negb (_activeIndex m =? -1)
    then update_at nodes (_activeIndex m) (classList_add ACTIVE_CLASS)
    else nodes in
  set_nodes (hideExtraSeparators items nodes) m.

(** ** The store of menus *)

Inductive Signal :=
| triggered (sender : MenuId) (item : MenuItem)
| closed (sender : MenuId).

(** [menus]: the menu objects; [emitted]: the signals emitted so far,
    oldest first; [timerSeq]: the number of timers handed out by
    [setTimeout], whose handles are [1, 2, ...]. *)
Record World := mkWorld {
  menus : list Menu;
  emitted : list Signal;
  timerSeq : nat
}.

(** A reference outside the store reads as a menu that was never opened,
    and a write through it is dropped.  JavaScript has no such references;
    the case only makes the functions below total. *)
Definition menu (w : World) (m : MenuId) : Menu :=
  default (newMenu MenuItemRenderer.instance) (menus w !! m).

Definition modify (m : MenuId) (f : Menu -> Menu) (w : World) : World :=
  mkWorld (alter f m (menus w)) (emitted w) (timerSeq w).

Definition emit (s : Signal) (w : World) : World :=
  mkWorld (menus w) (emitted w ++ [s]) (timerSeq w).

(** The bound given to the loops that follow [_childMenu] or [_parentMenu]
    references: a walk through distinct menus of the store is shorter. *)
Definition fuelOf (w : World) : nat := S (S (length (menus w))).

(** *** Timers *)

(** One more handle was handed out by [setTimeout]. *)
Definition tick (w : World) : World :=
  mkWorld (menus w) (emitted w) (S (timerSeq w)).

Definition _startOpenTimer (m : MenuId) (w : World) : World :=
  if _openTimerID (menu w m) =? 0 then
    tick (modify m (set_openTimerID (Z.of_nat (S (timerSeq w)))) w)
  else w.

Definition _startCloseTimer (m : MenuId) (w : World) : World :=
  if _closeTimerID (menu w m) =? 0 then
    tick (modify m (set_closeTimerID (Z.of_nat (S (timerSeq w)))) w)
  else w.

(** *** Closing: [onCloseRequest]

    Modelled from the spec: [Widget.close], [Widget.detach] and the
    [parent] setter of the widget base class, which are not part of the
    source file.  [close()] delivers the close request at once, so it runs
    [onCloseRequest]; a menu taken out of its host widget ([parent = null])
    or detached from the document is no longer attached. *)
Definition unmount (m : Menu) : Menu := set_mount None false m.

(** "Cancel the pending timers" and "Reset the active index". *)
Definition closeHead (w : World) (m : MenuId) : World :=
  let w := modify m _cancelOpenTimer w in
  let w := modify m _cancelCloseTimer w in
  modify m (setActiveIndex (-1)) w.

(** The two writes that sever the link to an open child. *)
Definition unlinkChild (w : World) (m childMenu : MenuId) : World :=
  let w := modify m (set_childLink (-1) None) w in
  modify childMenu (set_parentMenu None) w.

(** "Remove this menu from any parent", then "If the menu is parented,
    remove it and emit the closed signal" and "If the menu is attached,
    detach it and emit the closed signal". *)
Definition closeTail (w : World) (m : MenuId) : World :=
  let w :=
    match _parentMenu (menu w m) with
    | Some parentMenu =>
        let w := modify m (set_parentMenu None) w in
        let w := modify parentMenu _cancelOpenTimer w in
        let w := modify parentMenu _cancelCloseTimer w in
        modify parentMenu (set_childLink (-1) None) w
    | None => w
    end in
  if bool_decide (parent (menu w m) ≠ None) then
    emit (closed m) (modify m unmount w)
  else if isAttached (menu w m) then
    emit (closed m) (modify m unmount w)
  else w.

(** [onCloseRequest].  [fuel] bounds the depth of the recursive
    [childMenu.close()] calls; [close_returns] shows that the bound
    [fuelOf] is never reached, whatever the store. *)
Fixpoint close_fuel (fuel : nat) (w : World) (m : MenuId) : option World :=
  match fuel with
  | O => None
  | S fuel' =>
      let w := closeHead w m in
      (* Close any open child menu. *)
      w ← match _childMenu (menu w m) with
          | Some childMenu => close_fuel fuel' (unlinkChild w m childMenu) childMenu
          | None => Some w
          end;
      Some (closeTail w m)
  end.

Definition close (w : World) (m : MenuId) : option World :=
  close_fuel (fuelOf w) w m.

(** [_closeChildMenu]. *)
Definition _closeChildMenu (w : World) (m : MenuId) : option World :=
  match _childMenu (menu w m) with
  | None => Some w
  | Some child =>
      close (unlinkChild w m child) child
  end.

(** [_triggerItem]: the [while (menu)] loop, then [root.close()]. *)
Fixpoint triggerLoop (fuel : nat) (w : World) (m : MenuId) (item : MenuItem)
  : option (World * MenuId) :=
  match fuel with
  | O => None
  | S fuel' =>
      let root := m in
      let w := emit (triggered m item) w in
      match _parentMenu (menu w m) with
      | Some p => triggerLoop fuel' w p item
      | None => Some (w, root)
      end
  end.

Definition _triggerItem (w : World) (m : MenuId) (item : MenuItem)
  : option World :=
  '(w, root) ← triggerLoop (fuelOf w) w m item;
  close w root.

(** ** Opening *)

(** How a call ends that can raise: it returns, or a [TypeError] raised
    in it ends it; [w] is the store as the call leaves it.  Nothing in the
    source file catches an exception. *)
Inductive Outcome :=
| returned (w : World)
| raised (w : World).

Definition after (o : Outcome) : World :=
  match o with
  | returned w | raised w => w
  end.

(** [first; rest] for a call [first] that can raise: [rest] runs when
    [first] returns. *)
Definition andThen (first : option Outcome) (rest : World -> option Outcome)
  : option Outcome :=
  o ← first;
  match o with
  | returned w => rest w
  | raised w => Some (raised w)
  end.

Record Rect := mkRect {
  rect_left : Z; rect_top : Z; rect_right : Z; rect_bottom : Z
}.

Record BoxSizing := mkBox {
  borderTop : Z; paddingTop : Z; borderBottom : Z; paddingBottom : Z
}.

(** What the menu reads from the browser while it places a node: the
    scroll offset and size of the viewport, and the measures of the
    attached menu node.  [boundingSize m sw] is the [width] and [height]
    of [getBoundingClientRect()] of the node of [m] when its style width
    is [sw]; [itemRect m i] is the bounding rectangle of item node [i] of
    menu [m]. *)
Record Dom := mkDom {
  pageXOffset : Z;
  pageYOffset : Z;
  clientWidth : Z;
  clientHeight : Z;
  scrollHeight : MenuId -> Z;
  offsetWidth : MenuId -> Z;
  nodeClientWidth : MenuId -> Z;
  boundingSize : MenuId -> option Z -> Z * Z;
  boxSizing : MenuId -> BoxSizing;
  itemRect : MenuId -> Z -> Rect
}.

(** Modelled from the spec: [Widget.attach] of the widget base class, which
    is not part of the source file; it mounts the node under the document
    body, after which the menu is attached. *)
Definition attach (m : Menu) : Menu := set_mount (parent m) true m.

Section Opening.

Variable dom : Dom.

(** The part of [openRootMenu] and [openSubmenu] before the position is
    computed: update request, reset of the geometry, attach, widening by
    the scroll bar.  [sendMessage] delivers the update request at once. *)
Definition prepareOpen (m : MenuId) (maxHeight : Z) (w : World) : World :=
  let w := modify m onUpdateRequest w in
  let w := modify m (set_style (mkStyle None None None None true (Some maxHeight))) w in
  let w := modify m attach w in
  if scrollHeight dom m >? maxHeight then
    modify m (λ x, set_style
      (mkStyle None None (Some (2 * offsetWidth dom m - nodeClientWidth dom m))
               None true (Some maxHeight)) x) w
  else w.

(** "Measure the size of the menu": [node.getBoundingClientRect()]. *)
Definition measure (w : World) (m : MenuId) : Z * Z :=
  boundingSize dom m (style_width (style (menu w m))).

(** "Update the position of the menu to the computed position" and
    "make the menu visible". *)
Definition place (m : MenuId) (x y : Z) (w : World) : World :=
  modify m (λ k, set_style
    (mkStyle (Some (Z.max 0 y)) (Some (Z.max 0 x)) (style_width (style k))
             (style_height (style k)) false (style_maxHeight (style k))) k) w.

(** [Private.openRootMenu]. *)
Definition openRootMenu (w : World) (m : MenuId) (x y : Z)
    (forceX forceY : bool) : World :=
  let px := pageXOffset dom in
  let py := pageYOffset dom in
  let cw := clientWidth dom in
  let ch := clientHeight dom in
  let maxHeight := ch - (if forceY then y else 0) in
  let w := prepareOpen m maxHeight w in
  let '(width, height) := measure w m in
  let x := adjustX forceX x width px cw in
  let y := adjustY forceY y height py ch in
  place m x y w.

(** [Private.openSubmenu(menu, itemNode)].  [itemNode] is an item node,
    named by its menu and its index, or [None] for [undefined], on which
    [itemNode.getBoundingClientRect()] raises a [TypeError]: the menu is
    attached and measured by then, and is neither placed nor made
    visible. *)
Definition openSubmenu (w : World) (m : MenuId) (itemNode : option (MenuId * Z))
  : Outcome :=
  let px := pageXOffset dom in
  let py := pageYOffset dom in
  let cw := clientWidth dom in
  let ch := clientHeight dom in
  let maxHeight := ch in
  let w := prepareOpen m maxHeight w in
  let '(width, height) := measure w m in
  let box := boxSizing dom m in
  match itemNode with
  | None => raised w
  | Some (owner, i) =>
      let itemRect := itemRect dom owner i in
      let x := rect_right itemRect - SUBMENU_OVERLAP in
      let x := if x + width >? px + cw
               then rect_left itemRect + SUBMENU_OVERLAP - width else x in
      let y := rect_top itemRect - borderTop box - paddingTop box in
      let y := if y + height >? py + ch
               then rect_bottom itemRect + borderBottom box + paddingBottom box
                    - height
               else y in
      returned (place m x y w)
  end.

(** [this.activeItemNode], which [_openChildMenu] passes to
    [openSubmenu]: neither [class Menu] nor the source file declares a
    member of that name (the class has [activeItem], [activeIndex] and
    [contentNode]), so the expression is [undefined]. *)
Definition activeItemNode (x : Menu) : option (MenuId * Z) := None.

(** [Menu.open(x, y, options)]. *)
Definition open (w : World) (m : MenuId) (x y : Z) (forceX forceY : bool)
  : World :=
  if isAttached (menu w m) then w
  else openRootMenu w m x y forceX forceY.

(** [_openChildMenu].  The three link fields are written before
    [openSubmenu] is called. *)
Definition _openChildMenu (w : World) (m : MenuId) : option Outcome :=
  match activeItem (menu w m) with
  | Some item =>
      match type item, item_submenu item with
      | submenu, Some sub =>
          if bool_decide (_childMenu (menu w m) = Some sub) then Some (returned w)
          else
            w ← _closeChildMenu w m;
            let w := modify m (λ x, set_childLink (_activeIndex x) (Some sub) x) w in
            let w := modify sub (set_parentMenu (Some m)) w in
            Some (openSubmenu w sub (activeItemNode (menu w m)))
      | _, _ => returned <$> _closeChildMenu w m
      end
  | None => returned <$> _closeChildMenu w m
  end.

(** *** Event handlers

    A mouse event carries its [button] and the result [hit] of
    [findIndex(this._nodes, node => hitTest(node, x, y))]. *)

Definition _evtMouseUp (w : World) (m : MenuId) (button hit : Z)
  : option Outcome :=
  if negb (button =? 0) then Some (returned w)
  else
    let w := modify m (setActiveIndex hit) w in
    match activeItem (menu w m) with
    | None => Some (returned w)
    | Some item =>
        let w := modify m _cancelOpenTimer w in
        let w := modify m _cancelCloseTimer w in
        if MenuItemType_eqb (type item) submenu then _openChildMenu w m
        else returned <$> _triggerItem w m item
    end.

(** [for (menu = this._parentMenu; menu; menu = menu._parentMenu)]. *)
Fixpoint syncAncestors (fuel : nat) (w : World) (cur : option MenuId)
  : option World :=
  match fuel with
  | O => None
  | S fuel' =>
      match cur with
      | None => Some w
      | Some k =>
          let w := modify k _cancelOpenTimer w in
          let w := modify k _cancelCloseTimer w in
          let w := modify k (λ x, setActiveIndex (_childIndex x) x) w in
          syncAncestors fuel' w (_parentMenu (menu w k))
      end
  end.

Definition _evtMouseMove (w : World) (m : MenuId) (hit : Z) : option World :=
  let i := hit in
  if i =? _activeIndex (menu w m) then Some w
  else
    let w := modify m (setActiveIndex i) w in
    let i := _activeIndex (menu w m) in
    w ← syncAncestors (fuelOf w) w (_parentMenu (menu w m));
    if i =? _childIndex (menu w m) then
      Some (modify m _cancelCloseTimer (modify m _cancelOpenTimer w))
    else
      let w := if negb (_childIndex (menu w m) =? -1)
               then _startCloseTimer m w else w in
      let w := modify m _cancelOpenTimer w in
      match activeItem (menu w m) with
      | Some item =>
          match type item, item_submenu item with
          | submenu, Some _ => Some (_startOpenTimer m w)
          | _, _ => Some w
          end
      | None => Some w
      end.

(** [overChild] is [hitTest(this._childMenu.node, x, y)]. *)
Definition _evtMouseLeave (w : World) (m : MenuId) (overChild : bool)
  : World :=
  let w := modify m _cancelOpenTimer w in
  match _childMenu (menu w m) with
  | None => modify m (setActiveIndex (-1)) w
  | Some _ =>
      if overChild then modify m _cancelCloseTimer w
      else _startCloseTimer m (modify m (setActiveIndex (-1)) w)
  end.

(** "Activate the first item in the child menu if possible", the
    statement that follows [this._openChildMenu()] for Enter and Right. *)
Definition activateChild (m : MenuId) (w : World) : option Outcome :=
  match _childMenu (menu w m) with
  | Some c => Some (returned (modify c activateFirstSelectable w))
  | None => Some (returned w)
  end.

Definition _evtKeyDown (w : World) (m : MenuId) (kc : Z) : option Outcome :=
  if bool_decide (_childMenu (menu w m) ≠ None) then Some (returned w)
  else if kc =? 13 then
    match activeItem (menu w m) with
    | None => Some (returned w)
    | Some item =>
        let w := modify m _cancelOpenTimer w in
        let w := modify m _cancelCloseTimer w in
        if negb (MenuItemType_eqb (type item) submenu)
        then returned <$> _triggerItem w m item
        else andThen (_openChildMenu w m) (activateChild m)
    end
  else if kc =? 27 then returned <$> close w m
  else if kc =? 37 then
    if bool_decide (_parentMenu (menu w m) ≠ None) then returned <$> close w m
    else Some (returned w)
  else if kc =? 38 then Some (returned (modify m activatePrevSelectable w))
  else if kc =? 39 then
    match activeItem (menu w m) with
    | Some item =>
        if negb (MenuItemType_eqb (type item) submenu) then Some (returned w)
        else
          let w := modify m _cancelOpenTimer w in
          let w := modify m _cancelCloseTimer w in
          andThen (_openChildMenu w m) (activateChild m)
    | None => Some (returned w)
    end
  else if kc =? 40 then Some (returned (modify m activateNextSelectable w))
  else Some (returned w).

(** [char] is [String.fromCharCode(event.charCode)]. *)
Definition _evtKeyPress (w : World) (m : MenuId) (char : ascii) : World :=
  if bool_decide (_childMenu (menu w m) ≠ None) then w
  else modify m (activateNextMnemonic char) w.

(** [for (menu = this; menu; menu = menu._childMenu)] of [_evtMouseDown];
    [hitTest k] tells whether the press is over the node of menu [k]. *)
Fixpoint pressInChain (fuel : nat) (w : World) (cur : option MenuId)
    (hitTest : MenuId -> bool) : option bool :=
  match fuel with
  | O => None
  | S fuel' =>
      match cur with
      | None => Some false
      | Some k =>
          if hitTest k then Some true
          else pressInChain fuel' w (_childMenu (menu w k)) hitTest
      end
  end.

Definition _evtMouseDown (w : World) (m : MenuId) (hitTest : MenuId -> bool)
  : option World :=
  if bool_decide (_parentMenu (menu w m) ≠ None) then Some w
  else
    inside ← pressInChain (fuelOf w) w (Some m) hitTest;
    if inside : bool then Some w else close w m.

Inductive Event :=
| mouseup (button hit : Z)
| mousemove (hit : Z)
| mouseleave (overChild : bool)
| contextmenu
| keydown (keyCode : Z)
| keypress (char : ascii)
| mousedown (hitTest : MenuId -> bool).

Definition handleEvent (w : World) (m : MenuId) (event : Event)
  : option Outcome :=
  match event with
  | mouseup button hit => _evtMouseUp w m button hit
  | mousemove hit => returned <$> _evtMouseMove w m hit
  | mouseleave overChild => Some (returned (_evtMouseLeave w m overChild))
  | contextmenu => Some (returned w)
  | keydown kc => _evtKeyDown w m kc
  | keypress char => Some (returned (_evtKeyPress w m char))
  | mousedown hitTest => returned <$> _evtMouseDown w m hitTest
  end.

(** The callbacks given to [setTimeout]; a timer that is not pending
    does not fire. *)
Definition openTimerFires (w : World) (m : MenuId) : option Outcome :=
  if _openTimerID (menu w m) =? 0 then Some (returned w)
  else _openChildMenu (modify m (set_openTimerID 0) w) m.

Definition closeTimerFires (w : World) (m : MenuId) : option World :=
  if _closeTimerID (menu w m) =? 0 then Some w
  else _closeChildMenu (modify m (set_closeTimerID 0) w) m.

End Opening.

(** ** Items of a menu: [insertItem], [removeItem], [clearItems]

    The item argument is a [MenuItem] (an options object is converted by
    the [MenuItem] constructor before it gets here).  The content node of
    the menu holds the item nodes in the order of [_nodes]; it is not
    modelled apart from [_nodes]. *)

Definition closeIfAttached (w : World) (m : MenuId) : option World :=
  if isAttached (menu w m) then close w m else Some w.

(** What the three methods do to the menu itself: "Reset the active
    index", then the change of the two vectors. *)
Definition insertedAt (index : Z) (item : MenuItem) (x : Menu) : Menu :=
  let x := set_active (-1) (_nodes x) x in
  let i := Z.max 0 (Z.min index (len (_items x))) in
  let node := createItemNode (_renderer x) in
  set_vectors (vec_insert (_items x) i item) (vec_insert (_nodes x) i node) x.

Definition removedAt (i : Z) (x : Menu) : Menu :=
  let x := set_active (-1) (_nodes x) x in
  set_vectors (vec_remove (_items x) i) (vec_remove (_nodes x) i) x.

Definition cleared (x : Menu) : Menu :=
  set_vectors [] [] (set_active (-1) (_nodes x) x).

Definition insertItem (w : World) (m : MenuId) (index : Z) (item : MenuItem)
  : option World :=
  w ← closeIfAttached w m;
  Some (modify m (insertedAt index item) w).

Definition addItem (w : World) (m : MenuId) (item : MenuItem) : option World :=
  insertItem w m (len (_items (menu w m))) item.

Definition removeItem (w : World) (m : MenuId) (index : Z) : option World :=
  let i := index in
  if (i <? 0) || (i >=? len (_items (menu w m))) then Some w
  else
    w ← closeIfAttached w m;
    Some (modify m (removedAt i) w).

Definition clearItems (w : World) (m : MenuId) : option World :=
  w ← closeIfAttached w m;
  Some (modify m cleared w).

(** ** Operations

    What can happen to a store of menus: a call of the public interface,
    a DOM event delivered to a menu, a timer that fires, an update
    request.  Each happens under the browser state [dom] of its moment.
    [perform] tells how the operation ends; it is [None] when the source
    does not end (a walk along a cyclic chain of references), and
    [exec_ends] shows that this does not happen in a store whose links are
    paired and acyclic.  [exec] is the store the operation leaves: an
    exception raised in an event listener or in a timer callback ends
    that listener or callback and nothing else, and the menus stay as
    they are at that point. *)
Inductive Op :=
| call_setActiveIndex (m : MenuId) (value : Z)
| call_addItem (m : MenuId) (item : MenuItem)
| call_insertItem (m : MenuId) (index : Z) (item : MenuItem)
| call_removeItem (m : MenuId) (index : Z)
| call_clearItems (m : MenuId)
| call_open (m : MenuId) (x y : Z) (forceX forceY : bool)
| call_close (m : MenuId)
| dom_event (m : MenuId) (event : Event)
| timer_open (m : MenuId)
| timer_close (m : MenuId)
| update_request (m : MenuId).

Definition perform (dom : Dom) (op : Op) (w : World) : option Outcome :=
  match op with
  | call_setActiveIndex m value =>
      Some (returned (modify m (setActiveIndex value) w))
  | call_addItem m item => returned <$> addItem w m item
  | call_insertItem m index item => returned <$> insertItem w m index item
  | call_removeItem m index => returned <$> removeItem w m index
  | call_clearItems m => returned <$> clearItems w m
  | call_open m x y forceX forceY =>
      Some (returned (open dom w m x y forceX forceY))
  | call_close m => returned <$> close w m
  | dom_event m event => handleEvent dom w m event
  | timer_open m => openTimerFires dom w m
  | timer_close m => returned <$> closeTimerFires w m
  | update_request m => Some (returned (modify m onUpdateRequest w))
  end.

Definition exec (dom : Dom) (op : Op) (w : World) : option World :=
  after <$> perform dom op w.

(** A run: the operations of [ops] one after the other. *)
Fixpoint run (ops : list (Dom * Op)) (w : World) : option World :=
  match ops with
  | [] => Some w
  | (dom, op) :: ops' => w' ← exec dom op w; run ops' w'
  end.

(** The states after each operation of a run. *)
Fixpoint trace (ops : list (Dom * Op)) (w : World) : list World :=
  match ops with
  | [] => []
  | (dom, op) :: ops' =>
      match exec dom op w with
      | Some w' => w' :: trace ops' w'
      | None => []
      end
  end.

(** A store of menus as their constructors leave them. *)
Definition initial (renderers : list IMenuItemRenderer) : World :=
  mkWorld (map newMenu renderers) [] 0.

(** ** Templates

    [IMenuItemOptions]: every field may be left out.  [M] is the type of
    the [submenu] field, a menu or a template. *)
Record IMenuItemOptions (M : Type) := mkOptions {
  opt_type : option MenuItemType;
  opt_text : option string;
  opt_icon : option string;
  opt_shortcut : option string;
  opt_checked : option bool;
  opt_disabled : option bool;
  opt_hidden : option bool;
  opt_className : option string;
  opt_command : option string;
  opt_submenu : option M
}.

Arguments mkOptions {M}.
Arguments opt_type {M}.
Arguments opt_text {M}.
Arguments opt_icon {M}.
Arguments opt_shortcut {M}.
Arguments opt_checked {M}.
Arguments opt_disabled {M}.
Arguments opt_hidden {M}.
Arguments opt_className {M}.
Arguments opt_command {M}.
Arguments opt_submenu {M}.

(** [MenuItem | IMenuItemOptions] and [Menu | MenuTemplate]. *)
Inductive ItemArg :=
| item_object (item : MenuItem)
| item_options (options : IMenuItemOptions MenuArg)
with MenuArg :=
| menu_object (m : MenuId)
| menu_template (template : list ItemArg).

(** [new Menu()]: a fresh menu object, at the end of the store. *)
Definition allocMenu (w : World) : World * MenuId :=
  (mkWorld (menus w ++ [newMenu MenuItemRenderer.instance]) (emitted w) (timerSeq w),
   length (menus w)).

(** [insertItem(index, item)] with [Private.asMenuItem(item)] run where
    the source runs it: after the menu was closed, its selection reset,
    the index clamped and the node created. *)
Definition insertItemAs (asMenuItem : World -> option (World * MenuItem))
    (w : World) (m : MenuId) (index : Z) : option World :=
  w ← closeIfAttached w m;
  let w := modify m (λ x, set_active (-1) (_nodes x) x) w in
  let i := Z.max 0 (Z.min index (len (_items (menu w m)))) in
  let node := createItemNode (_renderer (menu w m)) in
  '(w, item) ← asMenuItem w;
  Some (modify m (λ x, set_vectors (vec_insert (_items x) i item)
                                   (vec_insert (_nodes x) i node) x) w).

Definition addItemAs (asMenuItem : World -> option (World * MenuItem))
    (w : World) (m : MenuId) : option World :=
  insertItemAs asMenuItem w m (len (_items (menu w m))).

(** [Private.asMenu] and [Private.asMenuItem], with the [MenuItem]
    constructor. *)
Fixpoint asMenu (value : MenuArg) (w : World) {struct value}
  : option (World * MenuId) :=
  match value with
  | menu_object m => Some (w, m)
  | menu_template template =>
      let '(w, result) := allocMenu w in
      w ← (fix each (l : list ItemArg) (w : World) {struct l} : option World :=
             match l with
             | [] => Some w
             | item :: l' => w ← addItemAs (asMenuItem item) w result; each l' w
             end) template w;
      Some (w, result)
  end
with asMenuItem (value : ItemArg) (w : World) {struct value}
  : option (World * MenuItem) :=
  match value with
  | item_object item => Some (w, item)
  | item_options (mkOptions ty tx ic sh ch di hi cn cm sub) =>
      '(w, child) ← match sub with
                      | Some v => '(w, m) ← asMenu v w; Some (w, Some m)
                      | None => Some (w, None)
                      end;
      Some (w, {| type := default (type defaultItem) ty;
                  text := default (text defaultItem) tx;
                  icon := default (icon defaultItem) ic;
                  shortcut := default (shortcut defaultItem) sh;
                  checked := default (checked defaultItem) ch;
                  disabled := default (disabled defaultItem) di;
                  hidden := default (hidden defaultItem) hi;
                  className := default (className defaultItem) cn;
                  command := default (command defaultItem) cm;
                  item_submenu := child |})
  end.

Definition fromTemplate (template : list ItemArg) (w : World)
  : option (World * MenuId) :=
  asMenu (menu_template template) w.

(** * The box layout

    [BoxLayout] of the first part of the source file: the widgets of a
    panel in one row or column.  The widgets, their sizers and the parent
    node are data of the embedding; [boxCalc] of the box engine, which
    is not part of the source file, is a parameter of [_update] and of
    [_fit], which runs [_update]. *)

Module BoxLayout.

Inductive Direction := LeftToRight | RightToLeft | TopToBottom | BottomToTop.

(** A size limit in pixels, or [Infinity]. *)
Inductive Extent := px (z : Z) | Infinity.

(** [a + b], [Math.min(a, b)] and [a + z] on limits. *)
Definition ext_add (a b : Extent) : Extent :=
  match a, b with
  | px x, px y => px (x + y)
  | _, _ => Infinity
  end.

Definition ext_min (a b : Extent) : Extent :=
  match a, b with
  | px x, px y => px (Z.min x y)
  | px x, Infinity => px x
  | Infinity, b => b
  end.

(** What [sizeLimits(widget.node)] reports. *)
Record ISizeLimits := mkLimits {
  minWidth : Z; minHeight : Z; maxWidth : Extent; maxHeight : Extent
}.

(** The fields of [IBoxSizing] the layout reads. *)
Record IBoxSizing := mkBoxSizing {
  paddingTop : Z; paddingLeft : Z; horizontalSum : Z; verticalSum : Z
}.

(** [BoxSizer] of the box engine: the fields the layout writes, and
    [size], which [boxCalc] computes. *)
Record BoxSizer := mkSizer {
  sizeHint : Z; minSize : Z; maxSize : Extent; stretch : Z; size : Z
}.

(** A child widget, as the layout sees it: [isHidden], the size limits
    of its node and its two attached properties. *)
Record Widget := mkWidget {
  isHidden : bool;
  limits : ISizeLimits;
  sizeBasis : Z;
  stretchFactor : Z
}.

(** The size constraints written to the style of the parent node;
    [Infinity] is ['none']. *)
Record SizeStyle := mkSizeStyle {
  style_minWidth : Z; style_minHeight : Z;
  style_maxWidth : Extent; style_maxHeight : Extent
}.

(** The parent widget: what its node measures, and its flags. *)
Record Parent := mkParent {
  offsetWidth : Z;
  offsetHeight : Z;
  boxSizing : IBoxSizing;
  isVisible : bool;
  isAttached : bool
}.

(** The private fields of [class BoxLayout], and the [widgets] of its base
    class. *)
Record Layout := mkLayout {
  _fixed : Z;
  _spacing : Z;
  _dirty : bool;
  _box : option IBoxSizing;
  _sizers : list BoxSizer;
  _direction : Direction;
  widgets : list Widget
}.

(** One call [setGeometry(widget, left, top, width, height)], for the
    widget at position [geo_widget]. *)
Record Geometry := mkGeometry {
  geo_widget : nat; geo_left : Z; geo_top : Z; geo_width : Z; geo_height : Z
}.

(** [BoxLayoutPrivate.isHorizontal]. *)
Definition isHorizontal (dir : Direction) : bool :=
  match dir with
  | LeftToRight | RightToLeft => true
  | _ => false
  end.

(** ** [_fit] *)

(** "Compute the visible item count". *)
Fixpoint countVisible (ws : list Widget) : Z :=
  match ws with
  | [] => 0
  | widget :: ws' =>
      if negb (isHidden widget) then countVisible ws' + 1 else countVisible ws'
  end.

(** "Update the sizers and computed size limits": the second loop of
    [_fit]; [rest] is [widgets] from position [i] on.  [None] stands for
    the [TypeError] of a missing sizer. *)
Fixpoint fitLoop (horz : bool) (rest : list Widget) (i : nat)
    (sizers : list BoxSizer) (minW minH : Z) (maxW maxH : Extent)
  : option (list BoxSizer * (Z * Z * Extent * Extent)) :=
  match rest with
  | [] => Some (sizers, (minW, minH, maxW, maxH))
  | widget :: rest' =>
      sizer ← sizers !! i;
      if isHidden widget then
        let sizer := mkSizer (sizeHint sizer) 0 (px 0) (stretch sizer) (size sizer) in
        fitLoop horz rest' (S i) (<[i := sizer]> sizers) minW minH maxW maxH
      else
        let l := limits widget in
        if horz then
          let sizer := mkSizer (sizeBasis widget) (minWidth l) (maxWidth l)
                               (stretchFactor widget) (size sizer) in
          fitLoop horz rest' (S i) (<[i := sizer]> sizers)
            (minW + minWidth l) (Z.max minH (minHeight l))
            (ext_add maxW (maxWidth l)) (ext_min maxH (maxHeight l))
        else
          let sizer := mkSizer (sizeBasis widget) (minHeight l) (maxHeight l)
                               (stretchFactor widget) (size sizer) in
          fitLoop horz rest' (S i) (<[i := sizer]> sizers)
            (Z.max minW (minWidth l)) (minH + minHeight l)
            (ext_min maxW (maxWidth l)) (ext_add maxH (maxHeight l))
  end.

(** The part of [_fit] from "Compute the visible item count" to "Set
    the dirty flag": the new state of the layout and the constraints
    written to the style of the parent.  [_fit] itself follows
    [_update], which it runs. *)
Definition fitConstraints (parent : Parent) (layout : Layout)
  : option (Layout * SizeStyle) :=
  let nVisible := countVisible (widgets layout) in
  let fixed := _spacing layout * Z.max 0 (nVisible - 1) in
  let horz := isHorizontal (_direction layout) in
  let '(minW, minH, maxW, maxH) :=
    if horz then (fixed, 0, (if nVisible >? 0 then px fixed else Infinity), Infinity)
    else (0, fixed, Infinity, (if nVisible >? 0 then px fixed else Infinity)) in
  '(sizers, (minW, minH, maxW, maxH)) ←
    fitLoop horz (widgets layout) 0 (_sizers layout) minW minH maxW maxH;
  let box := boxSizing parent in
  let minW := minW + horizontalSum box in
  let minH := minH + verticalSum box in
  let maxW := ext_add maxW (px (horizontalSum box)) in
  let maxH := ext_add maxH (px (verticalSum box)) in
  Some (mkLayout fixed (_spacing layout) true (Some box) sizers
                 (_direction layout) (widgets layout),
        mkSizeStyle minW minH maxW maxH).

(** ** [_update] *)

Section Update.

(** [boxCalc(sizers, space)] of the box engine sets the [size] of every
    sizer. *)
Variable boxCalc : list BoxSizer -> Z -> list BoxSizer.

(** "Layout the widgets using the computed box sizes": [rest] is
    [widgets] from position [i] on; the result lists the calls of
    [setGeometry] in the order they are made. *)
Fixpoint layoutLoop (dir : Direction) (spacing width height : Z)
    (sizers : list BoxSizer) (rest : list Widget) (i : nat) (left top : Z)
  : option (list Geometry) :=
  match rest with
  | [] => Some []
  | widget :: rest' =>
      if isHidden widget then
        layoutLoop dir spacing width height sizers rest' (S i) left top
      else
        sizer ← sizers !! i;
        let size := size sizer in
        match dir with
        | LeftToRight =>
            calls ← layoutLoop dir spacing width height sizers rest' (S i)
                      (left + (size + spacing)) top;
            Some (mkGeometry i left top size height :: calls)
        | TopToBottom =>
            calls ← layoutLoop dir spacing width height sizers rest' (S i)
                      left (top + (size + spacing));
            Some (mkGeometry i left top width size :: calls)
        | RightToLeft =>
            calls ← layoutLoop dir spacing width height sizers rest' (S i)
                      (left - (size + spacing)) top;
            Some (mkGeometry i (left - size) top size height :: calls)
        | BottomToTop =>
            calls ← layoutLoop dir spacing width height sizers rest' (S i)
                      left (top - (size + spacing));
            Some (mkGeometry i left (top - size) width size :: calls)
        end
  end.

(** [_update(offsetWidth, offsetHeight)]: the new state of the layout and
    the calls of [setGeometry]. *)
Definition _update (parent : Parent) (offsetWidth offsetHeight : Z)
    (layout : Layout) : option (Layout * list Geometry) :=
  let layout := mkLayout (_fixed layout) (_spacing layout) false (_box layout)
                         (_sizers layout) (_direction layout) (widgets layout) in
  if bool_decide (length (widgets layout) = 0%nat) then Some (layout, [])
  else
    let offsetWidth :=
      if offsetWidth <? 0 then BoxLayout.offsetWidth parent else offsetWidth in
    let offsetHeight :=
      if offsetHeight <? 0 then BoxLayout.offsetHeight parent else offsetHeight in
    let box := default (boxSizing parent) (_box layout) in
    let top := paddingTop box in
    let left := paddingLeft box in
    let width := offsetWidth - horizontalSum box in
    let height := offsetHeight - verticalSum box in
    let '(sizers, startLeft, startTop) :=
      match _direction layout with
      | LeftToRight =>
          (boxCalc (_sizers layout) (Z.max 0 (width - _fixed layout)), left, top)
      | TopToBottom =>
          (boxCalc (_sizers layout) (Z.max 0 (height - _fixed layout)), left, top)
      | RightToLeft =>
          (boxCalc (_sizers layout) (Z.max 0 (width - _fixed layout)),
           left + width, top)
      | BottomToTop =>
          (boxCalc (_sizers layout) (Z.max 0 (height - _fixed layout)),
           left, top + height)
      end in
    calls ← layoutLoop (_direction layout) (_spacing layout) width height sizers
              (widgets layout) 0 startLeft startTop;
    Some (mkLayout (_fixed layout) (_spacing layout) false (Some box) sizers
                   (_direction layout) (widgets layout),
          calls).

(** [onResize] and [onUpdateRequest]: the widgets are laid out when the
    parent is visible. *)
Definition onResize (parent : Parent) (width height : Z) (layout : Layout)
  : option (Layout * list Geometry) :=
  if isVisible parent then _update parent width height layout
  else Some (layout, []).

Definition onUpdateRequest (parent : Parent) (layout : Layout)
  : option (Layout * list Geometry) :=
  if isVisible parent then _update parent (-1) (-1) layout
  else Some (layout, []).

(** ** [_fit], whole *)

(** The resize messages [(width, height)] of [resizes] reach the layout
    one after the other. *)
Fixpoint deliver (parent : Parent) (resizes : list (Z * Z)) (layout : Layout)
  : option (Layout * list Geometry) :=
  match resizes with
  | [] => Some (layout, [])
  | (width, height) :: resizes' =>
      '(layout, calls) ← onResize parent width height layout;
      '(layout, calls') ← deliver parent resizes' layout;
      Some (layout, calls ++ calls')
  end.

(** [_fit()].  After the dirty flag is set, the source sends a fit
    request to the ancestor, [this.parent.parent], if there is one, and
    then, "if the dirty flag is still set", an update request to the
    parent.  [sendMessage] delivers a message at once.  The ancestor is
    a widget outside the source file; what its handling of the request
    does to this layout ("This may cause a resize of the parent") is the
    argument [ancestor]: [None] when the parent has no parent, and
    otherwise the resize messages that the parent receives meanwhile,
    which its layout handles by [onResize].  The update request is
    handled by [onUpdateRequest].  The result is the state of the
    layout, the constraints written to the style of the parent and the
    calls of [setGeometry]. *)
Definition _fit (parent : Parent) (ancestor : option (list (Z * Z)))
    (layout : Layout) : option (Layout * SizeStyle * list Geometry) :=
  '(layout, style) ← fitConstraints parent layout;
  '(layout, calls) ← match ancestor with
                     | Some resizes => deliver parent resizes layout
                     | None => Some (layout, [])
                     end;
  if _dirty layout then
    '(layout, calls') ← onUpdateRequest parent layout;
    Some (layout, style, calls ++ calls')
  else Some (layout, style, calls).

(** [onFitRequest]: the layout is fitted when the parent is attached. *)
Definition onFitRequest (parent : Parent) (ancestor : option (list (Z * Z)))
    (layout : Layout) : option (Layout * option SizeStyle * list Geometry) :=
  if isAttached parent then
    '(layout, style, calls) ← _fit parent ancestor layout;
    Some (layout, Some style, calls)
  else Some (layout, None, []).

End Update.

End BoxLayout.

(** * Vocabulary of the statements *)

(** ** Frames and the closed state *)

(** [f] keeps the field (or derived value) [g] of every menu. *)
Definition keeps {A} (g : Menu -> A) (f : Menu -> Menu) : Prop :=
  ∀ x, g (f x) = g x.

(** Every recursive call of [onCloseRequest] is made after one
    [_childMenu] reference of the store has been cleared, so the number
    of menus that hold such a reference bounds the depth of the calls. *)
Definition openLinks (l : list Menu) : nat :=
  length (filter (λ x, _childMenu x ≠ None) l).

(** [quieter x y]: menu [y] is menu [x] after fields were reset to their
    closed values; items, renderer, style and the number of nodes are
    the same. *)
Definition quieter (x y : Menu) : Prop :=
  (_childMenu y = None ∨ _childMenu y = _childMenu x) ∧
  (_childIndex y = -1 ∨ _childIndex y = _childIndex x) ∧
  (_parentMenu y = None ∨ _parentMenu y = _parentMenu x) ∧
  (_openTimerID y = 0 ∨ _openTimerID y = _openTimerID x) ∧
  (_closeTimerID y = 0 ∨ _closeTimerID y = _closeTimerID x) ∧
  (_activeIndex y = -1 ∨ _activeIndex y = _activeIndex x) ∧
  (parent y = None ∨ parent y = parent x) ∧
  (isAttached y = false ∨ isAttached y = isAttached x) ∧
  _items y = _items x ∧ length (_nodes y) = length (_nodes x) ∧
  _renderer y = _renderer x ∧ style y = style x.

Definition quieterWorld (w w' : World) : Prop :=
  (∀ k, quieter (menu w k) (menu w' k)) ∧
  length (menus w') = length (menus w) ∧ timerSeq w' = timerSeq w.

(** The state in which [onCloseRequest] leaves the menu it was called on:
    nothing pending, nothing selected, no link to a child or a parent
    menu, not mounted. *)
Definition shut (x : Menu) : Prop :=
  _openTimerID x = 0 ∧ _closeTimerID x = 0 ∧ _activeIndex x = -1 ∧
  _childMenu x = None ∧ _parentMenu x = None ∧
  parent x = None ∧ isAttached x = false.

(** ** Paired vectors and selectable selection *)

Definition sameLength (x : Menu) : Prop :=
  length (_items x) = length (_nodes x).

(** [activeIndex] is [-1] or the index of a selectable item. *)
Definition activeOK (x : Menu) : Prop :=
  _activeIndex x = -1 ∨
  ∃ item, at_ (_items x) (_activeIndex x) = Some item ∧ isSelectable item = true.

(** The index the setter stores: [value] when it designates a selectable
    item, [-1] otherwise. *)
Definition coerceIndex (items : list MenuItem) (value : Z) : Z :=
  if selectableAt items value then value else -1.

Definition allP (P : Menu -> Prop) (w : World) : Prop := ∀ k, P (menu w k).

(** The operations that change the items of a menu. *)
Definition isItemCall (op : Op) : Prop :=
  match op with
  | call_addItem _ _ | call_insertItem _ _ _
  | call_removeItem _ _ | call_clearItems _ => True
  | _ => False
  end.

(** ** Items, menus and viewports of the examples *)

Definition separatorItem : MenuItem :=
  mkItem separator "" "" "" false false false "" "" None.

Definition normalItem (label : string) : MenuItem :=
  mkItem normal label "" "" false false false "" "" None.

(** [separator, normal 'A', separator, separator, normal 'B', separator]. *)
Definition sixItems : list MenuItem :=
  [separatorItem; normalItem "A"; separatorItem; separatorItem;
   normalItem "B"; separatorItem].

(** The positions of the nodes that carry the hidden class. *)
Definition suppressed (nodes : list Node) : list nat :=
  List.filter
    (λ i, match nodes !! i with
          | Some node => classList_contains HIDDEN_CLASS node
          | None => false
          end)
    (seq 0 (length nodes)).

(** The positions of the separators that stay visible. *)
Definition visibleSeparators (items : list MenuItem) (nodes : list Node)
  : list nat :=
  List.filter
    (λ i, match items !! i, nodes !! i with
          | Some item, Some node =>
              MenuItemType_eqb (type item) separator
              && negb (classList_contains HIDDEN_CLASS node)
          | _, _ => false
          end)
    (seq 0 (length nodes)).

(** A menu showing the six items, as [addItem] builds it. *)
Definition sixMenu : Menu :=
  set_vectors sixItems (replicate 6 MenuItemRenderer.createItemNode)
    (newMenu MenuItemRenderer.instance).

(** The viewport, the store and the measured size used by the examples. *)
Definition domOf (px py cw ch width height : Z) : Dom :=
  mkDom px py cw ch (λ _, height) (λ _, width) (λ _, width)
        (λ _ _, (width, height)) (λ _, mkBox 0 0 0 0) (λ _ _, mkRect 0 0 0 0).

Definition oneMenu : World := initial [MenuItemRenderer.instance].

(** ** Readings of a mnemonic *)

(** [firstMnemonic s d]: [d] is the word character of the leftmost place
    of [s] where ["&&"] is directly followed by a word character. *)
Definition firstMnemonic (s : string) (d : ascii) : Prop :=
  ∃ pre post,
    s = pre +:+ "&&" +:+ String d post ∧ isWordChar d = true ∧
    ∀ pre' e post',
      s = pre' +:+ "&&" +:+ String e post' ->
      (String.length pre' < String.length pre)%nat -> isWordChar e = false.

(** The reading of C5 as it is written: an item matches when its label
    contains ["&&"] directly followed by a character that equals the typed
    one up to case. *)
Fixpoint labelHasMnemonic (c : ascii) (s : string) : bool :=
  match s with
  | String a r =>
      match r with
      | String b (String d _) =>
          (bool_decide (a = "&"%char) && bool_decide (b = "&"%char)
           && bool_decide (toUpperCase d = toUpperCase c))
          || labelHasMnemonic c r
      | _ => false
      end
  | EmptyString => false
  end.

Definition spec_mnemonicAt (items : list MenuItem) (c : ascii) (k : Z) : bool :=
  match at_ items k with
  | Some item => isSelectable item && labelHasMnemonic c (text item)
  | None => false
  end.

Definition spec_activateNextMnemonic (char : ascii) (m : Menu) : Menu :=
  let items := _items m in
  let j := _activeIndex m + 1 in
  let n := len items in
  match scan (λ i, let k := Z.rem (i + j) n in
                   if spec_mnemonicAt items char k then Some k else None)
             0 (length items) with
  | Some k => setActiveIndex k m
  | None => setActiveIndex (-1) m
  end.

(** A menu with the one item ["&&Save &&Open"] and no selection. *)
Definition saveOpenMenu : Menu :=
  set_vectors [normalItem "&&Save &&Open"] [MenuItemRenderer.createItemNode]
    (newMenu MenuItemRenderer.instance).

(** ** Links between menus *)

Definition childOf (w : World) (k : MenuId) := _childMenu (menu w k).
Definition parentOf (w : World) (k : MenuId) := _parentMenu (menu w k).
Definition indexOf (w : World) (k : MenuId) := _childIndex (menu w k).

(** Both sides of every link agree, and [_childIndex] is [-1] exactly
    when there is no child. *)
Record linked (w : World) : Prop := mkLinked {
  link_down : ∀ m c, childOf w m = Some c -> parentOf w c = Some m;
  link_up : ∀ c p, parentOf w c = Some p -> childOf w p = Some c;
  link_index : ∀ m, childOf w m = None ↔ indexOf w m = -1
}.

(** The chains of [_childMenu] references do not cycle: a rank decreases
    along them. *)
Definition ranked (r : MenuId -> nat) (w : World) : Prop :=
  ∀ m c, childOf w m = Some c -> (r c < r m)%nat.

(** The number of menus of the store that rank above, or below, menu
    [k]. *)
Definition above (r : MenuId -> nat) (w : World) (k : MenuId) : nat :=
  length (filter (λ j, (r k < r j)%nat) (seq 0 (length (menus w)))).

Definition below (r : MenuId -> nat) (w : World) (k : MenuId) : nat :=
  length (filter (λ j, (r j < r k)%nat) (seq 0 (length (menus w)))).

(** [w'] has the links of [w]. *)
Definition sameLinks (w w' : World) : Prop :=
  ∀ k, childOf w' k = childOf w k ∧ parentOf w' k = parentOf w k ∧
       indexOf w' k = indexOf w k.

(** A per-menu change that keeps the three link fields. *)
Definition keepsLinks (f : Menu -> Menu) : Prop :=
  keeps _childMenu f ∧ keeps _parentMenu f ∧ keeps _childIndex f.

Definition wellLinked (w : World) : Prop := linked w ∧ ∃ r, ranked r w.

(** [c] is a menu of the store that has no parent menu and no child
    menu. *)
Definition unlinked (w : World) (c : MenuId) : Prop :=
  (c < length (menus w))%nat ∧ childOf w c = None ∧ parentOf w c = None.

(** From [w] to [w'], a menu that has got a child it had not before has
    got a menu other than itself, which was unlinked before. *)
Definition opensUnlinked (w w' : World) : Prop :=
  ∀ m c, childOf w' m = Some c -> childOf w m ≠ Some c -> c ≠ m ∧ unlinked w c.

(** The same test as a computation. *)
Definition opensUnlinkedb (w w' : World) : bool :=
  forallb
    (λ m,
       match childOf w' m with
       | None => true
       | Some c =>
           bool_decide (childOf w m = Some c)
           || (bool_decide (c ≠ m)
               && bool_decide (c < length (menus w))%nat
               && bool_decide (childOf w c = None)
               && bool_decide (parentOf w c = None))
       end)
    (seq 0 (length (menus w'))).

(** [w'] has the links and the menus of [w]. *)
Definition sameShape (w w' : World) : Prop :=
  sameLinks w w' ∧ length (menus w') = length (menus w).

(** The stores reached from freshly constructed menus by operations each
    of which, when it gives a menu a new child, gives it another menu
    that had no parent menu and no child menu before the operation. *)
Inductive reachable : World -> Prop :=
| reachable_initial renderers : reachable (initial renderers)
| reachable_step w dom op w' :
    reachable w -> exec dom op w = Some w' -> opensUnlinked w w' ->
    reachable w'.

Definition submenuItem (label : string) (sub : MenuId) : MenuItem :=
  mkItem submenu label "" "" false false false "" "" (Some sub).

Definition desk : Dom := domOf 0 0 800 600 100 50.





(** A menu that was never opened, with its one item selected through the
    [activeIndex] setter. *)
Definition selectRun : list (Dom * Op) :=
  [ (desk, call_addItem 0 (normalItem "Leaf"));
    (desk, call_setActiveIndex 0 0) ].

Definition threeMenus : World :=
  initial [MenuItemRenderer.instance; MenuItemRenderer.instance;
           MenuItemRenderer.instance].

(** ** Open chains *)

(** A menu that is shown: mounted in a host widget or attached to the
    document. *)
Definition displayed (x : Menu) : Prop := parent x ≠ None ∨ isAttached x = true.

(** [adjacent w l]: every menu of [l] has the next one as its open child,
    which has it as its parent menu; the last one has no open child. *)
Fixpoint adjacent (w : World) (l : list MenuId) : Prop :=
  match l with
  | [] => True
  | p :: l' =>
      match l' with
      | [] => childOf w p = None
      | c :: _ => childOf w p = Some c ∧ parentOf w c = Some p
      end ∧ adjacent w l'
  end.

(** [openChain w l]: [l] is an open chain of menus, from its root to its
    deepest open submenu. *)
Definition openChain (w : World) (l : list MenuId) : Prop :=
  match l with
  | [] => False
  | root :: _ => parentOf w root = None
  end ∧
  adjacent w l ∧ NoDup l ∧ Forall (λ k, displayed (menu w k)) l.

Definition emitAll (ss : list Signal) (w : World) : World :=
  mkWorld (menus w) (emitted w ++ ss) (timerSeq w).

(** What a trigger on menu [m] of the open chain [up ++ m :: down] (root
    first) leaves behind: the [triggered] signals, carrying [item], from
    [m] up to the root; then the [closed] signals of the whole chain, the
    root's being the last signal and the only one of the root; and every
    menu of the chain closed. *)
Definition cascaded (w w' : World) (up : list MenuId) (m : MenuId)
    (down : list MenuId) (item : MenuItem) : Prop :=
  emitted w' = emitted w
               ++ map (λ k, triggered k item) (m :: reverse up)
               ++ map closed (reverse (up ++ m :: down)) ∧
  (∃ before, map (λ k, triggered k item) (m :: reverse up)
             ++ map closed (reverse (up ++ m :: down))
             = before ++ [closed (hd m up)] ∧
             closed (hd m up) ∉ before) ∧
  (∀ k, k ∈ up ++ m :: down -> shut (menu w' k)).

(** ** Runs of the examples *)

(** A run under the guard of [reachable], as a computation. *)
Fixpoint guardedRun (ops : list (Dom * Op)) (w : World) : option World :=
  match ops with
  | [] => Some w
  | (dom, op) :: ops' =>
      w' ← exec dom op w;
      if opensUnlinkedb w w' then guardedRun ops' w' else None
  end.

(** A root menu [0] whose item opens menu [1], whose item opens menu [2],
    which has a normal item; the chain is opened by hovering: each open
    timer links and attaches the submenu before [openSubmenu] raises. *)
Definition leafItem : MenuItem := normalItem "Leaf".

Definition chainRun : list (Dom * Op) :=
  [ (desk, call_addItem 0 (submenuItem "First" 1));
    (desk, call_addItem 1 (submenuItem "Second" 2));
    (desk, call_addItem 2 leafItem);
    (desk, call_open 0 10 10 false false);
    (desk, dom_event 0 (mousemove 0));
    (desk, timer_open 0);
    (desk, dom_event 1 (mousemove 0));
    (desk, timer_open 1) ].

Definition chainWorld : World :=
  Eval vm_compute in default threeMenus (guardedRun chainRun threeMenus).


(** The store after [selectRun]. *)
Definition selectedWorld : World :=
  Eval vm_compute in default oneMenu (run selectRun oneMenu).

(** The mnemonic example of the spec: items ["&&Save"], ["&&Open"] and
    ["Close"]; typing [o] without a selection selects ["&&Open"]. *)
Definition saveOpenCloseMenu : Menu :=
  set_vectors [normalItem "&&Save"; normalItem "&&Open"; normalItem "Close"]
    (replicate 3 MenuItemRenderer.createItemNode)
    (newMenu MenuItemRenderer.instance).

Definition itemCalls : list (Dom * Op) :=
  [ (desk, call_addItem 0 (normalItem "A"));
    (desk, call_insertItem 0 7 separatorItem);
    (desk, call_insertItem 0 (-3) (normalItem "B"));
    (desk, call_removeItem 0 1);
    (desk, call_removeItem 0 9);
    (desk, call_clearItems 0) ].

(** ** Marks of the default renderer *)

(** The class names by which the default renderer shows that an item cannot be selected. *)
Definition unselectableMarks : list string :=
  [SEPARATOR_TYPE_CLASS; DISABLED_CLASS; HIDDEN_CLASS].

Definition marksFree (names : list string) : Prop :=
  ∀ c, c ∈ unselectableMarks -> c ∉ names.

(** [s] contains the mnemonic marker ["&&"]. *)
Definition hasMarker (s : string) : Prop := ∃ pre post, s = pre +:+ "&&" +:+ post.

(** ** Separators and entries *)

(** The item at position [i] is not hidden by its own [hidden] flag. *)
Definition shownAt (items : list MenuItem) (i : nat) : Prop :=
  ∃ item, items !! i = Some item ∧ hidden item = false.

(** ... and it is a separator, or an entry (any other type). *)
Definition separatorAt (items : list MenuItem) (i : nat) : Prop :=
  ∃ item, items !! i = Some item ∧ hidden item = false ∧ type item = separator.

Definition entryAt (items : list MenuItem) (i : nat) : Prop :=
  ∃ item, items !! i = Some item ∧ hidden item = false ∧ type item ≠ separator.

(** The separator at [i] divides two groups of entries: the shown item
    just before it is an entry, and an entry follows somewhere after
    it. *)
Definition dividesEntries (items : list MenuItem) (i : nat) : Prop :=
  (∃ j, (j < i)%nat ∧ entryAt items j ∧
        ∀ k, (j < k < i)%nat -> ¬ shownAt items k) ∧
  (∃ j, (i < j)%nat ∧ entryAt items j).

(** [nodes'] is [nodes] with the hidden class added to the nodes at the
    positions [S], and to no other. *)
Definition hiddenAdded (S : nat -> Prop) (nodes nodes' : list Node) : Prop :=
  ∀ i, (S i -> nodes' !! i = classList_add HIDDEN_CLASS <$> nodes !! i) ∧
       (¬ S i -> nodes' !! i = nodes !! i).

(** In the third loop: the shown item just before [i], after position
    [a], is a separator; [hide] stands for one at [a] itself. *)
Definition followsSeparator (items : list MenuItem) (a : nat) (hide : bool)
    (i : nat) : Prop :=
  (∃ j, (a < j < i)%nat ∧ separatorAt items j ∧
        ∀ k, (j < k < i)%nat -> ¬ shownAt items k) ∨
  (hide = true ∧ ∀ k, (a < k < i)%nat -> ¬ shownAt items k).

(** ** Signals of the log *)

(** A signal the menus may emit: [closed], or [triggered] with an item
    that is selectable and not a submenu item. *)
Definition regularSignal (s : Signal) : Prop :=
  match s with
  | triggered _ item => isSelectable item = true ∧ type item ≠ submenu
  | closed _ => True
  end.

(** [w'] has the log of [w] followed by regular signals. *)
Definition logsRegular (w w' : World) : Prop :=
  ∃ l, emitted w' = emitted w ++ l ∧ Forall regularSignal l.

(** The run of [chainRun], followed by a click on the item of menu [2]. *)
Definition clickRun : list (Dom * Op) :=
  chainRun ++ [(desk, dom_event 2 (mouseup 0 0))].

Definition clickedWorld : World :=
  Eval vm_compute in default threeMenus (run clickRun threeMenus).

(** ** A parent whose child was closed *)

(** What closing an open submenu does to its parent menu: the two timers
    are cancelled and the link to the child is cleared. *)
Definition childClosed (x : Menu) : Menu :=
  set_childLink (-1) None (_cancelCloseTimer (_cancelOpenTimer x)).

(** ** What a template builds *)

(** The item [item] is what [asMenuItem] makes of [value] in the store
    [w], and the menu [m] what [asMenu] makes of it; the menus made from
    templates are menus of the store numbered from [lo] on. *)
Fixpoint itemBuilt (lo : nat) (w : World) (value : ItemArg) (item : MenuItem)
    {struct value} : Prop :=
  match value with
  | item_object it => item = it
  | item_options (mkOptions ty tx ic sh ch di hi cn cm sub) =>
      type item = default normal ty ∧ text item = default "" tx ∧
      icon item = default "" ic ∧ shortcut item = default "" sh ∧
      checked item = default false ch ∧ disabled item = default false di ∧
      hidden item = default false hi ∧ className item = default "" cn ∧
      command item = default "" cm ∧
      match sub with
      | None => item_submenu item = None
      | Some v => ∃ m, item_submenu item = Some m ∧ menuBuilt lo w v m
      end
  end
with menuBuilt (lo : nat) (w : World) (value : MenuArg) (m : MenuId)
    {struct value} : Prop :=
  match value with
  | menu_object m' => m = m'
  | menu_template template =>
      (lo <= m < length (menus w))%nat ∧ shut (menu w m) ∧
      length (_nodes (menu w m)) = length template ∧
      (fix all (l : list ItemArg) (items : list MenuItem) {struct l} : Prop :=
         match l, items with
         | [], [] => True
         | a :: l', item :: items' => itemBuilt lo w a item ∧ all l' items'
         | _, _ => False
         end) template (_items (menu w m))
  end.

(** What building leaves as it was: the menus in the store before, other
    than those of [except], the signals and the timers. *)
Definition keepsStore (except : MenuId -> Prop) (w w' : World) : Prop :=
  (length (menus w) <= length (menus w'))%nat ∧
  (∀ k, (k < length (menus w))%nat -> ¬ except k -> menu w' k = menu w k) ∧
  emitted w' = emitted w ∧ timerSeq w' = timerSeq w.

(** ** Further examples *)

(** The root menu [0] of [chainRun] open, with the pointer on its item;
    the submenu is not open yet. *)
Definition hoverWorld : World :=
  Eval vm_compute in default threeMenus (run (take 5 chainRun) threeMenus).

(** The six items with item ['A'] selected. *)
Definition sixMenuAtA : Menu := setActiveIndex 1 sixMenu.

(** ** Rows, mirror images and exchanged axes of the box layout *)

(** The positions of the widgets that are not hidden, from position [i]
    on. *)
Fixpoint visibleFrom (rest : list BoxLayout.Widget) (i : nat) : list nat :=
  match rest with
  | [] => []
  | widget :: rest' =>
      if BoxLayout.isHidden widget then visibleFrom rest' (S i)
      else i :: visibleFrom rest' (S i)
  end.

(** A row: every box starts where the one before it ends, [spacing]
    further. *)
Fixpoint contiguous (spacing : Z) (calls : list BoxLayout.Geometry) : Prop :=
  match calls with
  | g :: calls' =>
      match calls' with
      | g' :: _ =>
          BoxLayout.geo_left g' =
          BoxLayout.geo_left g + BoxLayout.geo_width g + spacing
      | [] => True
      end ∧ contiguous spacing calls'
  | [] => True
  end.

(** The sum of the widths of the boxes. *)
Definition totalWidth (calls : list BoxLayout.Geometry) : Z :=
  foldr (λ g acc, BoxLayout.geo_width g + acc) 0 calls.

(** The box [g] reflected in the vertical line through [c / 2], and in the
    horizontal one. *)
Definition flipX (c : Z) (g : BoxLayout.Geometry) : BoxLayout.Geometry :=
  BoxLayout.mkGeometry (BoxLayout.geo_widget g)
    (c - BoxLayout.geo_left g - BoxLayout.geo_width g) (BoxLayout.geo_top g)
    (BoxLayout.geo_width g) (BoxLayout.geo_height g).

Definition flipY (c : Z) (g : BoxLayout.Geometry) : BoxLayout.Geometry :=
  BoxLayout.mkGeometry (BoxLayout.geo_widget g)
    (BoxLayout.geo_left g) (c - BoxLayout.geo_top g - BoxLayout.geo_height g)
    (BoxLayout.geo_width g) (BoxLayout.geo_height g).

(** The same layout in the opposite direction. *)
Definition reverseDirection (dir : BoxLayout.Direction) : BoxLayout.Direction :=
  match dir with
  | BoxLayout.LeftToRight => BoxLayout.RightToLeft
  | BoxLayout.RightToLeft => BoxLayout.LeftToRight
  | BoxLayout.TopToBottom => BoxLayout.BottomToTop
  | BoxLayout.BottomToTop => BoxLayout.TopToBottom
  end.

Definition withDirection (dir : BoxLayout.Direction) (layout : BoxLayout.Layout)
  : BoxLayout.Layout :=
  BoxLayout.mkLayout (BoxLayout._fixed layout) (BoxLayout._spacing layout)
    (BoxLayout._dirty layout) (BoxLayout._box layout) (BoxLayout._sizers layout)
    dir (BoxLayout.widgets layout).

(** Exchanging the two axes. *)
Definition transposeDirection (dir : BoxLayout.Direction) : BoxLayout.Direction :=
  match dir with
  | BoxLayout.LeftToRight => BoxLayout.TopToBottom
  | BoxLayout.TopToBottom => BoxLayout.LeftToRight
  | BoxLayout.RightToLeft => BoxLayout.BottomToTop
  | BoxLayout.BottomToTop => BoxLayout.RightToLeft
  end.

Definition transposeBox (box : BoxLayout.IBoxSizing) : BoxLayout.IBoxSizing :=
  BoxLayout.mkBoxSizing (BoxLayout.paddingLeft box) (BoxLayout.paddingTop box)
    (BoxLayout.verticalSum box) (BoxLayout.horizontalSum box).

Definition transposeLimits (l : BoxLayout.ISizeLimits) : BoxLayout.ISizeLimits :=
  BoxLayout.mkLimits (BoxLayout.minHeight l) (BoxLayout.minWidth l)
    (BoxLayout.maxHeight l) (BoxLayout.maxWidth l).

Definition transposeWidget (widget : BoxLayout.Widget) : BoxLayout.Widget :=
  BoxLayout.mkWidget (BoxLayout.isHidden widget)
    (transposeLimits (BoxLayout.limits widget))
    (BoxLayout.sizeBasis widget) (BoxLayout.stretchFactor widget).

Definition transposeParent (parent : BoxLayout.Parent) : BoxLayout.Parent :=
  BoxLayout.mkParent (BoxLayout.offsetHeight parent) (BoxLayout.offsetWidth parent)
    (transposeBox (BoxLayout.boxSizing parent))
    (BoxLayout.isVisible parent) (BoxLayout.isAttached parent).

Definition transposeLayout (layout : BoxLayout.Layout) : BoxLayout.Layout :=
  BoxLayout.mkLayout (BoxLayout._fixed layout) (BoxLayout._spacing layout)
    (BoxLayout._dirty layout) (transposeBox <$> BoxLayout._box layout)
    (BoxLayout._sizers layout) (transposeDirection (BoxLayout._direction layout))
    (map transposeWidget (BoxLayout.widgets layout)).

Definition transposeGeometry (g : BoxLayout.Geometry) : BoxLayout.Geometry :=
  BoxLayout.mkGeometry (BoxLayout.geo_widget g) (BoxLayout.geo_top g)
    (BoxLayout.geo_left g) (BoxLayout.geo_height g) (BoxLayout.geo_width g).

Definition transposeStyle (s : BoxLayout.SizeStyle) : BoxLayout.SizeStyle :=
  BoxLayout.mkSizeStyle (BoxLayout.style_minHeight s) (BoxLayout.style_minWidth s)
    (BoxLayout.style_maxHeight s) (BoxLayout.style_maxWidth s).

Definition transposeResize (message : Z * Z) : Z * Z := (message.2, message.1).

Definition transposeAncestor (ancestor : option (list (Z * Z)))
  : option (list (Z * Z)) :=
  map transposeResize <$> ancestor.

(** The [size] of the sizer at position [i], and the sum of the sizes at
    the positions [positions]. *)
Definition sizeAt (sizers : list BoxLayout.BoxSizer) (i : nat) : Z :=
  from_option BoxLayout.size 0 (sizers !! i).

Definition sumSizes (sizers : list BoxLayout.BoxSizer) (positions : list nat) : Z :=
  foldr (λ i acc, sizeAt sizers i + acc) 0 positions.

(** The widgets that are not hidden. *)
Definition shown (ws : list BoxLayout.Widget) : list BoxLayout.Widget :=
  List.filter (λ widget, negb (BoxLayout.isHidden widget)) ws.

(** The sizer [_fit] leaves for [widget] in a row, from the sizer [old]
    at its position. *)
Definition rowSizer (widget : BoxLayout.Widget) (old : BoxLayout.BoxSizer)
  : BoxLayout.BoxSizer :=
  if BoxLayout.isHidden widget then
    BoxLayout.mkSizer (BoxLayout.sizeHint old) 0 (BoxLayout.px 0)
      (BoxLayout.stretch old) (BoxLayout.size old)
  else
    BoxLayout.mkSizer (BoxLayout.sizeBasis widget)
      (BoxLayout.minWidth (BoxLayout.limits widget))
      (BoxLayout.maxWidth (BoxLayout.limits widget))
      (BoxLayout.stretchFactor widget) (BoxLayout.size old).

(** Sizer [b] is sizer [a] but for its [size], the field that
    [boxCalc] computes; and the same of two lists of sizers. *)
Definition sameButSize (a b : BoxLayout.BoxSizer) : Prop :=
  BoxLayout.sizeHint b = BoxLayout.sizeHint a ∧
  BoxLayout.minSize b = BoxLayout.minSize a ∧
  BoxLayout.maxSize b = BoxLayout.maxSize a ∧
  BoxLayout.stretch b = BoxLayout.stretch a.

Definition sizesOnly (boxCalc : list BoxLayout.BoxSizer -> Z -> list BoxLayout.BoxSizer)
  : Prop :=
  ∀ sizers space, Forall2 sameButSize sizers (boxCalc sizers space).

(** Sums, the largest and the smallest of the limits of a list of
    widgets. *)
Definition sumMinWidth (ws : list BoxLayout.Widget) : Z :=
  foldr (λ widget acc, BoxLayout.minWidth (BoxLayout.limits widget) + acc) 0 ws.

Definition sumMaxWidth (ws : list BoxLayout.Widget) : BoxLayout.Extent :=
  foldr (λ widget acc,
           BoxLayout.ext_add (BoxLayout.maxWidth (BoxLayout.limits widget)) acc)
        (BoxLayout.px 0) ws.

Definition largestMinHeight (ws : list BoxLayout.Widget) : Z :=
  foldr (λ widget acc, Z.max (BoxLayout.minHeight (BoxLayout.limits widget)) acc)
        0 ws.

Definition smallestMaxHeight (ws : list BoxLayout.Widget) : BoxLayout.Extent :=
  foldr (λ widget acc,
           BoxLayout.ext_min (BoxLayout.maxHeight (BoxLayout.limits widget)) acc)
        BoxLayout.Infinity ws.

(** A row of the examples: two widgets with a hidden one between them,
    in a parent [114] wide whose border and padding take [6], [8] apart;
    and a calculation that gives every sizer half of the space. *)
Definition rowWidgets : list BoxLayout.Widget :=
  [ BoxLayout.mkWidget false
      (BoxLayout.mkLimits 10 20 (BoxLayout.px 200) BoxLayout.Infinity) 0 1;
    BoxLayout.mkWidget true
      (BoxLayout.mkLimits 5 5 (BoxLayout.px 5) (BoxLayout.px 5)) 0 0;
    BoxLayout.mkWidget false
      (BoxLayout.mkLimits 30 15 BoxLayout.Infinity (BoxLayout.px 90)) 0 1 ].

Definition rowParent : BoxLayout.Parent :=
  BoxLayout.mkParent 114 40 (BoxLayout.mkBoxSizing 2 3 6 4) true true.

Definition rowLayout : BoxLayout.Layout :=
  BoxLayout.mkLayout 0 8 false None
    (replicate 3 (BoxLayout.mkSizer 0 0 BoxLayout.Infinity 0 0))
    BoxLayout.LeftToRight rowWidgets.

Definition halfCalc (sizers : list BoxLayout.BoxSizer) (space : Z)
  : list BoxLayout.BoxSizer :=
  map (λ sizer, BoxLayout.mkSizer (BoxLayout.sizeHint sizer)
                  (BoxLayout.minSize sizer) (BoxLayout.maxSize sizer)
                  (BoxLayout.stretch sizer) (space / 2)) sizers.

(** * Properties *)

Lemma MenuItemType_eqb_eq a b : MenuItemType_eqb a b = true <-> a = b.
Proof. destruct a, b; simpl; split; congruence. Qed.

(** ** How calls end *)

Lemma returned_fmap (r : option World) (o : Outcome) :
  returned <$> r = Some o -> ∃ w, r = Some w ∧ o = returned w.
Proof. destruct r as [w|]; [|discriminate]. intros [= <-]. by exists w. Qed.

Lemma after_fmap (r : option Outcome) (w' : World) :
  after <$> r = Some w' -> ∃ o, r = Some o ∧ after o = w'.
Proof. destruct r as [o|]; [|discriminate]. intros [= <-]. by exists o. Qed.

Lemma andThen_Some first rest o :
  andThen first rest = Some o ->
  (∃ w, first = Some (raised w) ∧ o = raised w) ∨
  (∃ w, first = Some (returned w) ∧ rest w = Some o).
Proof.
  unfold andThen. destruct first as [[w|w]|]; simpl; [|intros [= <-]|discriminate].
  - right. by exists w.
  - left. by exists w.
Qed.

Lemma fmap_is_Some {A B} (f : A -> B) (r : option A) :
  is_Some r -> is_Some (f <$> r).
Proof. intros [a ->]. by eexists. Qed.

(** Takes apart the hypotheses that say how a call ended. *)
Ltac outcome_inv :=
  repeat match goal with
         | H : returned <$> _ = Some _ |- _ =>
             apply returned_fmap in H as (? & H & ->)
         | H : after <$> _ = Some _ |- _ =>
             apply after_fmap in H as (? & H & <-)
         | H : Some (returned _) = Some _ |- _ => injection H as <-
         | H : Some (raised _) = Some _ |- _ => injection H as <-
         end; simpl after in *.

(** ** Reading and writing the store *)

Lemma menu_modify_ne w m k f : k ≠ m -> menu (modify m f w) k = menu w k.
Proof.
  intros Hne. unfold menu, modify; simpl.
  by rewrite list_lookup_alter_ne.
Qed.

Lemma menu_modify_eq w m f :
  (m < length (menus w))%nat -> menu (modify m f w) m = f (menu w m).
Proof.
  intros Hlt. destruct (lookup_lt_is_Some_2 _ _ Hlt) as [x Hx].
  unfold menu, modify; cbn [menus].
  rewrite list_lookup_alter_eq, Hx. reflexivity.
Qed.

Lemma modify_outside w m f :
  (length (menus w) <= m)%nat -> modify m f w = w.
Proof.
  intros Hge. destruct w as [l e t]. unfold modify; simpl in *.
  f_equal. apply list_eq. intros j.
  destruct (decide (m = j)) as [->|Hne].
  - rewrite list_lookup_alter_eq.
    by rewrite (proj2 (lookup_ge_None l j) Hge).
  - by rewrite list_lookup_alter_ne.
Qed.

Lemma menu_outside w m :
  (length (menus w) <= m)%nat -> menu w m = newMenu MenuItemRenderer.instance.
Proof.
  intros Hge. unfold menu. by rewrite (proj2 (lookup_ge_None _ _) Hge).
Qed.

Lemma length_modify w m f : length (menus (modify m f w)) = length (menus w).
Proof. apply length_alter. Qed.

(** A write that keeps a field keeps it in every menu of the store. *)
Lemma field_modify_keep {A} (g : Menu -> A) w m f k :
  (∀ x, g (f x) = g x) -> g (menu (modify m f w) k) = g (menu w k).
Proof.
  intros Hg. destruct (decide (k = m)) as [->|Hne].
  - destruct (decide (m < length (menus w))%nat) as [Hlt|Hge].
    + by rewrite menu_modify_eq.
    + rewrite modify_outside; [done | lia].
  - by rewrite menu_modify_ne.
Qed.

(** A per-menu change that keeps a property keeps it for the store. *)
Lemma modify_all (P : Menu -> Prop) w m f :
  (∀ x, P x -> P (f x)) ->
  (∀ k, P (menu w k)) -> ∀ k, P (menu (modify m f w) k).
Proof.
  intros Hf HP k. destruct (decide (k = m)) as [->|Hne].
  - destruct (decide (m < length (menus w))%nat) as [Hlt|Hge].
    + rewrite menu_modify_eq; auto.
    + rewrite modify_outside; [auto | lia].
  - rewrite menu_modify_ne; auto.
Qed.

Lemma modify_id w m f : f (menu w m) = menu w m -> modify m f w = w.
Proof.
  intros Hf. destruct w as [l e t]. unfold modify, menu in *; simpl in *.
  f_equal. apply list_eq. intros j.
  destruct (decide (m = j)) as [->|Hne].
  - rewrite list_lookup_alter_eq. destruct (l !! j) as [x|]; simpl in *; congruence.
  - by rewrite list_lookup_alter_ne.
Qed.

Lemma menu_emit s w k : menu (emit s w) k = menu w k.
Proof. reflexivity. Qed.

(** A menu that reads differently from a fresh one is in the store. *)
Lemma in_store w m :
  menu w m ≠ newMenu MenuItemRenderer.instance -> (m < length (menus w))%nat.
Proof.
  intros Hne. destruct (decide (m < length (menus w))%nat); [done|].
  exfalso. apply Hne, menu_outside. lia.
Qed.

(** ** Field frames of the per-menu functions *)

Ltac unfold_menu_fns :=
  unfold activateFirstSelectable, activateNextSelectable, activatePrevSelectable,
    activateNextMnemonic, onUpdateRequest,
    _cancelOpenTimer, _cancelCloseTimer, setActiveIndex, unmount, attach,
    set_nodes, set_vectors, set_active,
    set_childLink, set_parentMenu, set_mount, set_style, set_openTimerID,
    set_closeTimerID in *.

Ltac keeps_tac :=
  let x := fresh "x" in
  intros x; unfold_menu_fns; repeat case_match; reflexivity.

Lemma keeps_compose {A} (g : Menu -> A) f1 f2 :
  keeps g f1 -> keeps g f2 -> keeps g (λ x, f1 (f2 x)).
Proof. intros H1 H2 x. by rewrite H1, H2. Qed.

Lemma keeps_childMenu_cancelOpen : keeps _childMenu _cancelOpenTimer.
Proof. keeps_tac. Qed.
Lemma keeps_childMenu_cancelClose : keeps _childMenu _cancelCloseTimer.
Proof. keeps_tac. Qed.
Lemma keeps_childMenu_setActive v : keeps _childMenu (setActiveIndex v).
Proof. keeps_tac. Qed.
Lemma keeps_childMenu_parentMenu p : keeps _childMenu (set_parentMenu p).
Proof. keeps_tac. Qed.
Lemma keeps_childMenu_unmount : keeps _childMenu unmount.
Proof. keeps_tac. Qed.

Lemma keeps_parentMenu_cancelOpen : keeps _parentMenu _cancelOpenTimer.
Proof. keeps_tac. Qed.
Lemma keeps_parentMenu_cancelClose : keeps _parentMenu _cancelCloseTimer.
Proof. keeps_tac. Qed.
Lemma keeps_parentMenu_setActive v : keeps _parentMenu (setActiveIndex v).
Proof. keeps_tac. Qed.
Lemma keeps_parentMenu_childLink i c : keeps _parentMenu (set_childLink i c).
Proof. keeps_tac. Qed.
Lemma keeps_parentMenu_unmount : keeps _parentMenu unmount.
Proof. keeps_tac. Qed.

Create HintDb keeps.
#[export] Hint Resolve keeps_childMenu_cancelOpen keeps_childMenu_cancelClose
  keeps_childMenu_setActive keeps_childMenu_parentMenu keeps_childMenu_unmount
  keeps_parentMenu_cancelOpen keeps_parentMenu_cancelClose
  keeps_parentMenu_setActive keeps_parentMenu_childLink keeps_parentMenu_unmount
  : keeps.

(** ** [close] returns *)

Lemma openLinks_le l : (openLinks l <= length l)%nat.
Proof. apply length_filter. Qed.

Lemma openLinks_alter_keep f i l :
  keeps _childMenu f -> openLinks (alter f i l) = openLinks l.
Proof.
  intros Hf. unfold openLinks. revert i.
  induction l as [|x l IH]; intros [|i]; simpl; try done.
  - rewrite !filter_cons. pose proof (Hf x).
    repeat case_decide; simpl; congruence.
  - change (list_alter f i l) with (alter f i l).
    rewrite !filter_cons. case_decide; simpl; by rewrite IH.
Qed.

Lemma openLinks_alter_drop f i l x :
  l !! i = Some x -> _childMenu x ≠ None -> _childMenu (f x) = None ->
  (openLinks (alter f i l) < openLinks l)%nat.
Proof.
  unfold openLinks. revert i.
  induction l as [|y l IH]; intros [|i] Hx Hsome Hnone; simpl in *; try done.
  - simplify_eq. rewrite !filter_cons.
    rewrite decide_False by (rewrite Hnone; tauto).
    rewrite decide_True by done. simpl. lia.
  - change (list_alter f i l) with (alter f i l).
    rewrite !filter_cons. specialize (IH i Hx Hsome Hnone).
    case_decide; simpl; lia.
Qed.

Lemma openLinks_modify_keep w m f :
  keeps _childMenu f -> openLinks (menus (modify m f w)) = openLinks (menus w).
Proof. intros. by apply openLinks_alter_keep. Qed.

Lemma openLinks_modify_drop w m f :
  _childMenu (menu w m) ≠ None -> (∀ x, _childMenu (f x) = None) ->
  (openLinks (menus (modify m f w)) < openLinks (menus w))%nat.
Proof.
  intros Hsome Hnone.
  assert (Hin : (m < length (menus w))%nat).
  { apply in_store. intros Heq. rewrite Heq in Hsome. by apply Hsome. }
  destruct (lookup_lt_is_Some_2 _ _ Hin) as [x Hx].
  apply (openLinks_alter_drop f m (menus w) x Hx); [|apply Hnone].
  unfold menu in Hsome. by rewrite Hx in Hsome.
Qed.

Lemma close_fuel_returns n : ∀ w m,
  (openLinks (menus w) < n)%nat -> is_Some (close_fuel n w m).
Proof.
  induction n as [|n IH]; intros w m Hn; [lia|].
  simpl.
  assert (Hw0 : openLinks (menus (closeHead w m)) = openLinks (menus w)).
  { unfold closeHead. rewrite !openLinks_modify_keep; auto with keeps. }
  destruct (_childMenu (menu (closeHead w m) m)) as [c|] eqn:Hc; [|by eexists].
  destruct (IH (unlinkChild (closeHead w m) m c) c) as [w1 ->]; [|by eexists].
  unfold unlinkChild. rewrite openLinks_modify_keep by auto with keeps.
  pose proof (openLinks_modify_drop (closeHead w m) m (set_childLink (-1) None))
    as Hdrop.
  rewrite Hc in Hdrop. specialize (Hdrop ltac:(done) ltac:(done)). lia.
Qed.

Lemma close_returns w m : is_Some (close w m).
Proof.
  apply close_fuel_returns. unfold fuelOf.
  pose proof (openLinks_le (menus w)). lia.
Qed.

(** ** What [close] can change

    [onCloseRequest] is a sequence of six kinds of field writes and of
    [closed] signals; a relation between stores that contains them and is
    a preorder holds between the store before and after [close]. *)
Section CloseRel.

Variable R : World -> World -> Prop.
Hypothesis R_refl : ∀ w, R w w.
Hypothesis R_trans : ∀ a b c, R a b -> R b c -> R a c.
Hypothesis R_cancelOpen : ∀ w m, R w (modify m _cancelOpenTimer w).
Hypothesis R_cancelClose : ∀ w m, R w (modify m _cancelCloseTimer w).
Hypothesis R_deselect : ∀ w m, R w (modify m (setActiveIndex (-1)) w).
Hypothesis R_unlinkChild : ∀ w m, R w (modify m (set_childLink (-1) None) w).
Hypothesis R_unlinkParent : ∀ w m, R w (modify m (set_parentMenu None) w).
Hypothesis R_unmount : ∀ w m, R w (modify m unmount w).
Hypothesis R_emit : ∀ w m, R w (emit (closed m) w).

Lemma closeHead_rel w m : R w (closeHead w m).
Proof using R_trans R_cancelOpen R_cancelClose R_deselect.
  unfold closeHead. eapply R_trans; [|apply R_deselect].
  eapply R_trans; [apply R_cancelOpen|apply R_cancelClose].
Qed.

Lemma unlinkChild_rel w m c : R w (unlinkChild w m c).
Proof using R_trans R_unlinkChild R_unlinkParent.
  unfold unlinkChild. eapply R_trans; [apply R_unlinkChild|apply R_unlinkParent].
Qed.

Lemma closeTail_rel w m : R w (closeTail w m).
Proof using R_refl R_trans R_cancelOpen R_cancelClose R_unlinkChild
  R_unlinkParent R_unmount R_emit.
  unfold closeTail.
  set (w1 := match _parentMenu (menu w m) with Some _ => _ | None => _ end).
  assert (H1 : R w w1).
  { unfold w1. destruct (_parentMenu (menu w m)) as [p|]; [|apply R_refl].
    eapply R_trans; [|apply R_unlinkChild].
    eapply R_trans; [|apply R_cancelClose].
    eapply R_trans; [|apply R_cancelOpen].
    apply R_unlinkParent. }
  assert (H2 : R w (emit (closed m) (modify m unmount w1))).
  { eapply R_trans; [|apply R_emit].
    eapply R_trans; [apply H1|apply R_unmount]. }
  repeat case_match; done.
Qed.

Lemma close_fuel_rel n : ∀ w m w', close_fuel n w m = Some w' -> R w w'.
Proof using All.
  induction n as [|n IH]; intros w m w' Hclose; [discriminate|].
  simpl in Hclose.
  pose proof (closeHead_rel w m) as H0.
  destruct (_childMenu (menu (closeHead w m) m)) as [c|] eqn:Hc;
    simpl in Hclose.
  - destruct (close_fuel n _ c) as [w1|] eqn:Hrec; [|discriminate].
    simpl in Hclose. simplify_eq. apply IH in Hrec.
    eapply R_trans; [apply H0|].
    eapply R_trans; [apply unlinkChild_rel|].
    eapply R_trans; [apply Hrec|apply closeTail_rel].
  - simplify_eq. eapply R_trans; [apply H0|apply closeTail_rel].
Qed.

End CloseRel.

Lemma length_update_at {A} (l : list A) i f :
  length (update_at l i f) = length l.
Proof. unfold update_at. case_match; [done|]. apply length_alter. Qed.

Lemma quieter_refl x : quieter x x.
Proof. unfold quieter; tauto. Qed.

Lemma reset_trans {A} (v a b c : A) :
  b = v ∨ b = a -> c = v ∨ c = b -> c = v ∨ c = a.
Proof. intros [?|?] [?|?]; subst; auto. Qed.

Lemma quieter_trans x y z : quieter x y -> quieter y z -> quieter x z.
Proof.
  unfold quieter.
  intros (A1 & A2 & A3 & A4 & A5 & A6 & A7 & A8 & A9 & A10 & A11 & A12)
         (B1 & B2 & B3 & B4 & B5 & B6 & B7 & B8 & B9 & B10 & B11 & B12).
  repeat split; try congruence; eapply reset_trans; eassumption.
Qed.

Ltac quieter_tac :=
  unfold quieter; unfold_menu_fns; repeat case_match; simpl;
  rewrite ?length_update_at; tauto.

Lemma quieter_cancelOpen x : quieter x (_cancelOpenTimer x).
Proof. quieter_tac. Qed.
Lemma quieter_cancelClose x : quieter x (_cancelCloseTimer x).
Proof. quieter_tac. Qed.
Lemma quieter_deselect x : quieter x (setActiveIndex (-1) x).
Proof.
  unfold setActiveIndex. simpl.
  destruct (_activeIndex x =? -1) eqn:E; [apply quieter_refl|].
  unfold quieter, set_active; simpl. rewrite length_update_at. tauto.
Qed.
Lemma quieter_unlinkChild x : quieter x (set_childLink (-1) None x).
Proof. quieter_tac. Qed.
Lemma quieter_unlinkParent x : quieter x (set_parentMenu None x).
Proof. quieter_tac. Qed.
Lemma quieter_unmount x : quieter x (unmount x).
Proof. quieter_tac. Qed.

Lemma quieterWorld_modify w m f :
  (∀ x, quieter x (f x)) -> quieterWorld w (modify m f w).
Proof.
  intros Hf. split; [|split; [apply length_modify | done]].
  intros k. destruct (decide (k = m)) as [->|Hne].
  - destruct (decide (m < length (menus w))%nat).
    + rewrite menu_modify_eq by done. apply Hf.
    + rewrite modify_outside by lia. apply quieter_refl.
  - rewrite menu_modify_ne by done. apply quieter_refl.
Qed.

Lemma quieterWorld_refl w : quieterWorld w w.
Proof. split; [intros; apply quieter_refl | done]. Qed.

Lemma quieterWorld_trans a b c :
  quieterWorld a b -> quieterWorld b c -> quieterWorld a c.
Proof.
  intros [H1 [H2 H3]] [H4 [H5 H6]]. split; [|split; congruence].
  intros k. eapply quieter_trans; eauto.
Qed.

Lemma close_fuel_quieter n w m w' :
  close_fuel n w m = Some w' -> quieterWorld w w'.
Proof.
  apply close_fuel_rel.
  - intros ?. split; [intros; apply quieter_refl | done].
  - intros a b c [H1 [H2 H3]] [H4 [H5 H6]].
    split; [|split; congruence].
    intros k. eapply quieter_trans; eauto.
  - intros. apply quieterWorld_modify, quieter_cancelOpen.
  - intros. apply quieterWorld_modify, quieter_cancelClose.
  - intros. apply quieterWorld_modify, quieter_deselect.
  - intros. apply quieterWorld_modify, quieter_unlinkChild.
  - intros. apply quieterWorld_modify, quieter_unlinkParent.
  - intros. apply quieterWorld_modify, quieter_unmount.
  - intros. split; [intros; apply quieter_refl | done].
Qed.

(** ** Closing twice *)

Lemma setActiveIndex_none x : _activeIndex (setActiveIndex (-1) x) = -1.
Proof.
  unfold setActiveIndex. simpl.
  destruct (_activeIndex x =? -1) eqn:E; [lia | reflexivity].
Qed.

Lemma cancelOpen_zero x : _openTimerID (_cancelOpenTimer x) = 0.
Proof.
  unfold _cancelOpenTimer.
  destruct (_openTimerID x =? 0) eqn:E; simpl; [lia | reflexivity].
Qed.

Lemma cancelClose_zero x : _closeTimerID (_cancelCloseTimer x) = 0.
Proof.
  unfold _cancelCloseTimer.
  destruct (_closeTimerID x =? 0) eqn:E; simpl; [lia | reflexivity].
Qed.

(** A write of the value a fresh menu has is read back, also through a
    reference outside the store. *)
Lemma field_modify_reset {A} (g : Menu -> A) v w m f :
  (∀ x, g (f x) = v) -> g (newMenu MenuItemRenderer.instance) = v ->
  g (menu (modify m f w) m) = v.
Proof.
  intros Hf Hnew. destruct (decide (m < length (menus w))%nat).
  - by rewrite menu_modify_eq.
  - rewrite modify_outside, menu_outside by lia. done.
Qed.

Lemma closeHead_fields w m :
  let x := menu (closeHead w m) m in
  _openTimerID x = 0 ∧ _closeTimerID x = 0 ∧ _activeIndex x = -1.
Proof.
  unfold closeHead. cbv zeta. repeat split.
  - rewrite !(field_modify_keep _openTimerID) by keeps_tac.
    apply field_modify_reset; [apply cancelOpen_zero | done].
  - rewrite (field_modify_keep _closeTimerID) by keeps_tac.
    apply field_modify_reset; [apply cancelClose_zero | done].
  - apply field_modify_reset; [apply setActiveIndex_none | done].
Qed.

Lemma closeTail_quieter w m : quieterWorld w (closeTail w m).
Proof.
  apply closeTail_rel.
  - intros ?. split; [intros; apply quieter_refl | done].
  - intros a b c [H1 [H2 H3]] [H4 [H5 H6]].
    split; [|split; congruence].
    intros k. eapply quieter_trans; eauto.
  - intros. apply quieterWorld_modify, quieter_cancelOpen.
  - intros. apply quieterWorld_modify, quieter_cancelClose.
  - intros. apply quieterWorld_modify, quieter_unlinkChild.
  - intros. apply quieterWorld_modify, quieter_unlinkParent.
  - intros. apply quieterWorld_modify, quieter_unmount.
  - intros. split; [intros; apply quieter_refl | done].
Qed.

Lemma closeTail_unlinked w m :
  let x := menu (closeTail w m) m in
  _parentMenu x = None ∧ parent x = None ∧ isAttached x = false.
Proof.
  unfold closeTail. cbv zeta.
  set (w1 := match _parentMenu (menu w m) with Some _ => _ | None => _ end).
  assert (Hp : _parentMenu (menu w1 m) = None).
  { unfold w1. destruct (_parentMenu (menu w m)) as [p|] eqn:Hp; [|done].
    rewrite !(field_modify_keep _parentMenu) by keeps_tac.
    by apply field_modify_reset. }
  assert (Hu : ∀ w2, let y := menu (emit (closed m) (modify m unmount w2)) m in
             _parentMenu (menu w2 m) = None ->
             _parentMenu y = None ∧ parent y = None ∧ isAttached y = false).
  { intros w2 y Hw2. unfold y. rewrite menu_emit. repeat split.
    - by rewrite (field_modify_keep _parentMenu) by keeps_tac.
    - by apply field_modify_reset.
    - by apply field_modify_reset. }
  case_bool_decide as Hpar.
  - by apply Hu.
  - destruct (isAttached (menu w1 m)) eqn:Hatt; [by apply Hu|].
    done.
Qed.

Lemma close_fuel_shut n w m w' :
  close_fuel n w m = Some w' -> shut (menu w' m).
Proof.
  destruct n as [|n]; [discriminate|]. simpl. intros Hclose.
  destruct (closeHead_fields w m) as (Ho & Hc & Ha).
  set (w0 := closeHead w m) in *.
  assert (∃ w1, w' = closeTail w1 m ∧
            _openTimerID (menu w1 m) = 0 ∧ _closeTimerID (menu w1 m) = 0 ∧
            _activeIndex (menu w1 m) = -1 ∧ _childMenu (menu w1 m) = None)
    as (w1 & -> & Ho1 & Hc1 & Ha1 & Hch1).
  { destruct (_childMenu (menu w0 m)) as [c|] eqn:Hch; simpl in Hclose.
    - destruct (close_fuel n _ c) as [w1|] eqn:Hrec; [|discriminate].
      simpl in Hclose. simplify_eq. exists w1. split; [done|].
      apply close_fuel_quieter in Hrec. destruct Hrec as [Hq _].
      specialize (Hq m). unfold quieter in Hq.
      assert (Hch' : _childMenu (menu (unlinkChild w0 m c) m) = None).
      { unfold unlinkChild.
        rewrite (field_modify_keep _childMenu) by keeps_tac.
        by apply field_modify_reset. }
      unfold unlinkChild in Hq, Hch'.
      rewrite !(field_modify_keep _openTimerID) in Hq by keeps_tac.
      rewrite !(field_modify_keep _closeTimerID) in Hq by keeps_tac.
      rewrite !(field_modify_keep _activeIndex) in Hq by keeps_tac.
      rewrite Hch' in Hq. intuition congruence.
    - simplify_eq. exists w0. repeat split; done. }
  destruct (closeTail_quieter w1 m) as [Hq _]. specialize (Hq m).
  destruct (closeTail_unlinked w1 m) as (Hp & Hpar & Hatt).
  unfold quieter in Hq. unfold shut. intuition congruence.
Qed.

(** Closing a menu that is in that state changes nothing and emits
    nothing. *)
Lemma close_fuel_of_shut n w m :
  shut (menu w m) -> close_fuel (S n) w m = Some w.
Proof.
  intros (Ho & Hc & Ha & Hch & Hp & Hpar & Hatt). simpl.
  assert (H0 : closeHead w m = w).
  { unfold closeHead.
    rewrite (modify_id w m _cancelOpenTimer)
      by (unfold _cancelOpenTimer; by rewrite Ho).
    rewrite (modify_id w m _cancelCloseTimer)
      by (unfold _cancelCloseTimer; by rewrite Hc).
    apply modify_id. unfold setActiveIndex; simpl. by rewrite Ha. }
  rewrite H0, Hch. simpl. unfold closeTail. rewrite Hp, Hpar, Hatt.
  by rewrite bool_decide_false by tauto.
Qed.

Lemma close_of_shut w m : shut (menu w m) -> close w m = Some w.
Proof. apply close_fuel_of_shut. Qed.

(** ** Two properties of every menu: paired vectors, selectable selection *)

Lemma length_hideNode nodes k : length (hideNode nodes k) = length nodes.
Proof. apply length_update_at. Qed.

Lemma length_hideLeading rest : ∀ k1 nodes,
  length (hideLeading rest k1 nodes).2 = length nodes.
Proof.
  induction rest as [|item rest IH]; intros k1 nodes; simpl; [done|].
  repeat case_match; simpl; rewrite ?IH, ?length_hideNode; done.
Qed.

Lemma length_hideTrailing rest : ∀ k2 nodes,
  length (hideTrailing rest k2 nodes).2 = length nodes.
Proof.
  induction rest as [|item rest IH]; intros k2 nodes; simpl; [done|].
  repeat case_match; simpl; rewrite ?IH, ?length_hideNode; done.
Qed.

Lemma length_hideConsecutive rest : ∀ k1 k2 hide nodes,
  length (hideConsecutive rest k1 k2 hide nodes) = length nodes.
Proof.
  induction rest as [|item rest IH]; intros k1 k2 hide nodes; simpl; [done|].
  repeat case_match; simpl; rewrite ?IH, ?length_hideNode; done.
Qed.

Lemma length_hideExtraSeparators items nodes :
  length (hideExtraSeparators items nodes) = length nodes.
Proof.
  unfold hideExtraSeparators.
  pose proof (length_hideLeading items 0 nodes) as H1.
  destruct (hideLeading items 0 nodes) as [k1 nodes1]; simpl in H1.
  pose proof (length_hideTrailing (reverse items) (len items - 1) nodes1) as H2.
  destruct (hideTrailing _ _ nodes1) as [k2 nodes2]; simpl in H2.
  rewrite length_hideConsecutive. congruence.
Qed.

Lemma length_updateNodes r rest : ∀ i nodes,
  length (updateNodes r rest i nodes) = length nodes.
Proof.
  induction rest as [|item rest IH]; intros i nodes; simpl; [done|].
  by rewrite IH, length_update_at.
Qed.

Lemma length_onUpdateRequest x :
  length (_nodes (onUpdateRequest x)) = length (_nodes x).
Proof.
  unfold onUpdateRequest; simpl. rewrite length_hideExtraSeparators.
  case_match; rewrite ?length_update_at, length_updateNodes; done.
Qed.

(** *** The setter *)

Lemma setActiveIndex_items v x : _items (setActiveIndex v x) = _items x.
Proof. unfold setActiveIndex. repeat case_match; done. Qed.

Lemma setActiveIndex_length v x :
  length (_nodes (setActiveIndex v x)) = length (_nodes x).
Proof.
  unfold setActiveIndex. repeat case_match; simpl;
    rewrite ?length_update_at; done.
Qed.

Lemma selectableAt_true items i :
  selectableAt items i = true ->
  ∃ item, at_ items i = Some item ∧ isSelectable item = true.
Proof. unfold selectableAt. destruct (at_ items i); eauto; discriminate. Qed.

Lemma at_in_range {A} (l : list A) i x : at_ l i = Some x -> 0 <= i < len l.
Proof.
  unfold at_, len. destruct (i <? 0) eqn:E; [discriminate|].
  intros H. apply lookup_lt_Some in H. lia.
Qed.

Lemma setActiveIndex_value v x :
  _activeIndex (setActiveIndex v x) = coerceIndex (_items x) v.
Proof.
  unfold setActiveIndex, coerceIndex.
  destruct (selectableAt (_items x) v) eqn:Hsel.
  - destruct (selectableAt_true _ _ Hsel) as (item & Hat & _).
    apply at_in_range in Hat.
    rewrite (proj2 (Z.ltb_ge v 0)) by lia.
    rewrite Z.geb_leb, (proj2 (Z.leb_gt _ _)) by lia.
    simpl. rewrite Hsel. simpl. rewrite andb_false_r.
    destruct (_activeIndex x =? v) eqn:E; [lia | done].
  - set (i := if (v <? 0) || (v >=? len (_items x)) then -1 else v).
    assert (Hi : (if negb (i =? -1) && negb (selectableAt (_items x) i)
                  then -1 else i) = -1).
    { unfold i. destruct ((v <? 0) || (v >=? len (_items x))); [done|].
      rewrite Hsel. simpl. rewrite andb_true_r.
      destruct (v =? -1) eqn:E; simpl; [lia | done]. }
    rewrite Hi. destruct (_activeIndex x =? -1) eqn:E; [lia | done].
Qed.

Lemma setActiveIndex_activeOK v x : activeOK (setActiveIndex v x).
Proof.
  unfold activeOK. rewrite setActiveIndex_value, setActiveIndex_items.
  unfold coerceIndex. destruct (selectableAt (_items x) v) eqn:Hsel; [|by left].
  right. by apply selectableAt_true.
Qed.

Lemma setActiveIndex_sameLength v x :
  sameLength x -> sameLength (setActiveIndex v x).
Proof.
  unfold sameLength. by rewrite setActiveIndex_items, setActiveIndex_length.
Qed.

Lemma length_vec_insert {A} (l : list A) i v :
  length (vec_insert l i v) = S (length l).
Proof.
  unfold vec_insert. rewrite length_app. simpl.
  rewrite length_take, length_drop. lia.
Qed.

(** *** Properties of single menus that every operation keeps

    A property [P] of a menu that depends only on its items, the number
    of its nodes and its selection, and that the setter and the three
    changes of the vectors keep, holds for all menus of the store after
    an operation if it held before. *)
Section PerMenu.

Variable P : Menu -> Prop.
Hypothesis P_frame : ∀ x y,
    _items y = _items x -> length (_nodes y) = length (_nodes x) ->
    _activeIndex y = _activeIndex x -> P x -> P y.
Hypothesis P_setActive : ∀ v x, P x -> P (setActiveIndex v x).
Hypothesis P_insert : ∀ index item x, P x -> P (insertedAt index item x).
Hypothesis P_remove : ∀ i x, P x -> P (removedAt i x).
Hypothesis P_clear : ∀ x, P x -> P (cleared x).
Hypothesis P_new : ∀ r, P (newMenu r).

Ltac frame_tac :=
  intros; eapply P_frame; [..|eassumption];
  unfold_menu_fns; repeat case_match; reflexivity.

Lemma P_cancelOpen x : P x -> P (_cancelOpenTimer x).
Proof. frame_tac. Qed.
Lemma P_cancelClose x : P x -> P (_cancelCloseTimer x).
Proof. frame_tac. Qed.
Lemma P_childLink i c x : P x -> P (set_childLink i c x).
Proof. frame_tac. Qed.
Lemma P_parentMenu p x : P x -> P (set_parentMenu p x).
Proof. frame_tac. Qed.
Lemma P_unmount x : P x -> P (unmount x).
Proof. frame_tac. Qed.
Lemma P_attach x : P x -> P (attach x).
Proof. frame_tac. Qed.
Lemma P_style s x : P x -> P (set_style s x).
Proof. frame_tac. Qed.
Lemma P_openTimer v x : P x -> P (set_openTimerID v x).
Proof. frame_tac. Qed.
Lemma P_closeTimer v x : P x -> P (set_closeTimerID v x).
Proof. frame_tac. Qed.

Lemma P_onUpdateRequest x : P x -> P (onUpdateRequest x).
Proof.
  intros. eapply P_frame; [..|eassumption]; try reflexivity.
  apply length_onUpdateRequest.
Qed.

Lemma P_first x : P x -> P (activateFirstSelectable x).
Proof.
  unfold activateFirstSelectable. case_match; apply P_setActive.
Qed.
Lemma P_next x : P x -> P (activateNextSelectable x).
Proof.
  unfold activateNextSelectable. case_match; apply P_setActive.
Qed.
Lemma P_prev x : P x -> P (activatePrevSelectable x).
Proof.
  unfold activatePrevSelectable. case_match; apply P_setActive.
Qed.
Lemma P_mnemonic c x : P x -> P (activateNextMnemonic c x).
Proof.
  unfold activateNextMnemonic. case_match; apply P_setActive.
Qed.

Create HintDb kept.
#[local] Hint Resolve P_setActive P_cancelOpen
  P_cancelClose P_childLink P_parentMenu P_unmount
  P_attach P_style P_openTimer P_closeTimer
  P_onUpdateRequest P_first P_next P_prev
  P_mnemonic : kept.

(** *** The two properties hold in a store and are kept by every operation *)

Lemma allP_modify w m f :
  (∀ x, P x -> P (f x)) -> allP P w -> allP P (modify m f w).
Proof. intros Hf Hw. unfold allP. by apply (modify_all P). Qed.

Lemma allP_same w w' : menus w' = menus w -> allP P w -> allP P w'.
Proof. intros Heq Hw k. unfold menu. rewrite Heq. apply Hw. Qed.

Lemma allP_emit s w : allP P w -> allP P (emit s w).
Proof. by apply allP_same. Qed.

Lemma allP_tick w : allP P w -> allP P (tick w).
Proof. by apply allP_same. Qed.

Lemma allP_initial rs : allP P (initial rs).
Proof.
  intros k. unfold menu, initial; simpl. rewrite list_lookup_fmap.
  destruct (rs !! k); simpl; apply P_new.
Qed.

Lemma close_fuel_allP n w m w' :
  close_fuel n w m = Some w' -> allP P w -> allP P w'.
Proof.
  apply (close_fuel_rel (λ a b, allP P a -> allP P b)); eauto;
    intros; first [apply allP_emit | apply allP_modify]; auto with kept.
Qed.

Lemma close_allP w m w' : close w m = Some w' -> allP P w -> allP P w'.
Proof. apply close_fuel_allP. Qed.

Lemma unlinkChild_allP w m c : allP P w -> allP P (unlinkChild w m c).
Proof. intros. unfold unlinkChild. repeat apply allP_modify; auto with kept. Qed.

Lemma closeChildMenu_allP w m w' :
  _closeChildMenu w m = Some w' -> allP P w -> allP P w'.
Proof.
  unfold _closeChildMenu. destruct (_childMenu (menu w m)) as [c|].
  - intros Hc Hw. eapply close_allP; [apply Hc|].
    by apply unlinkChild_allP.
  - by intros [= ->].
Qed.

Lemma triggerLoop_menus n : ∀ w m item w' root,
  triggerLoop n w m item = Some (w', root) -> menus w' = menus w.
Proof.
  induction n as [|n IH]; intros w m item w' root; simpl; [discriminate|].
  destruct (_parentMenu _) as [p|].
  - intros H. by apply IH in H.
  - by intros [= <- <-].
Qed.

Lemma triggerItem_allP w m item w' :
  _triggerItem w m item = Some w' -> allP P w -> allP P w'.
Proof.
  unfold _triggerItem.
  destruct (triggerLoop _ w m item) as [[w1 root]|] eqn:Hloop; [|discriminate].
  simpl. intros Hclose Hw. eapply close_allP; [apply Hclose|].
  eapply allP_same; [|apply Hw]. by eapply triggerLoop_menus.
Qed.

Lemma prepareOpen_allP dom m h w : allP P w -> allP P (prepareOpen dom m h w).
Proof.
  intros. unfold prepareOpen. case_match;
    repeat apply allP_modify; auto with kept.
Qed.

Lemma place_allP m x y w : allP P w -> allP P (place m x y w).
Proof. intros. unfold place. apply allP_modify; auto with kept. Qed.

Lemma openRootMenu_allP dom w m x y fx fy :
  allP P w -> allP P (openRootMenu dom w m x y fx fy).
Proof.
  intros. unfold openRootMenu. case_match.
  by apply place_allP, prepareOpen_allP.
Qed.

Lemma openSubmenu_allP dom w m itemNode :
  allP P w -> allP P (after (openSubmenu dom w m itemNode)).
Proof.
  intros. unfold openSubmenu. case_match. destruct itemNode as [[owner i]|]; simpl.
  - by apply place_allP, prepareOpen_allP.
  - by apply prepareOpen_allP.
Qed.

Lemma open_allP dom w m x y fx fy :
  allP P w -> allP P (open dom w m x y fx fy).
Proof. intros. unfold open. case_match; [done|]. by apply openRootMenu_allP. Qed.

Lemma openChildMenu_allP dom w m o :
  _openChildMenu dom w m = Some o -> allP P w -> allP P (after o).
Proof.
  unfold _openChildMenu. intros Hopen Hw.
  repeat case_match; outcome_inv; simplify_eq; try done;
    try (by eapply closeChildMenu_allP).
  destruct (_closeChildMenu w m) as [w1|] eqn:Hc; [|discriminate].
  simpl in Hopen. simplify_eq.
  apply openSubmenu_allP. repeat apply allP_modify; auto with kept.
  by eapply closeChildMenu_allP.
Qed.

Lemma startOpenTimer_allP m w : allP P w -> allP P (_startOpenTimer m w).
Proof.
  intros. unfold _startOpenTimer. case_match; [|done].
  apply allP_tick, allP_modify; auto with kept.
Qed.

Lemma startCloseTimer_allP m w : allP P w -> allP P (_startCloseTimer m w).
Proof.
  intros. unfold _startCloseTimer. case_match; [|done].
  apply allP_tick, allP_modify; auto with kept.
Qed.

Lemma syncAncestors_allP n : ∀ w cur w',
  syncAncestors n w cur = Some w' -> allP P w -> allP P w'.
Proof.
  induction n as [|n IH]; intros w cur w'; simpl; [discriminate|].
  destruct cur as [k|]; [|by intros [= ->]].
  intros Hs Hw. eapply IH; [apply Hs|].
  repeat apply allP_modify; auto with kept.
Qed.

Lemma evtMouseUp_allP dom w m button hit o :
  _evtMouseUp dom w m button hit = Some o -> allP P w -> allP P (after o).
Proof.
  unfold _evtMouseUp. intros Hev Hw.
  destruct (negb (button =? 0)); [by simplify_eq|].
  assert (H1 : allP P (modify m (setActiveIndex hit) w))
    by (apply allP_modify; auto with kept).
  destruct (activeItem _) as [item|]; [|by simplify_eq].
  assert (H2 : allP P (modify m _cancelCloseTimer (modify m _cancelOpenTimer
                 (modify m (setActiveIndex hit) w))))
    by (repeat apply allP_modify; auto with kept).
  destruct (MenuItemType_eqb _ _).
  - by eapply openChildMenu_allP.
  - outcome_inv. by eapply triggerItem_allP.
Qed.

Lemma evtMouseMove_allP w m hit w' :
  _evtMouseMove w m hit = Some w' -> allP P w -> allP P w'.
Proof.
  unfold _evtMouseMove. intros Hev Hw.
  destruct (hit =? _); [by simplify_eq|].
  destruct (syncAncestors _ _ _) as [w1|] eqn:Hs; [|discriminate].
  simpl in Hev. apply syncAncestors_allP in Hs.
  2: { apply allP_modify; auto with kept. }
  destruct (_ =? _) in Hev.
  { simplify_eq. repeat apply allP_modify; auto with kept. }
  set (w2 := if negb _ then _ else _) in Hev.
  assert (H1 : allP P w2).
  { unfold w2. destruct (negb _); [by apply startCloseTimer_allP | done]. }
  assert (H2 : allP P (modify m _cancelOpenTimer w2))
    by (apply allP_modify; auto with kept).
  repeat case_match; simplify_eq; try done.
  by apply startOpenTimer_allP.
Qed.

Lemma evtMouseLeave_allP w m over :
  allP P w -> allP P (_evtMouseLeave w m over).
Proof.
  intros. unfold _evtMouseLeave. repeat case_match;
    try apply startCloseTimer_allP;
    repeat apply allP_modify; auto with kept.
Qed.

Lemma openThenActivate_allP dom w m o :
  andThen (_openChildMenu dom w m) (activateChild m) = Some o ->
  allP P w -> allP P (after o).
Proof.
  intros Ho Hw.
  apply andThen_Some in Ho as [(w1 & Ho & ->)|(w1 & Ho & Hact)];
    apply openChildMenu_allP in Ho; try done.
  unfold activateChild in Hact. simpl in Ho.
  case_match; simplify_eq; simpl; [|done].
  apply allP_modify; auto with kept.
Qed.

Lemma evtKeyDown_allP dom w m kc o :
  _evtKeyDown dom w m kc = Some o -> allP P w -> allP P (after o).
Proof.
  unfold _evtKeyDown. intros Hev Hw.
  assert (H2 : allP P (modify m _cancelCloseTimer (modify m _cancelOpenTimer w)))
    by (repeat apply allP_modify; auto with kept).
  repeat case_match; outcome_inv; simplify_eq; try done;
    try (by eapply triggerItem_allP);
    try (by eapply close_allP);
    try (by eapply openThenActivate_allP);
    apply allP_modify; auto with kept.
Qed.

Lemma evtKeyPress_allP w m c : allP P w -> allP P (_evtKeyPress w m c).
Proof.
  intros. unfold _evtKeyPress. case_match; [done|].
  apply allP_modify; auto with kept.
Qed.

Lemma evtMouseDown_allP w m hitTest w' :
  _evtMouseDown w m hitTest = Some w' -> allP P w -> allP P w'.
Proof.
  unfold _evtMouseDown. intros Hev Hw.
  case_match; [by simplify_eq|].
  destruct (pressInChain _ _ _ _) as [[|]|]; simpl in Hev; simplify_eq; [done|].
  by eapply close_allP.
Qed.

Lemma handleEvent_allP dom w m event o :
  handleEvent dom w m event = Some o -> allP P w -> allP P (after o).
Proof.
  destruct event; simpl; intros Hev Hw; outcome_inv; simplify_eq; try done.
  - by eapply evtMouseUp_allP.
  - by eapply evtMouseMove_allP.
  - by apply evtMouseLeave_allP.
  - by eapply evtKeyDown_allP.
  - by apply evtKeyPress_allP.
  - by eapply evtMouseDown_allP.
Qed.

Lemma closeIfAttached_allP w m w' :
  closeIfAttached w m = Some w' -> allP P w -> allP P w'.
Proof.
  unfold closeIfAttached. case_match; [apply close_allP | by intros [= ->]].
Qed.

Lemma insertItem_allP w m index item w' :
  insertItem w m index item = Some w' -> allP P w -> allP P w'.
Proof.
  unfold insertItem. intros Hins Hw.
  destruct (closeIfAttached w m) as [w1|] eqn:Hc; [|discriminate].
  simpl in Hins. simplify_eq.
  apply allP_modify; [apply P_insert|].
  by eapply closeIfAttached_allP.
Qed.

Lemma removeItem_allP w m index w' :
  removeItem w m index = Some w' -> allP P w -> allP P w'.
Proof.
  unfold removeItem. intros Hrem Hw.
  case_match; [by simplify_eq|].
  destruct (closeIfAttached w m) as [w1|] eqn:Hc; [|discriminate].
  simpl in Hrem. simplify_eq.
  apply allP_modify; [apply P_remove|].
  by eapply closeIfAttached_allP.
Qed.

Lemma clearItems_allP w m w' :
  clearItems w m = Some w' -> allP P w -> allP P w'.
Proof.
  unfold clearItems. intros Hclr Hw.
  destruct (closeIfAttached w m) as [w1|] eqn:Hc; [|discriminate].
  simpl in Hclr. simplify_eq.
  apply allP_modify; [apply P_clear|].
  by eapply closeIfAttached_allP.
Qed.

Lemma exec_allP dom op w w' :
  exec dom op w = Some w' -> allP P w -> allP P w'.
Proof.
  unfold exec. destruct op; simpl; intros Hex Hw; outcome_inv; simplify_eq.
  - apply allP_modify; auto with kept.
  - by eapply insertItem_allP.
  - by eapply insertItem_allP.
  - by eapply removeItem_allP.
  - by eapply clearItems_allP.
  - by apply open_allP.
  - by eapply close_allP.
  - by eapply handleEvent_allP.
  - unfold openTimerFires in Hex. case_match; [by simplify_eq|].
    eapply openChildMenu_allP; [apply Hex|].
    apply allP_modify; auto with kept.
  - unfold closeTimerFires in Hex. case_match; [by simplify_eq|].
    eapply closeChildMenu_allP; [apply Hex|].
    apply allP_modify; auto with kept.
  - apply allP_modify; auto with kept.
Qed.

Lemma run_allP ops : ∀ w w',
  run ops w = Some w' -> allP P w -> allP P w'.
Proof.
  induction ops as [|[dom op] ops IH]; intros w w'; simpl.
  - by intros [= ->].
  - destruct (exec dom op w) as [w1|] eqn:Hex; [|discriminate]. simpl.
    intros Hrun Hw. eapply IH; [apply Hrun|]. by eapply exec_allP.
Qed.

Lemma trace_allP ops : ∀ w, allP P w -> Forall (allP P) (trace ops w).
Proof.
  induction ops as [|[dom op] ops IH]; intros w Hw; simpl; [constructor|].
  destruct (exec dom op w) as [w1|] eqn:Hex; [|constructor].
  pose proof (exec_allP _ _ _ _ Hex Hw). constructor; auto.
Qed.

End PerMenu.

(** *** The two instances *)

Lemma sameLength_frame x y :
  _items y = _items x -> length (_nodes y) = length (_nodes x) ->
  _activeIndex y = _activeIndex x -> sameLength x -> sameLength y.
Proof. unfold sameLength. intros -> ->. done. Qed.

Lemma sameLength_insert index item x :
  sameLength x -> sameLength (insertedAt index item x).
Proof.
  unfold sameLength, insertedAt. simpl. rewrite !length_vec_insert. congruence.
Qed.

Lemma sameLength_remove i x : sameLength x -> sameLength (removedAt i x).
Proof.
  unfold sameLength, removedAt, vec_remove. simpl.
  rewrite !delete_take_drop, !length_app, !length_take, !length_drop. lia.
Qed.

Lemma sameLength_clear x : sameLength x -> sameLength (cleared x).
Proof. done. Qed.

Lemma sameLength_new r : sameLength (newMenu r).
Proof. done. Qed.

Lemma activeOK_frame x y :
  _items y = _items x -> length (_nodes y) = length (_nodes x) ->
  _activeIndex y = _activeIndex x -> activeOK x -> activeOK y.
Proof. unfold activeOK. intros -> _ ->. done. Qed.

Lemma activeOK_new r : activeOK (newMenu r).
Proof. by left. Qed.

Lemma exec_sameLength dom op w w' :
  exec dom op w = Some w' -> allP sameLength w -> allP sameLength w'.
Proof.
  apply exec_allP.
  - apply sameLength_frame.
  - apply setActiveIndex_sameLength.
  - apply sameLength_insert.
  - apply sameLength_remove.
  - apply sameLength_clear.
Qed.

Lemma exec_activeOK dom op w w' :
  exec dom op w = Some w' -> allP activeOK w -> allP activeOK w'.
Proof.
  apply exec_allP.
  - apply activeOK_frame.
  - intros. apply setActiveIndex_activeOK.
  - by left.
  - by left.
  - by left.
Qed.

Lemma closeIfAttached_returns w m : is_Some (closeIfAttached w m).
Proof. unfold closeIfAttached. case_match; [apply close_returns | by eexists]. Qed.

Lemma itemCall_returns dom op w : isItemCall op -> is_Some (exec dom op w).
Proof.
  unfold exec. destruct op; simpl; try done; intros _;
    unfold addItem, insertItem, removeItem, clearItems;
    try (destruct (closeIfAttached_returns w m) as [w1 ->]; by eexists).
  case_match; [by eexists|].
  destruct (closeIfAttached_returns w m) as [w1 ->]; by eexists.
Qed.

(** C8.  From a store in which every menu has as many nodes as items,
    every call in a sequence of [addItem], [insertItem], [removeItem] and
    [clearItems] calls (any menus, indices and items) returns, and after
    each call every menu has as many nodes as items. *)
Theorem items_nodes_same_length (w : World) (ops : list (Dom * Op)) :
  (∀ m, length (_items (menu w m)) = length (_nodes (menu w m))) ->
  Forall (λ call, isItemCall call.2) ops ->
  length (trace ops w) = length ops ∧
  Forall (λ w', ∀ m, length (_items (menu w' m)) = length (_nodes (menu w' m)))
         (trace ops w).
Proof.
  revert w. induction ops as [|[dom op] ops IH]; intros w Hw Hops; simpl.
  - split; [done | constructor].
  - apply Forall_cons in Hops as [Hop Hops]. simpl in Hop.
    destruct (itemCall_returns dom op w Hop) as [w1 Hex]. rewrite Hex.
    pose proof (exec_sameLength _ _ _ _ Hex Hw) as Hw1.
    destruct (IH w1 Hw1 Hops) as [Hlen Hall].
    simpl. split; [by rewrite Hlen | by constructor].
Qed.

(** C9.  In every store reached from freshly constructed menus through
    operations, the [activeIndex] of every menu is [-1] or the index of a
    selectable item; and the setter stores the given index when it
    designates a selectable item and [-1] in every other case (index out
    of range, separator, disabled or hidden item). *)
Theorem activeIndex_selectable :
  (∀ renderers ops w, run ops (initial renderers) = Some w ->
     ∀ m, _activeIndex (menu w m) = -1 ∨
          ∃ item, at_ (_items (menu w m)) (_activeIndex (menu w m)) = Some item ∧
                  type item ≠ separator ∧ disabled item = false ∧
                  hidden item = false) ∧
  (∀ x value,
     _activeIndex (setActiveIndex value x) =
       match at_ (_items x) value with
       | Some item => if isSelectable item then value else -1
       | None => -1
       end).
Proof.
  split.
  - intros rs ops w Hrun m.
    assert (Hall : allP activeOK w).
    { revert Hrun. generalize (allP_initial activeOK activeOK_new rs).
      generalize (initial rs). clear.
      induction ops as [|[dom op] ops IH]; intros w0 H0; simpl.
      - by intros [= ->].
      - destruct (exec dom op w0) as [w1|] eqn:Hex; [|discriminate]. simpl.
        apply IH. by eapply exec_activeOK. }
    destruct (Hall m) as [Hnone|(item & Hat & Hsel)]; [by left|].
    right. exists item. split; [done|].
    unfold isSelectable in Hsel.
    apply negb_true_iff in Hsel.
    apply orb_false_iff in Hsel as [Hsel Hhid].
    apply orb_false_iff in Hsel as [Hsep Hdis].
    repeat split; try done.
    intros Heq. rewrite Heq in Hsep. discriminate.
  - intros x value. rewrite setActiveIndex_value.
    unfold coerceIndex, selectableAt. by destruct (at_ (_items x) value).
Qed.

(** C10.  A [mouseup] whose button is not the left one leaves the store,
    with its log of signals, as it is. *)
Theorem mouseup_other_button_ignored dom w m button hit :
  button ≠ 0 ->
  _evtMouseUp dom w m button hit = Some (returned w) ∧
  handleEvent dom w m (mouseup button hit) = Some (returned w).
Proof.
  intros Hb. simpl. unfold _evtMouseUp.
  rewrite (proj2 (Z.eqb_neq button 0) Hb). done.
Qed.

(** ** Separator collapsing *)

Lemma update_at_outside {A} (l : list A) i f :
  i < 0 ∨ len l <= i -> update_at l i f = l.
Proof.
  unfold update_at, len. intros H. destruct (i <? 0) eqn:E; [done|].
  apply list_eq. intros j. destruct (decide (Z.to_nat i = j)) as [<-|Hne].
  - rewrite list_lookup_alter_eq.
    rewrite (proj2 (lookup_ge_None l (Z.to_nat i))); [done | lia].
  - by rewrite list_lookup_alter_ne.
Qed.

(** C4, as stated, fails: the nodes suppressed by a render pass over the
    six items are not those at positions 0, 2 and 5. *)
Lemma separators_0_2_5_refuted :
  suppressed (_nodes (onUpdateRequest sixMenu)) ≠ [0; 2; 5]%nat.
Proof. vm_compute. discriminate. Qed.

(** C4, amended.  For a menu with the six items, rendered by the default
    renderer, a render pass suppresses exactly the nodes at positions 0, 3
    and 5: the leading separator, the second of the two consecutive
    separators and the trailing one.  The separator at position 2 is the
    only one that stays visible. *)
Theorem separators_collapsed (x : Menu) :
  _items x = sixItems ->
  length (_nodes x) = 6%nat ->
  _renderer x = MenuItemRenderer.instance ->
  suppressed (_nodes (onUpdateRequest x)) = [0; 3; 5]%nat ∧
  visibleSeparators (_items x) (_nodes (onUpdateRequest x)) = [2]%nat.
Proof.
  destruct x as [ci ot ct ai cm pm r items nodes par att st]. simpl.
  intros -> Hlen ->.
  do 7 (destruct nodes as [|? nodes]; try discriminate). clear Hlen.
  unfold onUpdateRequest. cbn [_items _nodes _renderer _activeIndex set_nodes
    set_vectors].
  set (nodes1 := updateNodes _ _ _ _).
  assert (Hcases : ai = 0 ∨ ai = 1 ∨ ai = 2 ∨ ai = 3 ∨ ai = 4 ∨ ai = 5 ∨
                   (ai < 0 ∨ 6 <= ai)) by lia.
  destruct Hcases as [->|[->|[->|[->|[->|[->|Hout]]]]]];
    try (vm_compute; done).
  rewrite (update_at_outside nodes1) by (vm_compute len; lia).
  destruct (negb (ai =? -1)); vm_compute; done.
Qed.

(** ** Placement of a root menu *)

Lemma style_place m x y w :
  (m < length (menus w))%nat ->
  style_top (style (menu (place m x y w) m)) = Some (Z.max 0 y) ∧
  style_left (style (menu (place m x y w) m)) = Some (Z.max 0 x).
Proof. intros Hm. unfold place. rewrite menu_modify_eq by done. done. Qed.

Lemma length_prepareOpen dom m h w :
  length (menus (prepareOpen dom m h w)) = length (menus w).
Proof.
  unfold prepareOpen. case_match; rewrite ?length_modify; done.
Qed.

(** C6, as stated, fails: in a viewport of height 100, a menu of height
    30 asked for at [y = 90] gets the top 60, not the viewport bottom
    minus its height, 70. *)
Lemma root_top_overflow_refuted :
  let dom := domOf 0 0 100 100 20 30 in
  let w := openRootMenu dom oneMenu 0 0 90 false false in
  90 + 30 > pageYOffset dom + clientHeight dom ∧
  adjustY false 90 30 (pageYOffset dom) (clientHeight dom)
    ≠ pageYOffset dom + clientHeight dom - 30 ∧
  style_top (style (menu w 0)) ≠ Some (pageYOffset dom + clientHeight dom - 30).
Proof. vm_compute. repeat split; discriminate. Qed.

(** C6, amended.  With [forceY] false and a menu whose bottom edge at the
    requested [y] would pass the viewport bottom: when [y] is itself past
    the viewport bottom, the top before the clamp is the viewport bottom
    minus the menu height; when [y] is within the viewport, it is [y]
    minus the menu height (the menu is opened upwards from [y]).  The
    style gets this value clamped at 0. *)
Theorem root_top_on_overflow dom w m x y forceX width height :
  (m < length (menus w))%nat ->
  measure dom (prepareOpen dom m (clientHeight dom - 0) w) m = (width, height) ->
  y + height > pageYOffset dom + clientHeight dom ->
  let bottom := pageYOffset dom + clientHeight dom in
  let top := adjustY false y height (pageYOffset dom) (clientHeight dom) in
  (y > bottom -> top = bottom - height) ∧
  (y <= bottom -> top = y - height) ∧
  style_top (style (menu (openRootMenu dom w m x y forceX false) m))
    = Some (Z.max 0 top).
Proof.
  intros Hm Hsize Hover bottom top.
  assert (Htop : style_top (style (menu (openRootMenu dom w m x y forceX false) m))
                 = Some (Z.max 0 top)).
  { unfold openRootMenu. simpl. rewrite Hsize.
    apply style_place. by rewrite length_prepareOpen. }
  split; [|split; [|exact Htop]]; intros Hy;
    unfold top, bottom, adjustY in *; simpl;
    rewrite (proj2 (Z.gtb_gt (y + height) _)) by lia.
  - by rewrite (proj2 (Z.gtb_gt y _)) by lia.
  - destruct (y >? _) eqn:E; [apply Z.gtb_gt in E; lia | done].
Qed.

(** C7, as stated, fails: in a viewport of width 100, a menu of width 150
    asked for at [x = 10] is placed at left 0, so its right edge is at
    150; and with [forceX] a requested [x = -5] is not honoured, the menu
    is placed at left 0. *)
Lemma root_right_edge_refuted :
  let dom := domOf 0 0 100 100 150 30 in
  let w := openRootMenu dom oneMenu 0 10 0 false false in
  let w' := openRootMenu dom oneMenu 0 (-5) 0 true false in
  10 + 150 > pageXOffset dom + clientWidth dom ∧
  style_left (style (menu w 0)) = Some 0 ∧
  0 + 150 ≠ pageXOffset dom + clientWidth dom ∧
  style_left (style (menu w' 0)) ≠ Some (-5).
Proof. vm_compute. repeat split; discriminate. Qed.

(** C7, amended.  With [forceX] false and [x + width] past the viewport
    right edge, the menu is placed at the viewport right edge minus its
    width, clamped at 0: its right edge is the viewport right edge
    whenever the menu is not wider than that, and the left is 0
    otherwise.  With [forceX] true the left is the requested [x] clamped
    at 0, so a non-negative [x] is honoured exactly even if the menu
    overflows. *)
Theorem root_left_on_overflow dom w m x y (forceX forceY : bool) width height :
  (m < length (menus w))%nat ->
  measure dom (prepareOpen dom m (clientHeight dom - (if forceY then y else 0)) w) m
    = (width, height) ->
  let right := pageXOffset dom + clientWidth dom in
  let left := style_left (style (menu (openRootMenu dom w m x y forceX forceY) m)) in
  (forceX = false -> x + width > right ->
     left = Some (Z.max 0 (right - width)) ∧
     (width <= right -> left = Some (right - width))) ∧
  (forceX = true -> left = Some (Z.max 0 x) ∧ (0 <= x -> left = Some x)).
Proof.
  intros Hm Hsize right left.
  assert (Hleft : left = Some (Z.max 0 (adjustX forceX x width (pageXOffset dom)
                                          (clientWidth dom)))).
  { unfold left, openRootMenu. simpl. rewrite Hsize.
    apply style_place. by rewrite length_prepareOpen. }
  rewrite Hleft. unfold adjustX. split.
  - intros -> Hover. simpl. rewrite (proj2 (Z.gtb_gt _ _)) by (unfold right in *; lia).
    split; [done|]. intros Hw. f_equal. unfold right in *. lia.
  - intros ->. simpl. split; [done|]. intros Hx. f_equal. lia.
Qed.

(** ** Mnemonic activation *)

Lemma scan_Some {A} (body : Z -> option A) n : ∀ i r,
  scan body i n = Some r ->
  ∃ k, i <= k < i + Z.of_nat n ∧ body k = Some r ∧
       ∀ k', i <= k' < k -> body k' = None.
Proof.
  induction n as [|n IH]; intros i r; simpl; [discriminate|].
  destruct (body i) as [r'|] eqn:Hi.
  - intros [= ->]. exists i. repeat split; try lia. done.
  - intros Hs. destruct (IH _ _ Hs) as (k & Hk & Hbody & Hbefore).
    exists k. repeat split; try lia; [done|].
    intros k' Hk'. destruct (decide (k' = i)) as [->|]; [done|].
    apply Hbefore. lia.
Qed.

Lemma scan_None {A} (body : Z -> option A) n : ∀ i,
  (∀ k, i <= k < i + Z.of_nat n -> body k = None) -> scan body i n = None.
Proof.
  induction n as [|n IH]; intros i Hnone; simpl; [done|].
  rewrite Hnone by lia. apply IH. intros k Hk. apply Hnone. lia.
Qed.

Lemma scan_first {A} (body : Z -> option A) n : ∀ i k r,
  i <= k < i + Z.of_nat n -> body k = Some r ->
  (∀ k', i <= k' < k -> body k' = None) -> scan body i n = Some r.
Proof.
  induction n as [|n IH]; intros i k r Hk Hbody Hbefore; simpl; [lia|].
  destruct (decide (k = i)) as [->|Hne].
  - by rewrite Hbody.
  - rewrite Hbefore by lia. apply (IH _ k); [lia | done |].
    intros k' Hk'. apply Hbefore. lia.
Qed.

Lemma matchMnemonic_first s : ∀ d, matchMnemonic s = Some d -> firstMnemonic s d.
Proof.
  induction s as [|a r IH]; intros d; simpl; [discriminate|].
  destruct r as [|b [|c t]]; try discriminate.
  destruct (bool_decide (a = "&"%char) && bool_decide (b = "&"%char)
            && isWordChar c) eqn:Htest.
  - intros [= <-].
    apply andb_true_iff in Htest as [Hab Hc].
    apply andb_true_iff in Hab as [Ha Hb].
    apply bool_decide_eq_true in Ha, Hb. subst.
    exists "", t. repeat split; try done. simpl. intros; lia.
  - intros Hr. destruct (IH d Hr) as (pre & post & Heq & Hd & Hmin).
    exists (String a pre), post. repeat split; [simpl; by rewrite Heq | done |].
    intros pre' e post' Heq' Hlen.
    destruct pre' as [|a' pre''].
    + simpl in Heq'. injection Heq' as -> -> ->.
      simpl in Htest. done.
    + simpl in Heq', Hlen. injection Heq' as -> Heq'.
      eapply Hmin; [exact Heq' | lia].
Qed.

Lemma matchMnemonic_cons a b c t :
  matchMnemonic (String a (String b (String c t))) =
  if bool_decide (a = "&"%char) && bool_decide (b = "&"%char) && isWordChar c
  then Some c else matchMnemonic (String b (String c t)).
Proof. reflexivity. Qed.

Lemma first_matchMnemonic s d : firstMnemonic s d -> matchMnemonic s = Some d.
Proof.
  intros (pre & post & -> & Hd & Hmin). revert Hmin.
  induction pre as [|a pre IH]; intros Hmin.
  - simpl. by rewrite Hd.
  - assert (Hr : ∃ b c t, pre +:+ "&&" +:+ String d post = String b (String c t)).
    { destruct pre as [|b [|c pre]]; simpl; eauto. }
    destruct Hr as (b & c & t & Hr).
    change (String a pre +:+ "&&" +:+ String d post)
      with (String a (pre +:+ "&&" +:+ String d post)) in *.
    rewrite Hr in *. rewrite matchMnemonic_cons.
    destruct (bool_decide (a = "&"%char) && bool_decide (b = "&"%char)
              && isWordChar c) eqn:Htest.
    + apply andb_true_iff in Htest as [Hab Hc].
      apply andb_true_iff in Hab as [Ha Hb].
      apply bool_decide_eq_true in Ha, Hb. subst.
      rewrite (Hmin "" c t) in Hc; [discriminate | done | simpl; lia].
    + apply IH.
      intros pre' e post' Heq' Hlen.
      apply (Hmin (String a pre') e post'); [|simpl; lia].
      change (String a pre' +:+ "&&" +:+ String e post')
        with (String a (pre' +:+ "&&" +:+ String e post')).
      by rewrite <- Heq'.
Qed.

Lemma mnemonicAt_true items c k :
  mnemonicAt items c k = true ↔
  ∃ item d, at_ items k = Some item ∧ isSelectable item = true ∧
            firstMnemonic (text item) d ∧ toUpperCase d = c.
Proof.
  unfold mnemonicAt, mnemonicHit. split.
  - destruct (at_ items k) as [item|]; [|discriminate].
    destruct (isSelectable item) eqn:Hsel; simpl; [|discriminate].
    destruct (matchMnemonic (text item)) as [d|] eqn:Hm; [|discriminate].
    intros Hd. apply bool_decide_eq_true in Hd.
    exists item, d. repeat split; try done. by apply matchMnemonic_first.
  - intros (item & d & -> & -> & Hfirst & Hd). simpl.
    rewrite (first_matchMnemonic _ _ Hfirst). by apply bool_decide_eq_true.
Qed.

(** C5, as stated, fails: the label ["&&Save &&Open"] contains ["&&"]
    directly followed by [O], so typing [o] would activate the item; the
    source clears the selection. *)
Lemma mnemonic_any_marker_refuted :
  spec_mnemonicAt (_items saveOpenMenu) "o" 0 = true ∧
  _activeIndex (spec_activateNextMnemonic "o" saveOpenMenu) = 0 ∧
  _activeIndex (activateNextMnemonic "o" saveOpenMenu) = -1.
Proof. vm_compute. done. Qed.

(** C5, amended.  An item matches the typed character when it is
    selectable and the leftmost place of its label where ["&&"] is
    directly followed by a word character (letter, digit or underscore)
    has a character equal to the typed one up to case.  The items are
    scanned cyclically from just after the current selection; the first
    matching item becomes the selection, and the selection is cleared to
    [-1] if no item matches. *)
Theorem mnemonic_activation (char : ascii) (x : Menu) :
  let items := _items x in
  let n := len items in
  let j := _activeIndex x + 1 in
  let matches (k : Z) :=
    ∃ item d, at_ items k = Some item ∧ isSelectable item = true ∧
              firstMnemonic (text item) d ∧
              toUpperCase d = toUpperCase char in
  (∀ i, 0 <= i < n -> matches (Z.rem (i + j) n) ->
        (∀ i', 0 <= i' < i -> ¬ matches (Z.rem (i' + j) n)) ->
        _activeIndex (activateNextMnemonic char x) = Z.rem (i + j) n) ∧
  ((∀ i, 0 <= i < n -> ¬ matches (Z.rem (i + j) n)) ->
   _activeIndex (activateNextMnemonic char x) = -1).
Proof.
  intros items n j matches.
  assert (Hm : ∀ k, mnemonicAt items (toUpperCase char) k = true ↔ matches k)
    by (intros k; apply mnemonicAt_true).
  assert (Hnot : ∀ k, ¬ matches k -> mnemonicAt items (toUpperCase char) k = false).
  { intros k Hk. destruct (mnemonicAt _ _ k) eqn:E; [|done].
    exfalso. by apply Hk, Hm. }
  unfold activateNextMnemonic. fold items j n. split.
  - intros i Hi Hmatch Hbefore.
    rewrite (scan_first _ _ 0 i (Z.rem (i + j) n)).
    + rewrite setActiveIndex_value. unfold coerceIndex, selectableAt.
      destruct Hmatch as (item & d & Hat & Hsel & _).
      subst items n j. by rewrite Hat, Hsel.
    + unfold n, len in Hi. lia.
    + simpl. by rewrite (proj2 (Hm _) Hmatch).
    + intros k' Hk'. simpl. rewrite Hnot; [done|]. apply Hbefore. lia.
  - intros Hnone. rewrite scan_None.
    + by rewrite setActiveIndex_value.
    + intros k Hk. simpl. rewrite Hnot; [done|]. apply Hnone.
      unfold n, len. lia.
Qed.

(** ** The links between a menu and its open child *)

Lemma sameLinks_refl w : sameLinks w w.
Proof. by intros k. Qed.

Lemma sameLinks_trans a b c : sameLinks a b -> sameLinks b c -> sameLinks a c.
Proof.
  intros H1 H2 k. destruct (H1 k) as (? & ? & ?), (H2 k) as (? & ? & ?).
  repeat split; congruence.
Qed.

Lemma sameLinks_linked w w' : sameLinks w w' -> linked w -> linked w'.
Proof.
  intros Hs [Hd Hu Hi]. split.
  - intros m c. destruct (Hs m) as (-> & _ & _), (Hs c) as (_ & -> & _). auto.
  - intros c p. destruct (Hs c) as (_ & -> & _), (Hs p) as (-> & _ & _). auto.
  - intros m. destruct (Hs m) as (-> & _ & ->). auto.
Qed.

Lemma sameLinks_ranked r w w' : sameLinks w w' -> ranked r w -> ranked r w'.
Proof. intros Hs Hr m c. destruct (Hs m) as (-> & _ & _). auto. Qed.

Lemma sameLinks_modify w m f : keepsLinks f -> sameLinks w (modify m f w).
Proof.
  intros (H1 & H2 & H3) k. unfold childOf, parentOf, indexOf.
  by rewrite (field_modify_keep _childMenu), (field_modify_keep _parentMenu),
    (field_modify_keep _childIndex).
Qed.

Lemma sameLinks_same w w' : menus w' = menus w -> sameLinks w w'.
Proof.
  intros Heq k. unfold childOf, parentOf, indexOf, menu. by rewrite Heq.
Qed.

Ltac keepsLinks_tac := repeat split; keeps_tac.

Lemma keepsLinks_cancelOpen : keepsLinks _cancelOpenTimer.
Proof. keepsLinks_tac. Qed.
Lemma keepsLinks_cancelClose : keepsLinks _cancelCloseTimer.
Proof. keepsLinks_tac. Qed.
Lemma keepsLinks_setActive v : keepsLinks (setActiveIndex v).
Proof. keepsLinks_tac. Qed.
Lemma keepsLinks_unmount : keepsLinks unmount.
Proof. keepsLinks_tac. Qed.
Lemma keepsLinks_attach : keepsLinks attach.
Proof. keepsLinks_tac. Qed.
Lemma keepsLinks_style s : keepsLinks (set_style s).
Proof. keepsLinks_tac. Qed.
Lemma keepsLinks_openTimer v : keepsLinks (set_openTimerID v).
Proof. keepsLinks_tac. Qed.
Lemma keepsLinks_closeTimer v : keepsLinks (set_closeTimerID v).
Proof. keepsLinks_tac. Qed.
Lemma keepsLinks_onUpdateRequest : keepsLinks onUpdateRequest.
Proof. keepsLinks_tac. Qed.
Lemma keepsLinks_first : keepsLinks activateFirstSelectable.
Proof. keepsLinks_tac. Qed.
Lemma keepsLinks_next : keepsLinks activateNextSelectable.
Proof. keepsLinks_tac. Qed.
Lemma keepsLinks_prev : keepsLinks activatePrevSelectable.
Proof. keepsLinks_tac. Qed.
Lemma keepsLinks_mnemonic c : keepsLinks (activateNextMnemonic c).
Proof. keepsLinks_tac. Qed.
Lemma keepsLinks_insert i item : keepsLinks (insertedAt i item).
Proof. repeat split; intros x; reflexivity. Qed.
Lemma keepsLinks_remove i : keepsLinks (removedAt i).
Proof. repeat split; intros x; reflexivity. Qed.
Lemma keepsLinks_clear : keepsLinks cleared.
Proof. repeat split; intros x; reflexivity. Qed.

Create HintDb links.
#[export] Hint Resolve keepsLinks_cancelOpen keepsLinks_cancelClose
  keepsLinks_setActive keepsLinks_unmount keepsLinks_attach keepsLinks_style
  keepsLinks_openTimer keepsLinks_closeTimer keepsLinks_onUpdateRequest
  keepsLinks_first keepsLinks_next keepsLinks_prev keepsLinks_mnemonic
  keepsLinks_insert keepsLinks_remove keepsLinks_clear : links.

(** A write of the value a fresh menu has, as seen from every menu. *)
Lemma field_modify_set {A} (g : Menu -> A) v w m f k :
  (∀ x, g (f x) = v) -> g (newMenu MenuItemRenderer.instance) = v ->
  g (menu (modify m f w) k) = if decide (k = m) then v else g (menu w k).
Proof.
  intros Hf Hnew. case_decide as Hk.
  - subst. by apply field_modify_reset.
  - by rewrite menu_modify_ne.
Qed.

(** *** The links after each part of [onCloseRequest] *)

Lemma closeHead_sameLinks w m : sameLinks w (closeHead w m).
Proof.
  unfold closeHead.
  eapply sameLinks_trans; [|apply sameLinks_modify, keepsLinks_setActive].
  eapply sameLinks_trans;
    [apply sameLinks_modify, keepsLinks_cancelOpen
    |apply sameLinks_modify, keepsLinks_cancelClose].
Qed.

Lemma unlinkChild_links w m c k :
  childOf (unlinkChild w m c) k = (if decide (k = m) then None else childOf w k) ∧
  indexOf (unlinkChild w m c) k = (if decide (k = m) then -1 else indexOf w k) ∧
  parentOf (unlinkChild w m c) k = (if decide (k = c) then None else parentOf w k).
Proof.
  unfold unlinkChild, childOf, indexOf, parentOf. repeat split.
  - rewrite (field_modify_keep _childMenu) by keeps_tac.
    by apply field_modify_set.
  - rewrite (field_modify_keep _childIndex) by keeps_tac.
    by apply field_modify_set.
  - rewrite (field_modify_set _parentMenu None) by done.
    case_decide; [done|]. by rewrite (field_modify_keep _parentMenu) by keeps_tac.
Qed.

Lemma unlinkChild_linked w m c :
  linked w -> childOf w m = Some c -> linked (unlinkChild w m c).
Proof.
  intros [Hd Hu Hi] Hmc.
  pose proof (unlinkChild_links w m c) as HL.
  split.
  - intros k c'. destruct (HL k) as (-> & _ & _), (HL c') as (_ & _ & ->).
    repeat case_decide; subst; try done.
    + intros Hk. apply Hd in Hk. apply Hd in Hmc. congruence.
    + apply Hd.
  - intros c' p. destruct (HL c') as (_ & _ & ->), (HL p) as (-> & _ & _).
    repeat case_decide; subst; try done.
    + intros Hp. apply Hu in Hp. congruence.
    + apply Hu.
  - intros k. destruct (HL k) as (-> & -> & _). case_decide; [done|]. apply Hi.
Qed.

Lemma closeTail_links w m k :
  childOf (closeTail w m) k =
    (if decide (parentOf w m = Some k) then None else childOf w k) ∧
  indexOf (closeTail w m) k =
    (if decide (parentOf w m = Some k) then -1 else indexOf w k) ∧
  parentOf (closeTail w m) k = (if decide (k = m) then None else parentOf w k).
Proof.
  unfold closeTail.
  set (w1 := match _parentMenu (menu w m) with Some _ => _ | None => _ end).
  assert (H1 : childOf w1 k =
                 (if decide (parentOf w m = Some k) then None else childOf w k) ∧
               indexOf w1 k =
                 (if decide (parentOf w m = Some k) then -1 else indexOf w k) ∧
               parentOf w1 k = (if decide (k = m) then None else parentOf w k)).
  { unfold w1, childOf, indexOf, parentOf.
    destruct (_parentMenu (menu w m)) as [p|] eqn:Hp.
    - repeat split.
      + rewrite (field_modify_set _childMenu None) by done.
        repeat case_decide; simplify_eq; try done.
        by rewrite !(field_modify_keep _childMenu) by keeps_tac.
      + rewrite (field_modify_set _childIndex (-1)) by done.
        repeat case_decide; simplify_eq; try done.
        by rewrite !(field_modify_keep _childIndex) by keeps_tac.
      + rewrite !(field_modify_keep _parentMenu) by keeps_tac.
        by apply field_modify_set.
    - repeat split; try (by rewrite decide_False).
      case_decide; [by subst|done]. }
  assert (H2 : sameLinks w1 (emit (closed m) (modify m unmount w1))).
  { eapply sameLinks_trans;
      [apply (sameLinks_modify w1 m unmount), keepsLinks_unmount|].
    by apply sameLinks_same. }
  destruct H1 as (E1 & E2 & E3).
  repeat case_match; try done;
    destruct (H2 k) as (-> & -> & ->); done.
Qed.

Lemma closeTail_linked w m : linked w -> linked (closeTail w m).
Proof.
  intros [Hd Hu Hi]. pose proof (closeTail_links w m) as HL.
  split.
  - intros k c'. destruct (HL k) as (-> & _ & _), (HL c') as (_ & _ & ->).
    repeat case_decide; subst; try done.
    + intros Hk. apply Hd in Hk. congruence.
    + apply Hd.
  - intros c' p. destruct (HL c') as (_ & _ & ->), (HL p) as (-> & _ & _).
    repeat case_decide; subst; try done.
    + intros Hp. match goal with H : parentOf w m = Some p |- _ =>
        apply Hu in H end. apply Hu in Hp. congruence.
    + apply Hu.
  - intros k. destruct (HL k) as (-> & -> & _). case_decide; [done|]. apply Hi.
Qed.

Lemma close_fuel_linked n : ∀ w m w',
  close_fuel n w m = Some w' -> linked w -> linked w'.
Proof.
  induction n as [|n IH]; intros w m w'; simpl; [discriminate|].
  intros Hclose Hw.
  pose proof (sameLinks_linked _ _ (closeHead_sameLinks w m) Hw) as H0.
  destruct (_childMenu (menu (closeHead w m) m)) as [c|] eqn:Hc;
    simpl in Hclose.
  - destruct (close_fuel n _ c) as [w1|] eqn:Hrec; [|discriminate].
    simpl in Hclose. simplify_eq. apply closeTail_linked.
    eapply IH; [apply Hrec|]. by apply unlinkChild_linked.
  - simplify_eq. by apply closeTail_linked.
Qed.

Lemma close_linked w m w' : close w m = Some w' -> linked w -> linked w'.
Proof. apply close_fuel_linked. Qed.

Lemma quieter_ranked r w w' : quieterWorld w w' -> ranked r w -> ranked r w'.
Proof.
  intros [Hq _] Hr m c Hmc. apply Hr. unfold childOf in *.
  destruct (Hq m) as ([Hn|He] & _); congruence.
Qed.

(** *** [close] on a child leaves the menus above it alone *)

Lemma unlinkChild_quieter w m c : quieterWorld w (unlinkChild w m c).
Proof.
  apply unlinkChild_rel.
  - apply quieterWorld_trans.
  - intros. apply quieterWorld_modify, quieter_unlinkChild.
  - intros. apply quieterWorld_modify, quieter_unlinkParent.
Qed.

Lemma closeTail_activeIndex w m k :
  _activeIndex (menu (closeTail w m) k) = _activeIndex (menu w k).
Proof.
  apply (closeTail_rel
    (λ a b, _activeIndex (menu b k) = _activeIndex (menu a k))); try done.
  - intros a b c H1 H2. congruence.
  - intros. apply field_modify_keep. keeps_tac.
  - intros. apply field_modify_keep. keeps_tac.
  - intros. apply field_modify_keep. keeps_tac.
  - intros. apply field_modify_keep. keeps_tac.
  - intros. apply field_modify_keep. keeps_tac.
Qed.

Lemma close_fuel_above r n : ∀ w c w',
  ranked r w -> close_fuel n w c = Some w' ->
  ∀ k, (r c < r k)%nat -> _activeIndex (menu w' k) = _activeIndex (menu w k).
Proof.
  induction n as [|n IH]; intros w c w' Hr; simpl; [discriminate|].
  intros Hclose k Hk.
  assert (Hne : k ≠ c) by (intros ->; lia).
  assert (H0 : _activeIndex (menu (closeHead w c) k) = _activeIndex (menu w k)).
  { unfold closeHead. by rewrite !menu_modify_ne. }
  pose proof (sameLinks_ranked r _ _ (closeHead_sameLinks w c) Hr) as Hr0.
  destruct (_childMenu (menu (closeHead w c) c)) as [c1|] eqn:Hc;
    simpl in Hclose.
  - destruct (close_fuel n _ c1) as [w1|] eqn:Hrec; [|discriminate].
    simpl in Hclose. simplify_eq.
    rewrite closeTail_activeIndex.
    rewrite (IH _ _ _ (quieter_ranked r _ _ (unlinkChild_quieter _ c c1) Hr0) Hrec).
    + rewrite <- H0. unfold unlinkChild.
      by rewrite !(field_modify_keep _activeIndex) by keeps_tac.
    + specialize (Hr0 c c1 Hc). lia.
  - simplify_eq. by rewrite closeTail_activeIndex.
Qed.

Lemma closeChildMenu_quieter w m w1 :
  _closeChildMenu w m = Some w1 -> quieterWorld w w1.
Proof.
  unfold _closeChildMenu. destruct (_childMenu (menu w m)) as [c|].
  - intros Hc. eapply quieterWorld_trans; [apply unlinkChild_quieter|].
    by eapply close_fuel_quieter.
  - intros [= ->]. apply quieterWorld_refl.
Qed.

Lemma closeChildMenu_linked w m w1 :
  _closeChildMenu w m = Some w1 -> linked w -> linked w1.
Proof.
  unfold _closeChildMenu. destruct (_childMenu (menu w m)) as [c|] eqn:Hc.
  - intros Hclose Hw. eapply close_linked; [apply Hclose|].
    by apply unlinkChild_linked.
  - by intros [= ->].
Qed.

Lemma closeChildMenu_unlinks w m w1 :
  _closeChildMenu w m = Some w1 -> childOf w1 m = None.
Proof.
  unfold _closeChildMenu. destruct (_childMenu (menu w m)) as [c|] eqn:Hc.
  - intros Hclose. apply close_fuel_quieter in Hclose as [Hq _].
    destruct (Hq m) as ([Hn|He] & _); [done|].
    unfold childOf. rewrite He.
    destruct (unlinkChild_links w m c m) as (E & _). unfold childOf in E.
    rewrite E. by rewrite decide_True.
  - by intros [= <-].
Qed.

Lemma closeChildMenu_activeIndex r w m w1 :
  ranked r w -> _closeChildMenu w m = Some w1 ->
  _activeIndex (menu w1 m) = _activeIndex (menu w m).
Proof.
  unfold _closeChildMenu. intros Hr.
  destruct (_childMenu (menu w m)) as [c|] eqn:Hc; [|by intros [= ->]].
  intros Hclose.
  rewrite (close_fuel_above r _ _ _ _
             (quieter_ranked r _ _ (unlinkChild_quieter w m c) Hr) Hclose).
  - unfold unlinkChild. by rewrite !(field_modify_keep _activeIndex) by keeps_tac.
  - by apply Hr.
Qed.

(** *** Opening a child *)

Lemma field_modify_store {A} (g : Menu -> A) w m f k :
  (m < length (menus w))%nat ->
  g (menu (modify m f w) k) =
  if decide (k = m) then g (f (menu w m)) else g (menu w k).
Proof.
  intros Hm. case_decide as Hk.
  - subst. by rewrite menu_modify_eq.
  - by rewrite menu_modify_ne.
Qed.

Lemma prepareOpen_sameLinks dom m h w : sameLinks w (prepareOpen dom m h w).
Proof.
  unfold prepareOpen.
  assert (H3 : sameLinks w (modify m attach (modify m (set_style
                 (mkStyle None None None None true (Some h)))
                 (modify m onUpdateRequest w)))).
  { eapply sameLinks_trans; [|apply sameLinks_modify, keepsLinks_attach].
    eapply sameLinks_trans; [|apply sameLinks_modify, keepsLinks_style].
    apply sameLinks_modify, keepsLinks_onUpdateRequest. }
  case_match; [|done].
  eapply sameLinks_trans; [apply H3|]. apply sameLinks_modify. keepsLinks_tac.
Qed.

Lemma place_sameLinks m x y w : sameLinks w (place m x y w).
Proof. unfold place. apply sameLinks_modify. keepsLinks_tac. Qed.

Lemma openSubmenu_sameLinks dom w m itemNode :
  sameLinks w (after (openSubmenu dom w m itemNode)).
Proof.
  unfold openSubmenu. case_match. destruct itemNode as [[owner i]|]; simpl.
  - eapply sameLinks_trans; [apply prepareOpen_sameLinks | apply place_sameLinks].
  - apply prepareOpen_sameLinks.
Qed.

Lemma openRootMenu_sameLinks dom w m x y fx fy :
  sameLinks w (openRootMenu dom w m x y fx fy).
Proof.
  unfold openRootMenu. case_match.
  eapply sameLinks_trans; [apply prepareOpen_sameLinks | apply place_sameLinks].
Qed.

Lemma sameLinks_wellLinked w w' : sameLinks w w' -> wellLinked w -> wellLinked w'.
Proof.
  intros Hs [Hl [r Hr]]. split; [by eapply sameLinks_linked|].
  exists r. by eapply sameLinks_ranked.
Qed.

Lemma closeChildMenu_wellLinked w m w1 :
  _closeChildMenu w m = Some w1 -> wellLinked w -> wellLinked w1.
Proof.
  intros Hc [Hl [r Hr]]. split; [by eapply closeChildMenu_linked|].
  exists r. eapply quieter_ranked; [|apply Hr]. by eapply closeChildMenu_quieter.
Qed.

Lemma close_wellLinked w m w1 : close w m = Some w1 -> wellLinked w -> wellLinked w1.
Proof.
  intros Hc [Hl [r Hr]]. split; [by eapply close_linked|].
  exists r. eapply quieter_ranked; [|apply Hr]. by eapply close_fuel_quieter.
Qed.

Lemma activeItem_Some x item :
  activeItem x = Some item ->
  _activeIndex x ≠ -1 ∧ item ∈ _items x.
Proof.
  unfold activeItem. destruct (_activeIndex x =? -1) eqn:E; simpl; [discriminate|].
  intros Hat. split; [lia|].
  unfold at_ in Hat. destruct (_activeIndex x <? 0); [discriminate|].
  by eapply list_elem_of_lookup_2.
Qed.

(** The two writes of [_openChildMenu] that make the link, from a store
    in which [m] has no child and [sub] is linked to nothing. *)
Lemma link_wellLinked w m sub :
  wellLinked w ->
  (m < length (menus w))%nat -> (sub < length (menus w))%nat -> sub ≠ m ->
  _activeIndex (menu w m) ≠ -1 ->
  childOf w m = None -> childOf w sub = None -> parentOf w sub = None ->
  wellLinked
    (modify sub (set_parentMenu (Some m))
       (modify m (λ x, set_childLink (_activeIndex x) (Some sub) x) w)).
Proof.
  intros [[Hd Hu Hi] [r Hr]] Hm Hsub Hne Hact Hmc Hsc Hsp.
  set (w1 := modify m _ w).
  set (w2 := modify sub _ w1).
  assert (Hlen : (sub < length (menus w1))%nat) by (unfold w1; by rewrite length_modify).
  assert (HC : ∀ k, childOf w2 k = if decide (k = m) then Some sub else childOf w k).
  { intros k. unfold childOf, w2.
    rewrite (field_modify_keep _childMenu) by keeps_tac.
    unfold w1. by rewrite (field_modify_store _childMenu) by done. }
  assert (HI : ∀ k, indexOf w2 k =
                 if decide (k = m) then _activeIndex (menu w m) else indexOf w k).
  { intros k. unfold indexOf, w2.
    rewrite (field_modify_keep _childIndex) by keeps_tac.
    unfold w1. by rewrite (field_modify_store _childIndex) by done. }
  assert (HP : ∀ k, parentOf w2 k = if decide (k = sub) then Some m else parentOf w k).
  { intros k. unfold parentOf, w2.
    rewrite (field_modify_store _parentMenu) by done.
    case_decide; [done|]. unfold w1.
    by rewrite (field_modify_keep _parentMenu) by keeps_tac. }
  split; [split|].
  - intros k c. rewrite HC, HP. intros Hk.
    repeat case_decide; subst; simplify_eq; try done.
    + apply Hd in Hk. congruence.
    + by apply Hd.
  - intros c p. rewrite HC, HP. intros Hp.
    repeat case_decide; subst; simplify_eq; try done.
    + apply Hu in Hp. congruence.
    + by apply Hu.
  - intros k. rewrite HC, HI. case_decide; subst; [|apply Hi].
    split; [discriminate | done].
  - exists (λ k, if decide (k = sub) then 0%nat else S (r k)).
    intros k c. rewrite HC. intros Hk.
    repeat case_decide; subst; simplify_eq; try lia;
      first [ by (pose proof (Hr _ _ Hk); lia)
            | by (apply Hd in Hk; congruence) ].
Qed.

(** The child that the two writes leave, whatever [openSubmenu] does
    after them. *)
Lemma openSubmenu_child dom w m sub itemNode :
  (m < length (menus w))%nat ->
  childOf
    (after (openSubmenu dom
              (modify sub (set_parentMenu (Some m))
                 (modify m (λ x, set_childLink (_activeIndex x) (Some sub) x) w))
              sub itemNode)) m = Some sub.
Proof.
  intros Hm.
  destruct (openSubmenu_sameLinks dom
              (modify sub (set_parentMenu (Some m))
                 (modify m (λ x, set_childLink (_activeIndex x) (Some sub) x) w))
              sub itemNode m) as (-> & _).
  unfold childOf. rewrite (field_modify_keep _childMenu) by keeps_tac.
  by rewrite menu_modify_eq.
Qed.

Lemma openChildMenu_wellLinked dom w m o :
  wellLinked w -> opensUnlinked w (after o) ->
  _openChildMenu dom w m = Some o -> wellLinked (after o).
Proof.
  intros Hw Hguard. unfold _openChildMenu.
  destruct (activeItem (menu w m)) as [item|] eqn:Hact;
    [|intros; outcome_inv; by eapply closeChildMenu_wellLinked].
  destruct (type item) eqn:Hty;
    try (intros; outcome_inv; by eapply closeChildMenu_wellLinked).
  destruct (item_submenu item) as [sub|] eqn:Hsub;
    [|intros; outcome_inv; by eapply closeChildMenu_wellLinked].
  case_bool_decide as Hcur; [by intros [= <-]|].
  destruct (_closeChildMenu w m) as [w1|] eqn:Hc; [|discriminate].
  simpl. intros [= <-].
  eapply sameLinks_wellLinked; [apply openSubmenu_sameLinks|].
  destruct (activeItem_Some _ _ Hact) as [Hai Hin].
  pose proof Hw as [Hl [r Hr]].
  pose proof (closeChildMenu_quieter _ _ _ Hc) as [Hq [Hlen _]].
  assert (Hm : (m < length (menus w))%nat).
  { apply in_store. intros Heq. rewrite Heq in Hact. discriminate. }
  destruct (Hguard m sub) as (Hne & Hstore & Hsc & Hsp); [|done|].
  { apply openSubmenu_child. lia. }
  apply link_wellLinked; try lia; try done.
  - by eapply closeChildMenu_wellLinked.
  - by rewrite (closeChildMenu_activeIndex r _ _ _ Hr Hc).
  - by eapply closeChildMenu_unlinks.
  - destruct (Hq sub) as ([Hn|He] & _); [done|]. unfold childOf in *. congruence.
  - destruct (Hq sub) as (_ & _ & [Hn|He] & _); [done|].
    unfold parentOf in *. congruence.
Qed.

Lemma opensUnlinkedb_true w w' : opensUnlinkedb w w' = true -> opensUnlinked w w'.
Proof.
  unfold opensUnlinkedb. rewrite forallb_forall.
  intros Hall m c Hc Hnew.
  assert (Hm : (m < length (menus w'))%nat).
  { apply in_store. intros Heq. unfold childOf in Hc. by rewrite Heq in Hc. }
  assert (Hin : m ∈ seq 0 (length (menus w'))) by (apply elem_of_seq; lia).
  specialize (Hall m (proj1 (list_elem_of_In _ _) Hin)). simpl in Hall.
  rewrite Hc in Hall.
  apply orb_true_iff in Hall as [H|H].
  - by apply bool_decide_eq_true in H.
  - repeat (apply andb_true_iff in H as [H ?]).
    repeat match goal with
           | H : bool_decide _ = true |- _ => apply bool_decide_eq_true in H
           end.
    done.
Qed.

Lemma sameShape_modify w m f : keepsLinks f -> sameShape w (modify m f w).
Proof. intros Hl. split; [by apply sameLinks_modify | apply length_modify]. Qed.

Lemma sameShape_trans a b c : sameShape a b -> sameShape b c -> sameShape a c.
Proof.
  intros (H1 & H3) (H4 & H6). split; [by eapply sameLinks_trans | congruence].
Qed.

(** The guard read from a later store with the same links. *)
Lemma opensUnlinked_sameShape w w1 w' :
  sameShape w w1 -> opensUnlinked w w' -> opensUnlinked w1 w'.
Proof.
  intros (Hl & Hn) Hguard m c Hc Hnew. unfold unlinked. rewrite Hn.
  destruct (Hl c) as (-> & -> & _).
  apply Hguard; [done|]. destruct (Hl m) as (<- & _). done.
Qed.

Lemma wellLinked_modify w m f :
  keepsLinks f -> wellLinked w -> wellLinked (modify m f w).
Proof. intros. eapply sameLinks_wellLinked; [by apply sameLinks_modify|done]. Qed.

Lemma wellLinked_same w w' : menus w' = menus w -> wellLinked w -> wellLinked w'.
Proof. intros. eapply sameLinks_wellLinked; [by apply sameLinks_same|done]. Qed.

Lemma wellLinked_initial rs : wellLinked (initial rs).
Proof.
  assert (H : ∀ k, menu (initial rs) k = newMenu (default MenuItemRenderer.instance (rs !! k))).
  { intros k. unfold menu, initial; simpl. rewrite list_lookup_fmap.
    by destruct (rs !! k). }
  split; [split|exists (λ _, 0%nat)]; unfold ranked, childOf, parentOf, indexOf;
    intros *; rewrite ?H; simpl; try done.
Qed.

Lemma triggerItem_wellLinked w m item w' :
  _triggerItem w m item = Some w' -> wellLinked w -> wellLinked w'.
Proof.
  unfold _triggerItem.
  destruct (triggerLoop _ w m item) as [[w1 root]|] eqn:Hloop; [|discriminate].
  simpl. intros Hclose Hw. eapply close_wellLinked; [apply Hclose|].
  eapply wellLinked_same; [|apply Hw]. by eapply triggerLoop_menus.
Qed.

Lemma cancelTimers_sameShape w m :
  sameShape w (modify m _cancelCloseTimer (modify m _cancelOpenTimer w)).
Proof.
  eapply sameShape_trans; apply sameShape_modify; auto with links.
Qed.

Lemma activateChild_sameLinks m w o :
  activateChild m w = Some o -> sameLinks w (after o).
Proof.
  unfold activateChild. case_match; intros [= <-]; simpl.
  - apply sameLinks_modify. auto with links.
  - apply sameLinks_refl.
Qed.

Lemma openThenActivate_wellLinked dom w m o :
  andThen (_openChildMenu dom w m) (activateChild m) = Some o ->
  wellLinked w -> opensUnlinked w (after o) -> wellLinked (after o).
Proof.
  intros Ho Hw Hguard.
  apply andThen_Some in Ho as [(w1 & Ho & ->)|(w1 & Ho & Hact)].
  - by eapply (openChildMenu_wellLinked _ _ _ (raised w1)).
  - pose proof (activateChild_sameLinks _ _ _ Hact) as Hs.
    eapply sameLinks_wellLinked; [apply Hs|].
    apply (openChildMenu_wellLinked dom w m (returned w1)); [done| |done].
    intros k c Hc Hnew. apply Hguard; [|done].
    destruct (Hs k) as (-> & _). done.
Qed.

Lemma evtMouseUp_wellLinked dom w m button hit o :
  _evtMouseUp dom w m button hit = Some o ->
  wellLinked w -> opensUnlinked w (after o) -> wellLinked (after o).
Proof.
  unfold _evtMouseUp. intros Hev Hw Hguard.
  destruct (negb (button =? 0)); [by simplify_eq|].
  assert (S1 : sameShape w (modify m (setActiveIndex hit) w)).
  { apply sameShape_modify; auto with links. }
  pose proof (sameLinks_wellLinked _ _ (proj1 S1) Hw) as H1.
  destruct (activeItem _) as [item|]; [|by simplify_eq].
  pose proof (sameShape_trans _ _ _ S1
                (cancelTimers_sameShape (modify m (setActiveIndex hit) w) m)) as S2.
  pose proof (sameLinks_wellLinked _ _ (proj1 S2) Hw) as H2.
  destruct (MenuItemType_eqb _ _).
  - eapply openChildMenu_wellLinked; [apply H2| |apply Hev].
    by eapply opensUnlinked_sameShape.
  - outcome_inv. by eapply triggerItem_wellLinked.
Qed.

Lemma evtKeyDown_wellLinked dom w m kc o :
  _evtKeyDown dom w m kc = Some o ->
  wellLinked w -> opensUnlinked w (after o) -> wellLinked (after o).
Proof.
  unfold _evtKeyDown. intros Hev Hw Hguard.
  pose proof (cancelTimers_sameShape w m) as S2.
  pose proof (sameLinks_wellLinked _ _ (proj1 S2) Hw) as H2.
  pose proof (opensUnlinked_sameShape _ _ _ S2 Hguard) as F2.
  repeat case_match; outcome_inv; simplify_eq; try done;
    try (by eapply triggerItem_wellLinked);
    try (by eapply close_wellLinked);
    try (by eapply openThenActivate_wellLinked);
    apply wellLinked_modify; auto with links.
Qed.

Lemma syncAncestors_wellLinked n : ∀ w cur w',
  syncAncestors n w cur = Some w' -> wellLinked w -> wellLinked w'.
Proof.
  induction n as [|n IH]; intros w cur w'; simpl; [discriminate|].
  destruct cur as [k|]; [|by intros [= ->]].
  intros Hs Hw. eapply IH; [apply Hs|].
  apply wellLinked_modify; [keepsLinks_tac|].
  repeat apply wellLinked_modify; auto with links.
Qed.

Lemma wellLinked_tick w : wellLinked w -> wellLinked (tick w).
Proof. by apply wellLinked_same. Qed.

Lemma startOpenTimer_wellLinked m w : wellLinked w -> wellLinked (_startOpenTimer m w).
Proof.
  intros. unfold _startOpenTimer. case_match; [|done].
  apply wellLinked_tick, wellLinked_modify; auto with links.
Qed.

Lemma startCloseTimer_wellLinked m w : wellLinked w -> wellLinked (_startCloseTimer m w).
Proof.
  intros. unfold _startCloseTimer. case_match; [|done].
  apply wellLinked_tick, wellLinked_modify; auto with links.
Qed.

Lemma evtMouseMove_wellLinked w m hit w' :
  _evtMouseMove w m hit = Some w' -> wellLinked w -> wellLinked w'.
Proof.
  unfold _evtMouseMove. intros Hev Hw.
  destruct (hit =? _); [by simplify_eq|].
  destruct (syncAncestors _ _ _) as [w1|] eqn:Hs; [|discriminate].
  simpl in Hev. apply syncAncestors_wellLinked in Hs.
  2: { apply wellLinked_modify; auto with links. }
  destruct (_ =? _) in Hev.
  { simplify_eq. repeat apply wellLinked_modify; auto with links. }
  set (w2 := if negb _ then _ else _) in Hev.
  assert (H1 : wellLinked w2).
  { unfold w2. destruct (negb _); [by apply startCloseTimer_wellLinked | done]. }
  assert (H2 : wellLinked (modify m _cancelOpenTimer w2))
    by (apply wellLinked_modify; auto with links).
  repeat case_match; simplify_eq; try done.
  by apply startOpenTimer_wellLinked.
Qed.

Lemma evtMouseLeave_wellLinked w m over :
  wellLinked w -> wellLinked (_evtMouseLeave w m over).
Proof.
  intros. unfold _evtMouseLeave. repeat case_match;
    try apply startCloseTimer_wellLinked;
    repeat apply wellLinked_modify; auto with links.
Qed.

Lemma closeIfAttached_wellLinked w m w' :
  closeIfAttached w m = Some w' -> wellLinked w -> wellLinked w'.
Proof.
  unfold closeIfAttached. case_match; [apply close_wellLinked | by intros [= ->]].
Qed.

Lemma exec_wellLinked dom op w w' :
  exec dom op w = Some w' -> opensUnlinked w w' -> wellLinked w -> wellLinked w'.
Proof.
  unfold exec.
  destruct op as [m v|m item|m i item|m i|m|m x y fx fy|m|m event|m|m|m];
    simpl; intros Hex Hrun Hw; outcome_inv; simplify_eq.
  - apply wellLinked_modify; auto with links.
  - unfold addItem, insertItem in Hex.
    destruct (closeIfAttached w m) as [w1|] eqn:Hc; [|discriminate].
    simpl in Hex. simplify_eq. apply wellLinked_modify; auto with links.
    by eapply closeIfAttached_wellLinked.
  - unfold insertItem in Hex.
    destruct (closeIfAttached w m) as [w1|] eqn:Hc; [|discriminate].
    simpl in Hex. simplify_eq. apply wellLinked_modify; auto with links.
    by eapply closeIfAttached_wellLinked.
  - unfold removeItem in Hex. case_match; [by simplify_eq|].
    destruct (closeIfAttached w m) as [w1|] eqn:Hc; [|discriminate].
    simpl in Hex. simplify_eq. apply wellLinked_modify; auto with links.
    by eapply closeIfAttached_wellLinked.
  - unfold clearItems in Hex.
    destruct (closeIfAttached w m) as [w1|] eqn:Hc; [|discriminate].
    simpl in Hex. simplify_eq. apply wellLinked_modify; auto with links.
    by eapply closeIfAttached_wellLinked.
  - unfold open. case_match; [done|].
    eapply sameLinks_wellLinked; [apply openRootMenu_sameLinks|done].
  - by eapply close_wellLinked.
  - destruct event; simpl in Hex; outcome_inv; simplify_eq; try done.
    + by eapply evtMouseUp_wellLinked.
    + by eapply evtMouseMove_wellLinked.
    + by apply evtMouseLeave_wellLinked.
    + by eapply evtKeyDown_wellLinked.
    + unfold _evtKeyPress. case_match; [done|].
      apply wellLinked_modify; auto with links.
    + unfold _evtMouseDown in Hex. case_match; [by simplify_eq|].
      destruct (pressInChain _ _ _ _) as [[|]|]; simpl in Hex; simplify_eq; [done|].
      by eapply close_wellLinked.
  - unfold openTimerFires in Hex. case_match; [by simplify_eq|].
    assert (S1 : sameShape w (modify m (set_openTimerID 0) w)).
    { apply sameShape_modify; auto with links. }
    eapply openChildMenu_wellLinked; [|  |apply Hex].
    + by eapply sameLinks_wellLinked; [apply S1|].
    + by eapply opensUnlinked_sameShape.
  - unfold closeTimerFires in Hex. case_match; [by simplify_eq|].
    eapply closeChildMenu_wellLinked; [apply Hex|].
    apply wellLinked_modify; auto with links.
  - apply wellLinked_modify; auto with links.
Qed.

(** ** Reachable stores *)

Lemma reachable_wellLinked w : reachable w -> wellLinked w.
Proof.
  induction 1 as [rs|w dom op w' _ IH Hrun Hex].
  - apply wellLinked_initial.
  - by eapply exec_wellLinked.
Qed.

(** *** Every operation ends in a store with paired, acyclic links

    The loops that walk [_parentMenu] or [_childMenu] references visit
    menus of strictly growing, respectively falling, rank; the number of
    menus of the store that rank above (below) the current one bounds the
    steps left. *)

Lemma filter_length_lt {A} (P Q : A -> Prop)
    `{!∀ x, Decision (P x)} `{!∀ x, Decision (Q x)} (l : list A) (x : A) :
  (∀ y, P y -> Q y) -> x ∈ l -> Q x -> ¬ P x ->
  (length (filter P l) < length (filter Q l))%nat.
Proof.
  intros HPQ Hin HQ HP.
  assert (Hle : ∀ l', (length (filter P l') <= length (filter Q l'))%nat).
  { induction l' as [|y l' IH]; [done|].
    rewrite !filter_cons. repeat case_decide; simpl; try lia.
    exfalso; auto. }
  induction l as [|y l IH]; [by apply elem_of_nil in Hin|].
  rewrite !filter_cons. apply elem_of_cons in Hin as [<-|Hin].
  - rewrite decide_False, decide_True by done. simpl.
    specialize (Hle l). lia.
  - specialize (IH Hin). repeat case_decide; simpl; try lia.
    exfalso; auto.
Qed.

Lemma above_parent r w k p :
  linked w -> ranked r w -> parentOf w k = Some p ->
  (above r w p < above r w k)%nat.
Proof.
  intros Hl Hr Hp. apply (link_up _ Hl) in Hp.
  pose proof (Hr _ _ Hp) as Hlt.
  assert (Hin : (p < length (menus w))%nat).
  { apply in_store. intros Heq. unfold childOf in Hp. by rewrite Heq in Hp. }
  unfold above. apply (filter_length_lt _ _ _ p); try lia.
  apply elem_of_seq. lia.
Qed.

Lemma below_child r w k c :
  linked w -> ranked r w -> childOf w k = Some c ->
  (below r w c < below r w k)%nat.
Proof.
  intros Hl Hr Hc. pose proof (Hr _ _ Hc) as Hlt.
  apply (link_down _ Hl) in Hc.
  assert (Hin : (c < length (menus w))%nat).
  { apply in_store. intros Heq. unfold parentOf in Hc. by rewrite Heq in Hc. }
  unfold below. apply (filter_length_lt _ _ _ c); try lia.
  apply elem_of_seq. lia.
Qed.

Lemma above_le r w k : (above r w k <= length (menus w))%nat.
Proof.
  unfold above. etrans; [apply length_filter|]. by rewrite length_seq.
Qed.

Lemma below_le r w k : (below r w k <= length (menus w))%nat.
Proof.
  unfold below. etrans; [apply length_filter|]. by rewrite length_seq.
Qed.

Lemma above_sameLinks r w w' k :
  length (menus w') = length (menus w) -> above r w' k = above r w k.
Proof. unfold above. by intros ->. Qed.

Lemma triggerLoop_returns r item fuel : ∀ w k,
  linked w -> ranked r w -> (above r w k < fuel)%nat ->
  is_Some (triggerLoop fuel w k item).
Proof.
  induction fuel as [|fuel IH]; intros w k Hl Hr Hfuel; [lia|]. simpl.
  rewrite menu_emit.
  destruct (_parentMenu (menu w k)) as [p|] eqn:Hp; [|by eexists].
  apply IH.
  - eapply sameLinks_linked; [|apply Hl]. by apply sameLinks_same.
  - eapply sameLinks_ranked; [|apply Hr]. by apply sameLinks_same.
  - pose proof (above_parent r w k p Hl Hr Hp). unfold above in *. simpl. lia.
Qed.

Lemma triggerItem_returns w m item :
  wellLinked w -> is_Some (_triggerItem w m item).
Proof.
  intros [Hl [r Hr]]. unfold _triggerItem.
  destruct (triggerLoop_returns r item (fuelOf w) w m Hl Hr) as [[w1 root] Hloop].
  { pose proof (above_le r w m). unfold fuelOf. lia. }
  rewrite Hloop. simpl. apply close_returns.
Qed.

Lemma syncAncestors_returns r fuel : ∀ w cur,
  linked w -> ranked r w ->
  (match cur with Some k => S (above r w k) | None => 0 end < fuel)%nat ->
  is_Some (syncAncestors fuel w cur).
Proof.
  induction fuel as [|fuel IH]; intros w cur Hl Hr Hfuel; [lia|]. simpl.
  destruct cur as [k|]; [|by eexists].
  set (w1 := modify k _ (modify k _cancelCloseTimer (modify k _cancelOpenTimer w))).
  assert (Hs : sameLinks w w1).
  { unfold w1. eapply sameLinks_trans; [|apply sameLinks_modify; keepsLinks_tac].
    eapply sameLinks_trans;
      [apply sameLinks_modify, keepsLinks_cancelOpen
      |apply sameLinks_modify, keepsLinks_cancelClose]. }
  assert (Hlen : length (menus w1) = length (menus w)).
  { unfold w1. by rewrite !length_modify. }
  apply IH.
  - by eapply sameLinks_linked.
  - by eapply sameLinks_ranked.
  - destruct (_parentMenu (menu w1 k)) as [p|] eqn:Hp; [|lia].
    destruct (Hs k) as (_ & Hpk & _). unfold parentOf in Hpk. rewrite Hp in Hpk.
    pose proof (above_parent r w k p Hl Hr (eq_sym Hpk)).
    rewrite (above_sameLinks r w w1) by done. lia.
Qed.

Lemma pressInChain_returns r hitTest fuel : ∀ w cur,
  linked w -> ranked r w ->
  (match cur with Some k => S (below r w k) | None => 0 end < fuel)%nat ->
  is_Some (pressInChain fuel w cur hitTest).
Proof.
  induction fuel as [|fuel IH]; intros w cur Hl Hr Hfuel; [lia|]. simpl.
  destruct cur as [k|]; [|by eexists].
  destruct (hitTest k); [by eexists|].
  apply IH; try done.
  destruct (_childMenu (menu w k)) as [c|] eqn:Hc; [|lia].
  pose proof (below_child r w k c Hl Hr Hc). lia.
Qed.

Lemma closeIfAttached_insert_returns w m index item :
  is_Some (insertItem w m index item).
Proof.
  unfold insertItem. destruct (closeIfAttached_returns w m) as [w1 ->]; by eexists.
Qed.

Lemma closeChildMenu_returns w m : is_Some (_closeChildMenu w m).
Proof.
  unfold _closeChildMenu. case_match; [apply close_returns | by eexists].
Qed.

(** [_openChildMenu] ends, by a return or by the [TypeError]. *)
Lemma openChildMenu_ends dom w m : is_Some (_openChildMenu dom w m).
Proof.
  unfold _openChildMenu.
  repeat case_match; try apply fmap_is_Some, closeChildMenu_returns;
    try (by eexists).
Qed.

Lemma openThenActivate_ends dom w m :
  is_Some (andThen (_openChildMenu dom w m) (activateChild m)).
Proof.
  destruct (openChildMenu_ends dom w m) as [[w1|w1] ->]; simpl; [|by eexists].
  unfold activateChild. case_match; by eexists.
Qed.

Lemma handleEvent_ends dom w m event :
  wellLinked w -> is_Some (handleEvent dom w m event).
Proof.
  intros Hw. destruct event as [button hit|hit|over| |kc|c|hitTest]; simpl;
    try (by eexists).
  - unfold _evtMouseUp. destruct (negb (button =? 0)); [by eexists|].
    destruct (activeItem _) as [item|]; [|by eexists].
    destruct (MenuItemType_eqb _ _); [apply openChildMenu_ends|].
    apply fmap_is_Some, triggerItem_returns.
    repeat apply wellLinked_modify; auto with links.
  - apply fmap_is_Some.
    unfold _evtMouseMove. destruct (hit =? _); [by eexists|].
    set (w1 := modify m (setActiveIndex hit) w).
    assert (H1 : wellLinked w1) by (apply wellLinked_modify; auto with links).
    destruct H1 as [Hl [r Hr]].
    destruct (syncAncestors_returns r (fuelOf w1) w1 (_parentMenu (menu w1 m)) Hl Hr)
      as [w2 ->].
    { destruct (_parentMenu (menu w1 m)) as [p|]; unfold fuelOf; [|lia].
      pose proof (above_le r w1 p). lia. }
    simpl. repeat case_match; by eexists.
  - unfold _evtKeyDown.
    repeat case_match;
      first [ by eexists
            | apply fmap_is_Some, close_returns
            | apply openThenActivate_ends
            | apply fmap_is_Some, triggerItem_returns;
              repeat apply wellLinked_modify; auto with links ].
  - apply fmap_is_Some. unfold _evtMouseDown. case_match; [by eexists|].
    destruct Hw as [Hl [r Hr]].
    destruct (pressInChain_returns r hitTest (fuelOf w) w (Some m) Hl Hr)
      as [inside ->].
    { pose proof (below_le r w m). unfold fuelOf. lia. }
    simpl. destruct inside; [by eexists | apply close_returns].
Qed.

(** In a store with paired, acyclic links every operation ends. *)
Lemma exec_ends dom op w : wellLinked w -> is_Some (exec dom op w).
Proof.
  intros Hw. unfold exec. apply fmap_is_Some.
  destruct op as [m v|m item|m i item|m i|m|m x y fx fy|m|m event|m|m|m];
    simpl; try (by eexists).
  - apply fmap_is_Some, closeIfAttached_insert_returns.
  - apply fmap_is_Some, closeIfAttached_insert_returns.
  - apply fmap_is_Some. unfold removeItem. case_match; [by eexists|].
    destruct (closeIfAttached_returns w m) as [w1 ->]; by eexists.
  - apply fmap_is_Some. unfold clearItems.
    destruct (closeIfAttached_returns w m) as [w1 ->]; by eexists.
  - apply fmap_is_Some, close_returns.
  - by apply handleEvent_ends.
  - unfold openTimerFires. case_match; [by eexists | apply openChildMenu_ends].
  - apply fmap_is_Some.
    unfold closeTimerFires. case_match; [by eexists | apply closeChildMenu_returns].
Qed.

Lemma reachable_exec_ends w dom op : reachable w -> is_Some (exec dom op w).
Proof. intros Hw. by apply exec_ends, reachable_wellLinked. Qed.



(** ** Triggering an item in an open chain *)

Lemma adjacent_same w w' l : menus w' = menus w -> adjacent w l -> adjacent w' l.
Proof.
  intros Heq. induction l as [|p l IH]; simpl; [done|].
  unfold childOf, parentOf, menu. rewrite Heq. intros [H1 H2]. split; auto.
Qed.

Lemma adjacent_suffix w l1 l2 : adjacent w (l1 ++ l2) -> adjacent w l2.
Proof. induction l1 as [|p l1 IH]; simpl; [done|]. intros [_ H]. auto. Qed.

Lemma adjacent_parent w l1 p c l2 :
  adjacent w (l1 ++ p :: c :: l2) -> parentOf w c = Some p.
Proof. intros H. apply adjacent_suffix in H. simpl in H. tauto. Qed.

(** The [while (menu)] loop of [_triggerItem], started at [m] below the
    menus [up] (root first): a [triggered] signal at [m] and then at each
    menu of [up], nearest first; the loop ends at the root. *)
Lemma triggerLoop_up item : ∀ up m down w fuel,
  adjacent w (up ++ m :: down) ->
  parentOf w (hd m up) = None ->
  (length up < fuel)%nat ->
  triggerLoop fuel w m item =
    Some (emitAll (map (λ k, triggered k item) (m :: reverse up)) w, hd m up).
Proof.
  induction up as [|p up IH] using rev_ind; intros m down w fuel Hadj Hroot Hfuel.
  - destruct fuel as [|fuel]; [simpl in Hfuel; lia|]. simpl in *.
    unfold parentOf in Hroot. rewrite menu_emit, Hroot. done.
  - destruct fuel as [|fuel]; [lia|].
    rewrite length_app in Hfuel. simpl in Hfuel.
    rewrite <- app_assoc in Hadj. simpl in Hadj.
    pose proof (adjacent_parent _ _ _ _ _ Hadj) as Hp.
    simpl. unfold parentOf in Hp. rewrite menu_emit, Hp.
    rewrite (IH p (m :: down)).
    + rewrite reverse_app. simpl.
      assert (Hhd : hd m (up ++ [p]) = hd p up) by (by destruct up).
      rewrite Hhd. unfold emitAll, emit. simpl.
      by rewrite <- app_assoc.
    + by eapply adjacent_same; [|apply Hadj].
    + assert (Hhd : hd m (up ++ [p]) = hd p up) by (by destruct up).
      by rewrite <- Hhd.
    + lia.
Qed.

Lemma closeTail_root w c :
  parentOf w c = None -> displayed (menu w c) ->
  closeTail w c = emit (closed c) (modify c unmount w).
Proof.
  unfold closeTail, parentOf, displayed. intros -> [Hp|Ha].
  - by rewrite bool_decide_true.
  - rewrite Ha. by case_bool_decide.
Qed.

Lemma closeHead_other w c k : k ≠ c -> menu (closeHead w c) k = menu w k.
Proof. intros. unfold closeHead. by rewrite !menu_modify_ne. Qed.

Lemma closeHead_mount w c k :
  parent (menu (closeHead w c) k) = parent (menu w k) ∧
  isAttached (menu (closeHead w c) k) = isAttached (menu w k).
Proof.
  unfold closeHead. split.
  - by rewrite !(field_modify_keep parent) by keeps_tac.
  - by rewrite !(field_modify_keep isAttached) by keeps_tac.
Qed.

Lemma unlinkChild_mount w m c k :
  parent (menu (unlinkChild w m c) k) = parent (menu w k) ∧
  isAttached (menu (unlinkChild w m c) k) = isAttached (menu w k).
Proof.
  unfold unlinkChild. split.
  - by rewrite !(field_modify_keep parent) by keeps_tac.
  - by rewrite !(field_modify_keep isAttached) by keeps_tac.
Qed.

Lemma unlinkChild_other w m c k :
  k ≠ m -> k ≠ c -> menu (unlinkChild w m c) k = menu w k.
Proof. intros. unfold unlinkChild. by rewrite !menu_modify_ne. Qed.

Lemma adjacent_frame w w' l :
  (∀ k, k ∈ l -> childOf w' k = childOf w k) ->
  (∀ k, k ∈ tail l -> parentOf w' k = parentOf w k) ->
  adjacent w l -> adjacent w' l.
Proof.
  induction l as [|p l IH]; simpl; [done|].
  intros Hc Hp [H1 H2]. split.
  - rewrite Hc by apply list_elem_of_here.
    destruct l as [|c l]; [done|].
    rewrite Hp by apply list_elem_of_here. done.
  - apply IH; [| |done].
    + intros k Hk. apply Hc. by apply list_elem_of_further.
    + intros k Hk. apply Hp. destruct l; [by apply elem_of_nil in Hk|].
      by apply list_elem_of_further.
Qed.

(** [close()] on the root of an open chain: every menu of the chain emits
    one [closed] signal, the deepest first and the root last, and ends
    closed; the other menus of the store are untouched. *)
Lemma close_fuel_chain : ∀ l w c fuel,
  parentOf w c = None -> adjacent w (c :: l) -> NoDup (c :: l) ->
  Forall (λ k, displayed (menu w k)) (c :: l) ->
  (length l < fuel)%nat ->
  ∃ w', close_fuel fuel w c = Some w' ∧
        emitted w' = emitted w ++ map closed (reverse (c :: l)) ∧
        (∀ k, k ∈ c :: l -> shut (menu w' k)) ∧
        (∀ k, k ∉ c :: l -> menu w' k = menu w k).
Proof.
  induction l as [|c1 l IH]; intros w c fuel Hp Hadj Hnd Hdisp Hfuel;
    (destruct fuel as [|fuel]; [simpl in Hfuel; lia|]).
  - destruct Hadj as [Hc _].
    assert (Hclose : close_fuel (S fuel) w c =
                     Some (emit (closed c) (modify c unmount (closeHead w c)))).
    { simpl. destruct (closeHead_sameLinks w c c) as (E1 & E2 & _).
      unfold childOf, parentOf in *. rewrite E1, Hc. simpl.
      rewrite closeTail_root; [done|by unfold parentOf; rewrite E2|].
      apply Forall_cons in Hdisp as [Hd _].
      unfold displayed in *. by destruct (closeHead_mount w c c) as [-> ->]. }
    eexists. split; [exact Hclose|]. split; [done|]. split.
    + intros k Hk. apply list_elem_of_singleton in Hk as ->.
      by eapply close_fuel_shut.
    + intros k Hk. rewrite menu_emit, menu_modify_ne, closeHead_other; try done;
        intros ->; apply Hk, list_elem_of_here.
  - destruct Hadj as [[Hc Hp1] Hadj].
    apply NoDup_cons in Hnd as [Hnotin Hnd].
    apply Forall_cons in Hdisp as [Hdc Hdisp].
    assert (Hne : c1 ≠ c) by (intros ->; apply Hnotin, list_elem_of_here).
    set (w0 := closeHead w c).
    set (w1 := unlinkChild w0 c c1).
    assert (Hlinks1 : ∀ k, k ≠ c ->
              childOf w1 k = childOf w k ∧
              (k ≠ c1 -> parentOf w1 k = parentOf w k)).
    { intros k Hk. destruct (unlinkChild_links w0 c c1 k) as (E1 & _ & E3).
      destruct (closeHead_sameLinks w c k) as (F1 & F2 & _).
      fold w0 in F1, F2. fold w1 in E1, E3.
      rewrite E1, E3, !decide_False by done. split; [done|].
      intros Hk1. by rewrite decide_False. }
    destruct (IH w1 c1 fuel) as (w2 & Hrec & Hem & Hshut & Hframe).
    { destruct (unlinkChild_links w0 c c1 c1) as (_ & _ & E3). fold w1 in E3.
      by rewrite E3, decide_True. }
    { apply (adjacent_frame w); [| |done].
      - intros k Hk. apply Hlinks1. intros ->. by apply Hnotin.
      - intros k Hk. simpl in Hk. apply Hlinks1.
        + intros ->. apply Hnotin. by apply list_elem_of_further.
        + intros ->. apply NoDup_cons in Hnd as [Hn _]. by apply Hn. }
    { done. }
    { eapply Forall_impl; [apply Hdisp|]. intros k Hk. unfold displayed, w1 in *.
      destruct (unlinkChild_mount w0 c c1 k) as [-> ->]. unfold w0.
      by destruct (closeHead_mount w c k) as [-> ->]. }
    { simpl in Hfuel. lia. }
    assert (Hc2 : menu w2 c = menu w1 c) by (by apply Hframe).
    assert (Hclose : close_fuel (S fuel) w c =
                     Some (emit (closed c) (modify c unmount w2))).
    { simpl. fold w0.
      destruct (closeHead_sameLinks w c c) as (E1 & E2 & _). fold w0 in E1, E2.
      unfold childOf in E1, Hc. rewrite E1, Hc. fold w1. rewrite Hrec. simpl.
      rewrite closeTail_root; [done| |].
      - unfold parentOf. rewrite Hc2.
        destruct (unlinkChild_links w0 c c1 c) as (_ & _ & E3). fold w1 in E3.
        unfold parentOf in E3, E2, Hp. rewrite E3, decide_False by done.
        by rewrite E2.
      - unfold displayed in *. rewrite Hc2. unfold w1.
        destruct (unlinkChild_mount w0 c c1 c) as [-> ->]. unfold w0.
        by destruct (closeHead_mount w c c) as [-> ->]. }
    eexists. split; [exact Hclose|]. split; [|split].
    + simpl. rewrite Hem. rewrite (reverse_cons _ c), map_app. simpl.
      by rewrite <- app_assoc.
    + intros k Hk. apply elem_of_cons in Hk as [->|Hk].
      * by eapply close_fuel_shut.
      * rewrite menu_emit, menu_modify_ne; [by apply Hshut|].
        intros ->. by apply Hnotin.
    + intros k Hk.
      assert (k ≠ c) by (intros ->; apply Hk, list_elem_of_here).
      assert (k ∉ c1 :: l) by (intros ?; by apply Hk, list_elem_of_further).
      rewrite menu_emit, menu_modify_ne, Hframe by done.
      unfold w1, w0. rewrite unlinkChild_other, closeHead_other; try done.
      intros ->. by apply H0, list_elem_of_here.
Qed.

Lemma displayed_in_store w k : displayed (menu w k) -> (k < length (menus w))%nat.
Proof.
  intros Hd. apply in_store. intros Heq. rewrite Heq in Hd.
  destruct Hd as [Hd|Hd]; [by apply Hd | discriminate].
Qed.

Lemma chain_length w l :
  NoDup l -> Forall (λ k, displayed (menu w k)) l ->
  (length l <= length (menus w))%nat.
Proof.
  intros Hnd Hdisp.
  assert (Hseq : length (seq 0 (length (menus w))) = length (menus w))
    by apply length_seq.
  rewrite <- Hseq.
  apply submseteq_length, NoDup_submseteq; [done|].
  intros k Hk. apply elem_of_seq.
  rewrite Forall_forall in Hdisp. pose proof (displayed_in_store _ _ (Hdisp k Hk)).
  lia.
Qed.

Lemma openChain_transfer w w' l :
  sameLinks w w' ->
  (∀ k, parent (menu w' k) = parent (menu w k) ∧
        isAttached (menu w' k) = isAttached (menu w k)) ->
  openChain w l -> openChain w' l.
Proof.
  intros Hs Hm (Hroot & Hadj & Hnd & Hdisp). repeat split; try done.
  - destruct l as [|root l]; [done|]. by destruct (Hs root) as (_ & -> & _).
  - apply (adjacent_frame w); [| |done]; intros k _.
    + by destruct (Hs k) as (-> & _).
    + by destruct (Hs k) as (_ & -> & _).
  - eapply Forall_impl; [apply Hdisp|]. intros k Hk. unfold displayed in *.
    by destruct (Hm k) as [-> ->].
Qed.

Lemma triggerItem_cascade w up m down item :
  openChain w (up ++ m :: down) ->
  ∃ w', _triggerItem w m item = Some w' ∧ cascaded w w' up m down item.
Proof.
  intros (Hroot & Hadj & Hnd & Hdisp).
  pose proof (chain_length _ _ Hnd Hdisp) as Hlen.
  assert (Hchain : ∃ rest, up ++ m :: down = hd m up :: rest).
  { destruct up; simpl; eauto. }
  destruct Hchain as [rest Hchain].
  assert (Hroot' : parentOf w (hd m up) = None) by (by rewrite Hchain in Hroot).
  unfold _triggerItem.
  rewrite (triggerLoop_up item up m down w); [|done|done|].
  2: { rewrite length_app in Hlen. simpl in Hlen. unfold fuelOf. lia. }
  simpl. set (wT := emitAll _ w).
  destruct (close_fuel_chain rest wT (hd m up) (fuelOf wT))
    as (w' & Hclose & Hem & Hshut & _).
  - done.
  - rewrite <- Hchain. by apply (adjacent_same w).
  - by rewrite <- Hchain.
  - by rewrite <- Hchain.
  - rewrite Hchain in Hlen. simpl in Hlen. unfold fuelOf, wT, emitAll; simpl. lia.
  - exists w'. split; [exact Hclose|]. rewrite <- Hchain in Hem, Hshut.
    split; [|split; [|done]].
    + rewrite Hem. unfold wT, emitAll. simpl. by rewrite <- app_assoc.
    + rewrite Hchain. rewrite reverse_cons, map_app. simpl.
      exists (triggered m item :: map (λ k, triggered k item) (reverse up)
                ++ map closed (reverse rest)).
      split; [simpl; by rewrite <- app_assoc|].
      rewrite Hchain in Hnd. apply NoDup_cons in Hnd as [Hnotin _].
      intros Hin. apply elem_of_cons in Hin as [Hin|Hin]; [discriminate|].
      apply elem_of_app in Hin as [Hin|Hin].
      * apply list_elem_of_fmap in Hin as (k & Hk & _). discriminate.
      * apply list_elem_of_fmap in Hin as (k & [= <-] & Hk).
        by apply Hnotin, elem_of_reverse.
Qed.

Lemma cascaded_from w0 w w' up m down item :
  emitted w = emitted w0 -> cascaded w w' up m down item ->
  cascaded w0 w' up m down item.
Proof. unfold cascaded. by intros ->. Qed.

Lemma cancelTimers_openChain w m l :
  openChain w l ->
  openChain (modify m _cancelCloseTimer (modify m _cancelOpenTimer w)) l.
Proof.
  apply openChain_transfer; [apply (proj1 (cancelTimers_sameShape w m))|].
  intros k. split.
  - by rewrite !(field_modify_keep parent) by keeps_tac.
  - by rewrite !(field_modify_keep isAttached) by keeps_tac.
Qed.

(** C1.  In an open chain [up ++ m :: down] (root first), triggering
    [item] on menu [m], by [_triggerItem] itself, by the release of the
    left button over a selectable item that is not a submenu item, or by
    Enter on the deepest menu when such an item is active, returns and
    emits [triggered], carrying the item, on [m] and then on each ancestor
    up to the root, after which the chain is closed from the root: each
    of its menus emits [closed] once, the root last, and ends closed. *)
Theorem trigger_cascades (w : World) (up : list MenuId) (m : MenuId)
    (down : list MenuId) (item : MenuItem) :
  openChain w (up ++ m :: down) ->
  type item ≠ submenu ->
  (∃ w', _triggerItem w m item = Some w' ∧ cascaded w w' up m down item) ∧
  (∀ dom hit,
     at_ (_items (menu w m)) hit = Some item -> isSelectable item = true ->
     ∃ w', _evtMouseUp dom w m 0 hit = Some (returned w') ∧
           cascaded w w' up m down item) ∧
  (∀ dom,
     down = [] -> activeItem (menu w m) = Some item ->
     ∃ w', _evtKeyDown dom w m 13 = Some (returned w') ∧
           cascaded w w' up m down item).
Proof.
  intros Hchain Hty.
  assert (Hsub : MenuItemType_eqb (type item) submenu = false).
  { destruct (MenuItemType_eqb _ _) eqn:E; [|done].
    by apply MenuItemType_eqb_eq in E. }
  assert (Hm : (m < length (menus w))%nat).
  { destruct Hchain as (_ & _ & _ & Hdisp). rewrite Forall_forall in Hdisp.
    apply displayed_in_store, Hdisp, elem_of_app. right. apply list_elem_of_here. }
  split; [by apply triggerItem_cascade|]. split.
  - intros dom hit Hat Hsel. unfold _evtMouseUp. simpl.
    set (w1 := modify m (setActiveIndex hit) w).
    assert (Hact : activeItem (menu w1 m) = Some item).
    { unfold w1. rewrite menu_modify_eq by done. unfold activeItem.
      rewrite setActiveIndex_value, setActiveIndex_items.
      unfold coerceIndex, selectableAt. rewrite Hat, Hsel.
      pose proof (at_in_range _ _ _ Hat) as Hrange.
      destruct (hit =? -1) eqn:E; [lia | done]. }
    rewrite Hact, Hsub.
    destruct (triggerItem_cascade
                (modify m _cancelCloseTimer (modify m _cancelOpenTimer w1))
                up m down item) as (w' & Htr & Hcas).
    + apply cancelTimers_openChain. unfold w1.
      eapply openChain_transfer; [| |apply Hchain].
      * apply sameLinks_modify, keepsLinks_setActive.
      * intros k. split.
        -- by rewrite (field_modify_keep parent) by keeps_tac.
        -- by rewrite (field_modify_keep isAttached) by keeps_tac.
    + exists w'. split; [by rewrite Htr|]. by eapply cascaded_from; [|apply Hcas].
  - intros dom -> Hact. unfold _evtKeyDown.
    assert (Hleaf : _childMenu (menu w m) = None).
    { destruct Hchain as (_ & Hadj & _). apply adjacent_suffix in Hadj.
      simpl in Hadj. tauto. }
    rewrite Hleaf, bool_decide_false by (intros H; by apply H).
    simpl. rewrite Hact, Hsub. simpl.
    destruct (triggerItem_cascade
                (modify m _cancelCloseTimer (modify m _cancelOpenTimer w))
                up m [] item) as (w' & Htr & Hcas).
    + by apply cancelTimers_openChain.
    + exists w'. split; [by rewrite Htr|]. by eapply cascaded_from; [|apply Hcas].
Qed.

(** ** Closing a menu that is closed *)

(** [close()] on a menu that is not displayed and is linked to no menu
    does only what the head of [onCloseRequest] does. *)
Lemma close_of_hidden w m :
  ¬ displayed (menu w m) ->
  _childMenu (menu w m) = None -> _parentMenu (menu w m) = None ->
  close w m = Some (closeHead w m).
Proof.
  intros Hd Hch Hp. unfold close, fuelOf. cbn [close_fuel].
  destruct (closeHead_sameLinks w m m) as (E1 & E2 & _).
  destruct (closeHead_mount w m m) as [E3 E4].
  unfold childOf, parentOf in E1, E2. rewrite E1, Hch. simpl.
  unfold closeTail. rewrite E2, Hp, E3, E4.
  unfold displayed in Hd.
  rewrite bool_decide_eq_false_2 by tauto.
  destruct (isAttached (menu w m)); [|done]. exfalso. tauto.
Qed.

(** C3, as stated, fails in its general half: a menu that was never
    opened, and so is closed, has its one item selected through the
    [activeIndex] setter; [close()] on it emits nothing but resets the
    selection, so the state does not stay as it was. *)
Lemma close_resets_closed_menu :
  run selectRun oneMenu = Some selectedWorld ∧
  ¬ displayed (menu selectedWorld 0) ∧
  _childMenu (menu selectedWorld 0) = None ∧
  _parentMenu (menu selectedWorld 0) = None ∧
  _activeIndex (menu selectedWorld 0) = 0 ∧
  ∃ w', close selectedWorld 0 = Some w' ∧
        emitted w' = emitted selectedWorld ∧
        _activeIndex (menu w' 0) = -1 ∧ w' ≠ selectedWorld.
Proof.
  split; [vm_compute; reflexivity|].
  split; [intros [H|H]; vm_compute in H; [by apply H | discriminate]|].
  split; [reflexivity|]. split; [reflexivity|]. split; [reflexivity|].
  eexists. split; [vm_compute; reflexivity|].
  split; [reflexivity|]. split; [reflexivity|].
  intros H. apply (f_equal (λ w, _activeIndex (menu w 0))) in H.
  vm_compute in H. discriminate.
Qed.

(** C3, amended.  [close()] returns, and a second [close()] right after
    it returns the very store the first one left: the end state is the
    same and, the log of signals being part of the store, no [closed] is
    emitted.  [close()] on a menu that is in the state a [close()]
    leaves (nothing pending, nothing selected, no link, not displayed)
    leaves the whole store, log included, as it is.  On a menu that is
    not displayed and has no child and no parent menu, [close()] emits
    nothing and touches no other menu, but it is not a no-op: it cancels
    the timers of the menu and resets its selection to [-1]. *)
Theorem close_idempotent :
  (∀ w m, ∃ w1, close w m = Some w1 ∧ shut (menu w1 m) ∧ close w1 m = Some w1) ∧
  (∀ w m, shut (menu w m) -> close w m = Some w) ∧
  (∀ w m,
     ¬ displayed (menu w m) ->
     _childMenu (menu w m) = None -> _parentMenu (menu w m) = None ->
     ∃ w1, close w m = Some w1 ∧ emitted w1 = emitted w ∧
           (∀ k, k ≠ m -> menu w1 k = menu w k) ∧
           menu w1 m = setActiveIndex (-1)
                         (_cancelCloseTimer (_cancelOpenTimer (menu w m)))).
Proof.
  split; [|split].
  - intros w m. destruct (close_returns w m) as [w1 Hw1].
    exists w1. pose proof (close_fuel_shut _ _ _ _ Hw1) as Hshut.
    split; [done|]. split; [done|]. by apply close_of_shut.
  - intros w m Hshut. by apply close_of_shut.
  - intros w m Hd Hch Hp. exists (closeHead w m).
    split; [by apply close_of_hidden|]. split; [done|]. split.
    + intros k Hk. by apply closeHead_other.
    + unfold closeHead. destruct (decide (m < length (menus w))%nat).
      * by rewrite !menu_modify_eq by (rewrite ?length_modify; done).
      * do 3 rewrite (modify_outside w m) by lia.
        rewrite menu_outside by lia. reflexivity.
Qed.

(** ** Worked examples *)

Lemma guardedRun_reachable ops : ∀ w w',
  reachable w -> guardedRun ops w = Some w' -> reachable w'.
Proof.
  induction ops as [|[dom op] ops IH]; intros w w' Hw; simpl.
  - by intros [= <-].
  - destruct (exec dom op w) as [w1|] eqn:Hex; [|discriminate]. simpl.
    destruct (opensUnlinkedb w w1) eqn:Hg; [|discriminate].
    apply IH. eapply reachable_step; [apply Hw|apply Hex|].
    by apply opensUnlinkedb_true.
Defined.

Lemma chainWorld_reachable : reachable chainWorld.
Proof.
  apply (guardedRun_reachable chainRun threeMenus); [apply reachable_initial|].
  vm_compute. reflexivity.
Defined.

Lemma chainWorld_openChain : openChain chainWorld ([0; 1] ++ 2 :: [])%nat.
Proof.
  unfold openChain. simpl. unfold childOf, parentOf.
  repeat split; try (vm_compute; reflexivity).
  - apply (bool_decide_unpack (NoDup [0; 1; 2]%nat)). vm_compute. exact I.
  - repeat constructor; right; vm_compute; reflexivity.
Defined.

(** The cascade of the spec: a trigger three levels deep. *)
Lemma trigger_cascades_witness :
  openChain chainWorld ([0; 1] ++ 2 :: [])%nat ∧
  type leafItem ≠ submenu ∧
  ∃ w', _triggerItem chainWorld 2 leafItem = Some w' ∧
        cascaded chainWorld w' [0; 1]%nat 2 [] leafItem.
Proof.
  split; [apply chainWorld_openChain|]. split; [discriminate|].
  apply (trigger_cascades chainWorld [0; 1]%nat 2 [] leafItem).
  - apply chainWorld_openChain.
  - discriminate.
Defined.



(** Closing the root of the open chain of three menus, and closing it
    again; and closing the menu that was never opened. *)
Lemma close_idempotent_witness :
  displayed (menu chainWorld 0) ∧
  (∃ w1, close chainWorld 0 = Some w1 ∧
         emitted w1 = emitted chainWorld ++ [closed 2; closed 1; closed 0] ∧
         shut (menu w1 0) ∧ close w1 0 = Some w1) ∧
  ¬ displayed (menu selectedWorld 0) ∧
  (∃ w1, close selectedWorld 0 = Some w1 ∧
         emitted w1 = emitted selectedWorld ∧
         (∀ k, k ≠ 0%nat -> menu w1 k = menu selectedWorld k) ∧
         menu w1 0 = setActiveIndex (-1)
                       (_cancelCloseTimer (_cancelOpenTimer (menu selectedWorld 0)))).
Proof.
  assert (Hhidden : ¬ displayed (menu selectedWorld 0)).
  { intros [H|H]; vm_compute in H; [by apply H | discriminate]. }
  split; [right; reflexivity|]. split; [|split; [exact Hhidden|]].
  - destruct (proj1 close_idempotent chainWorld 0%nat) as (w1 & H1 & H2 & H3).
    exists w1. split; [exact H1|]. split.
    + vm_compute in H1. injection H1 as <-. reflexivity.
    + split; [exact H2|].
      exact (proj1 (proj2 close_idempotent) w1 0%nat H2).
  - exact (proj2 (proj2 close_idempotent) selectedWorld 0%nat Hhidden eq_refl eq_refl).
Defined.

Lemma separators_collapsed_witness :
  _items sixMenu = sixItems ∧ length (_nodes sixMenu) = 6%nat ∧
  _renderer sixMenu = MenuItemRenderer.instance ∧
  suppressed (_nodes (onUpdateRequest sixMenu)) = [0; 3; 5]%nat ∧
  visibleSeparators (_items sixMenu) (_nodes (onUpdateRequest sixMenu)) = [2]%nat.
Proof.
  split; [reflexivity|]. split; [reflexivity|]. split; [reflexivity|].
  apply (separators_collapsed sixMenu); reflexivity.
Defined.

Lemma mnemonic_activation_witness :
  _activeIndex (activateNextMnemonic "o" saveOpenCloseMenu) = 1.
Proof.
  apply (proj1 (mnemonic_activation "o" saveOpenCloseMenu) 1).
  - vm_compute. split; [discriminate | reflexivity].
  - apply (proj1 (mnemonicAt_true _ (toUpperCase "o") _)). vm_compute. reflexivity.
  - intros i' Hi' Hmatch.
    assert (i' = 0) as -> by lia.
    apply (proj2 (mnemonicAt_true _ (toUpperCase "o") _)) in Hmatch.
    vm_compute in Hmatch. discriminate.
Defined.

Lemma root_top_on_overflow_witness :
  let dom := domOf 0 0 100 100 20 30 in
  (0 < length (menus oneMenu))%nat ∧
  measure dom (prepareOpen dom 0 (clientHeight dom - 0) oneMenu) 0 = (20, 30) ∧
  90 + 30 > pageYOffset dom + clientHeight dom ∧
  style_top (style (menu (openRootMenu dom oneMenu 0 0 90 false false) 0))
    = Some 60.
Proof.
  intros dom. split; [vm_compute; lia|]. split; [reflexivity|].
  split; [vm_compute; reflexivity|].
  apply (root_top_on_overflow dom oneMenu 0%nat 0 90 false 20 30).
  - vm_compute. lia.
  - reflexivity.
  - vm_compute. reflexivity.
Defined.

Lemma root_left_on_overflow_witness :
  let dom := domOf 0 0 100 100 20 30 in
  (0 < length (menus oneMenu))%nat ∧
  measure dom (prepareOpen dom 0 (clientHeight dom - 0) oneMenu) 0 = (20, 30) ∧
  90 + 20 > pageXOffset dom + clientWidth dom ∧
  style_left (style (menu (openRootMenu dom oneMenu 0 90 0 false false) 0))
    = Some 80.
Proof.
  intros dom. split; [vm_compute; lia|]. split; [reflexivity|].
  split; [vm_compute; reflexivity|].
  apply (proj1 (root_left_on_overflow dom oneMenu 0%nat 90 0 false false 20 30
                  ltac:(vm_compute; lia) eq_refl) eq_refl).
  - vm_compute. reflexivity.
  - vm_compute. discriminate.
Defined.

Lemma items_nodes_same_length_witness :
  length (trace itemCalls oneMenu) = length itemCalls ∧
  Forall (λ w', ∀ m, length (_items (menu w' m)) = length (_nodes (menu w' m)))
         (trace itemCalls oneMenu).
Proof.
  apply (items_nodes_same_length oneMenu itemCalls).
  - intros m. destruct m as [|m]; reflexivity.
  - repeat constructor.
Defined.

Lemma activeIndex_selectable_witness :
  run chainRun threeMenus = Some chainWorld ∧
  (_activeIndex (menu chainWorld 1) = -1 ∨
   ∃ item, at_ (_items (menu chainWorld 1)) (_activeIndex (menu chainWorld 1))
             = Some item ∧
           type item ≠ separator ∧ disabled item = false ∧ hidden item = false).
Proof.
  assert (H : run chainRun threeMenus = Some chainWorld)
    by (vm_compute; reflexivity).
  split; [exact H|].
  apply (proj1 activeIndex_selectable
           [MenuItemRenderer.instance; MenuItemRenderer.instance;
            MenuItemRenderer.instance] chainRun chainWorld H 1%nat).
Defined.

Lemma mouseup_other_button_ignored_witness :
  2 ≠ 0 ∧
  _evtMouseUp desk chainWorld 2 2 0 = Some (returned chainWorld) ∧
  handleEvent desk chainWorld 2 (mouseup 2 0) = Some (returned chainWorld).
Proof.
  split; [lia|].
  apply (mouseup_other_button_ignored desk chainWorld 2%nat 2 0). lia.
Defined.

(** ** Selectable items and the class name of their node *)

Ltac in_names ch :=
  try destruct ch; simpl; rewrite ?elem_of_app, ?elem_of_cons; auto 10.

(** X1.  For an item whose own [className] holds none of the three marks,
    the item is selectable exactly when the class name the default
    renderer gives its node carries none of the separator-type, disabled
    and hidden marks. *)
Theorem selectable_iff_unmarked (item : MenuItem) :
  marksFree (words (className item)) ->
  (isSelectable item = true ↔
   marksFree (MenuItemRenderer.createItemClassName item)).
Proof.
  intros Hfree. unfold marksFree, unselectableMarks in *.
  unfold isSelectable, MenuItemRenderer.createItemClassName.
  destruct item as [ty tx ic sh ch di hi cn cm sm]; simpl in *.
  split.
  - intros Hsel c Hc Hin.
    apply (Hfree c Hc).
    destruct ty, di, hi, ch; simpl in *; try discriminate;
      rewrite ?elem_of_app, ?elem_of_cons, ?elem_of_nil in Hin;
      rewrite !elem_of_cons, elem_of_nil in Hc;
      unfold SEPARATOR_TYPE_CLASS, DISABLED_CLASS, HIDDEN_CLASS, ITEM_CLASS,
        NORMAL_TYPE_CLASS, CHECK_TYPE_CLASS, RADIO_TYPE_CLASS, SUBMENU_TYPE_CLASS,
        CHECKED_CLASS in *;
      naive_solver.
  - intros Hno.
    destruct ty, di, hi; simpl in *; try done; exfalso;
      first [ solve [apply (Hno SEPARATOR_TYPE_CLASS); in_names ch]
            | solve [apply (Hno DISABLED_CLASS); in_names ch]
            | solve [apply (Hno HIDDEN_CLASS); in_names ch] ].
Qed.

(** ** The mnemonic marker in the rendered text *)

Lemma append_nil s : "" +:+ s = s.
Proof. reflexivity. Qed.

Lemma append_cons a s t : String a s +:+ t = String a (s +:+ t).
Proof. reflexivity. Qed.

Lemma strip_head c r :
  ¬ (c = "&"%char ∧ ∃ r', r = String "&" r') ->
  stripMnemonicMarks (String c r) = String c (stripMnemonicMarks r).
Proof.
  intros H. simpl.
  destruct c as [[] [] [] [] [] [] [] []]; try reflexivity.
  destruct r as [|d r']; [reflexivity|].
  destruct d as [[] [] [] [] [] [] [] []]; try reflexivity.
  exfalso. apply H. split; [reflexivity|]. by eexists.
Qed.

Lemma strip_amp r t :
  stripMnemonicMarks r = String "&" t -> ∃ r', r = String "&" r'.
Proof.
  destruct r as [|d r']; [discriminate|].
  destruct (decide (d = "&"%char)) as [->|Hd]; [by eexists|].
  rewrite strip_head by (intros [? _]; done).
  intros H. congruence.
Qed.

Lemma strip_no_marker_aux n : ∀ s, (String.length s <= n)%nat ->
  ¬ hasMarker (stripMnemonicMarks s).
Proof.
  induction n as [|n IH]; intros s Hlen.
  - destruct s; [|simpl in Hlen; lia].
    intros (pre & post & H). destruct pre; discriminate.
  - destruct s as [|c r]; [apply IH; simpl; lia|].
    simpl in Hlen.
    destruct (decide (c = "&"%char)) as [->|Hc].
    + destruct r as [|d r'].
      * intros (pre & post & H). destruct pre as [|? [|? ?]]; discriminate.
      * destruct (decide (d = "&"%char)) as [->|Hd].
        -- change (¬ hasMarker (stripMnemonicMarks r')).
           apply IH. simpl in Hlen. lia.
        -- rewrite strip_head by (intros [_ [? ?]]; congruence).
           remember (stripMnemonicMarks (String d r')) as q eqn:Hq.
           intros (pre & post & H).
           destruct pre as [|p pre]; rewrite ?append_nil, ?append_cons in H.
           ++ injection H as H. subst q. apply strip_amp in H as [? ?]. congruence.
           ++ injection H as _ H. apply (IH (String d r')); [lia|].
              rewrite <- Hq. by exists pre, post.
    + rewrite strip_head by (intros [? _]; done).
      remember (stripMnemonicMarks r) as q eqn:Hq.
      intros (pre & post & H).
      destruct pre as [|p pre]; rewrite ?append_nil, ?append_cons in H.
      * congruence.
      * injection H as _ H. apply (IH r); [lia|].
        rewrite <- Hq. by exists pre, post.
Qed.

Lemma strip_unmarked s : ¬ hasMarker s -> stripMnemonicMarks s = s.
Proof.
  induction s as [|c r IH]; intros Hno; [done|].
  rewrite strip_head.
  - f_equal. apply IH. intros (pre & post & ->). apply Hno.
    by exists (String c pre), post.
  - intros [-> [r' ->]]. apply Hno. by exists "", r'.
Qed.

(** X2.  The text the default renderer shows for an item never contains
    the mnemonic marker ["&&"]; for an item that is not a separator and
    whose text has no marker it is the text of the item, unchanged. *)
Theorem rendered_text_has_no_marker (node : Node) (item : MenuItem) :
  ¬ hasMarker (textContent (MenuItemRenderer.updateItemNode node item)) ∧
  (type item ≠ separator -> ¬ hasMarker (text item) ->
   textContent (MenuItemRenderer.updateItemNode node item) = text item).
Proof.
  unfold MenuItemRenderer.updateItemNode; simpl. split.
  - destruct (MenuItemType_eqb _ _).
    + intros (pre & post & H). destruct pre; discriminate.
    + by apply (strip_no_marker_aux (String.length (text item))).
  - intros Hty Hno. destruct (MenuItemType_eqb _ _) eqn:E.
    + by apply MenuItemType_eqb_eq in E.
    + by apply strip_unmarked.
Qed.

(** ** Separator collapsing on any list of items *)

Lemma hiddenAdded_ext S T a b :
  (∀ i, S i ↔ T i) -> hiddenAdded S a b -> hiddenAdded T a b.
Proof.
  intros Hiff H i. destruct (H i) as [H1 H2]. split.
  - intros Hi. apply H1, Hiff, Hi.
  - intros Hi. apply H2. intros HS. apply Hi, Hiff, HS.
Qed.

Lemma hiddenAdded_none a : hiddenAdded (λ _, False) a a.
Proof. intros i. split; [done|done]. Qed.

Lemma hiddenAdded_then S T a b c :
  (∀ i, S i -> T i -> False) ->
  hiddenAdded S a b -> hiddenAdded T b c -> hiddenAdded (λ i, S i ∨ T i) a c.
Proof.
  intros Hdis Hab Hbc i. destruct (Hab i) as [Ha1 Ha2], (Hbc i) as [Hb1 Hb2].
  split.
  - intros [HS|HT].
    + rewrite Hb2 by eauto. auto.
    + rewrite Hb1 by done. rewrite Ha2 by eauto. done.
  - intros Hno. rewrite Hb2, Ha2; auto.
Qed.

Lemma hideNode_added nodes (p : nat) :
  hiddenAdded (λ i, i = p) nodes (hideNode nodes (Z.of_nat p)).
Proof.
  intros i. unfold hideNode, update_at.
  rewrite (proj2 (Z.ltb_ge _ _)) by lia. rewrite Nat2Z.id. split.
  - intros ->. by rewrite list_lookup_alter_eq.
  - intros Hne. by rewrite list_lookup_alter_ne.
Qed.

Lemma shown_cases items i item :
  items !! i = Some item ->
  (hidden item = true ∧ ¬ shownAt items i) ∨
  (hidden item = false ∧ type item ≠ separator ∧ entryAt items i) ∨
  (hidden item = false ∧ type item = separator ∧ separatorAt items i).
Proof.
  intros Hi. destruct (hidden item) eqn:Hh.
  - left. split; [done|]. intros (x & Hx & Hxh). congruence.
  - right. destruct (MenuItemType_eqb (type item) separator) eqn:E.
    + apply MenuItemType_eqb_eq in E.
      right. repeat split; try done. by exists item.
    + assert (type item ≠ separator).
      { intros Hs. apply MenuItemType_eqb_eq in Hs. congruence. }
      left. repeat split; try done. by exists item.
Qed.

Lemma separator_not_entry items i : separatorAt items i -> entryAt items i -> False.
Proof. intros (x & Hx & _ & Hs) (y & Hy & _ & He). congruence. Qed.

Lemma separator_shown items i : separatorAt items i -> shownAt items i.
Proof. intros (x & Hx & Hh & _). by exists x. Qed.

Lemma entry_shown items i : entryAt items i -> shownAt items i.
Proof. intros (x & Hx & Hh & _). by exists x. Qed.

Lemma shown_in_range items i : shownAt items i -> (i < length items)%nat.
Proof. intros (x & Hx & _). by apply lookup_lt_Some in Hx. Qed.

Lemma drop_cons_lookup {A} (l : list A) k x rest :
  drop k l = x :: rest -> l !! k = Some x ∧ rest = drop (S k) l.
Proof.
  intros H. assert (Hk : l !! k = Some x).
  { rewrite <- (Nat.add_0_r k), <- lookup_drop, H. done. }
  split; [done|]. rewrite (drop_S _ _ _ Hk) in H. congruence.
Qed.

Lemma sep_eqb_false item :
  type item ≠ separator -> MenuItemType_eqb (type item) separator = false.
Proof.
  intros H. destruct (MenuItemType_eqb _ _) eqn:E; [|done].
  by apply MenuItemType_eqb_eq in E.
Qed.

Lemma sep_eqb_true item :
  type item = separator -> MenuItemType_eqb (type item) separator = true.
Proof. intros ->. done. Qed.

(** The first loop. *)
Lemma hideLeading_spec items : ∀ rest k nodes k1 nodes',
  rest = drop k items -> (k <= length items)%nat ->
  hideLeading rest (Z.of_nat k) nodes = (k1, nodes') ->
  ∃ c, k1 = Z.of_nat c ∧ (k <= c <= length items)%nat ∧
       (∀ j, (k <= j < c)%nat -> ¬ entryAt items j) ∧
       ((c < length items)%nat -> entryAt items c) ∧
       hiddenAdded (λ i, (k <= i < c)%nat ∧ separatorAt items i) nodes nodes'.
Proof.
  induction rest as [|item rest IH]; intros k nodes k1 nodes' Hrest Hk Hrun.
  - simpl in Hrun. simplify_eq. exists k.
    assert (length items <= k)%nat.
    { destruct (decide (length items <= k)%nat); [done|].
      assert (Hl : length (drop k items) = 0%nat) by by rewrite <- Hrest.
      rewrite length_drop in Hl. lia. }
    split_and!; try lia.
    eapply hiddenAdded_ext; [|apply hiddenAdded_none]. simpl. intros i; split; [done|lia].
  - symmetry in Hrest. apply drop_cons_lookup in Hrest as [Hitem Hrest].
    pose proof (lookup_lt_Some _ _ _ Hitem) as Hlt.
    simpl in Hrun.
    destruct (shown_cases _ _ _ Hitem) as [[Hh Hns]|[[Hh [Hty He]]|[Hh [Hty Hs]]]];
      rewrite Hh in Hrun.
    + replace (Z.of_nat k + 1) with (Z.of_nat (S k)) in Hrun by lia.
      destruct (IH _ _ _ _ Hrest ltac:(lia) Hrun) as (c & -> & Hc & Hno & Hent & Hadd).
      exists c. split_and!; try lia; try done.
      * intros j Hj. destruct (decide (j = k)) as [->|]; [|apply Hno; lia].
        intros He. by apply Hns, entry_shown.
      * eapply hiddenAdded_ext; [|exact Hadd]. simpl. intros i. split.
        -- intros [Hi Hsi]. split; [lia|done].
        -- intros [Hi Hsi]. split; [|done].
           destruct (decide (i = k)) as [->|]; [|lia].
           exfalso. by apply Hns, separator_shown.
    + rewrite sep_eqb_false in Hrun by done. simpl in Hrun. simplify_eq.
      exists k. split_and!; try lia; try done.
      eapply hiddenAdded_ext; [|apply hiddenAdded_none]. simpl. intros i; split; [done|lia].
    + rewrite sep_eqb_true in Hrun by done. simpl in Hrun.
      replace (Z.of_nat k + 1) with (Z.of_nat (S k)) in Hrun by lia.
      destruct (IH _ _ _ _ Hrest ltac:(lia) Hrun) as (c & -> & Hc & Hno & Hent & Hadd).
      exists c. split_and!; try lia; try done.
      * intros j Hj. destruct (decide (j = k)) as [->|]; [|apply Hno; lia].
        intros He. by eapply separator_not_entry.
      * eapply hiddenAdded_ext;
          [|eapply hiddenAdded_then; [|apply hideNode_added|exact Hadd]].
        -- simpl. intros i. split.
           ++ intros [->|[Hi Hsi]]; (split; [lia|done]).
           ++ intros [Hi Hsi]. destruct (decide (i = k)); [by left|right].
              split; [lia|done].
        -- simpl. intros i -> [Hi _]. lia.
Qed.

Lemma reverse_take_cons {A} (l : list A) m x rest :
  (m <= length l)%nat -> reverse (take m l) = x :: rest ->
  ∃ m', m = S m' ∧ l !! m' = Some x ∧ rest = reverse (take m' l).
Proof.
  intros Hm H. destruct m as [|m'].
  - rewrite take_0 in H. discriminate.
  - exists m'. split; [done|].
    destruct (lookup_lt_is_Some_2 l m' ltac:(lia)) as [y Hy].
    rewrite (take_S_r _ _ _ Hy), reverse_snoc in H. by simplify_eq.
Qed.

(** The second loop. *)
Lemma hideTrailing_spec items : ∀ rest m nodes k2 nodes',
  (m <= length items)%nat -> rest = reverse (take m items) ->
  hideTrailing rest (Z.of_nat m - 1) nodes = (k2, nodes') ->
  ∃ c, k2 = Z.of_nat c - 1 ∧ (c <= m)%nat ∧
       (∀ j, (c <= j < m)%nat -> ¬ entryAt items j) ∧
       (∀ c', c = S c' -> entryAt items c') ∧
       hiddenAdded (λ i, (c <= i < m)%nat ∧ separatorAt items i) nodes nodes'.
Proof.
  induction rest as [|item rest IH]; intros m nodes k2 nodes' Hm Hrest Hrun.
  - simpl in Hrun. simplify_eq. exists m.
    assert (m = 0)%nat as ->.
    { destruct m; [done|].
      assert (Hl : length (reverse (take (S m) items)) = 0%nat) by by rewrite <- Hrest.
      rewrite length_reverse, length_take in Hl. lia. }
    split_and!; try lia; try done.
    eapply hiddenAdded_ext; [|apply hiddenAdded_none]. simpl. intros i; split; [done|lia].
  - symmetry in Hrest. apply reverse_take_cons in Hrest as (m' & -> & Hitem & Hrest); [|done].
    simpl in Hrun.
    replace (Z.of_nat (S m') - 1) with (Z.of_nat m') in Hrun by lia.
    destruct (shown_cases _ _ _ Hitem) as [[Hh Hns]|[[Hh [Hty He]]|[Hh [Hty Hs]]]];
      rewrite Hh in Hrun.
    + destruct (IH m' _ _ _ ltac:(lia) Hrest Hrun) as (c & -> & Hc & Hno & Hent & Hadd).
      exists c. split_and!; try lia; try done.
      * intros j Hj. destruct (decide (j = m')) as [->|]; [|apply Hno; lia].
        intros He. by apply Hns, entry_shown.
      * eapply hiddenAdded_ext; [|exact Hadd]. simpl. intros i. split.
        -- intros [Hi Hsi]. split; [lia|done].
        -- intros [Hi Hsi]. split; [|done].
           destruct (decide (i = m')) as [->|]; [|lia].
           exfalso. by apply Hns, separator_shown.
    + rewrite sep_eqb_false in Hrun by done. simpl in Hrun. simplify_eq.
      exists (S m'). split_and!; try lia; try done.
      * intros c' [= <-]. done.
      * eapply hiddenAdded_ext; [|apply hiddenAdded_none]. simpl. intros i; split; [done|lia].
    + rewrite sep_eqb_true in Hrun by done. simpl in Hrun.
      destruct (IH m' _ _ _ ltac:(lia) Hrest Hrun) as (c & -> & Hc & Hno & Hent & Hadd).
      exists c. split_and!; try lia; try done.
      * intros j Hj. destruct (decide (j = m')) as [->|]; [|apply Hno; lia].
        intros He. by eapply separator_not_entry.
      * eapply hiddenAdded_ext;
          [|eapply hiddenAdded_then; [|apply hideNode_added|exact Hadd]].
        -- simpl. intros i. split.
           ++ intros [->|[Hi Hsi]]; (split; [lia|done]).
           ++ intros [Hi Hsi]. destruct (decide (i = m')); [by left|right].
              split; [lia|done].
        -- simpl. intros i -> [Hi _]. lia.
Qed.

(** The third loop. *)
Lemma hideConsecutive_spec items (k2 : Z) : ∀ rest a hide nodes,
  rest = drop (S a) items ->
  hiddenAdded
    (λ i, (a < i)%nat ∧ Z.of_nat i < k2 ∧ separatorAt items i ∧
          followsSeparator items a hide i)
    nodes (hideConsecutive rest (Z.of_nat a) k2 hide nodes).
Proof.
  induction rest as [|item rest IH]; intros a hide nodes Hrest.
  - simpl. eapply hiddenAdded_ext; [|apply hiddenAdded_none]. simpl.
    intros i; split; [done|]. intros (Hi & _ & Hs & _).
    apply separator_shown, shown_in_range in Hs.
    assert (Hl : length (drop (S a) items) = 0%nat) by by rewrite <- Hrest.
    rewrite length_drop in Hl. lia.
  - symmetry in Hrest. apply drop_cons_lookup in Hrest as [Hitem Hrest].
    simpl. replace (Z.of_nat a + 1) with (Z.of_nat (S a)) by lia.
    destruct (Z.of_nat (S a) <? k2) eqn:Hlt.
    2:{ apply Z.ltb_ge in Hlt.
        eapply hiddenAdded_ext; [|apply hiddenAdded_none]. simpl.
        intros i; split; [done|]. lia. }
    apply Z.ltb_lt in Hlt.
    destruct (shown_cases _ _ _ Hitem) as [[Hh Hns]|[[Hh [Hty He]]|[Hh [Hty Hs]]]];
      rewrite Hh.
    + (* a hidden item: skipped *)
      eapply hiddenAdded_ext; [|apply (IH (S a) hide nodes Hrest)]. simpl.
      intros i. split.
      * intros (Hi & Hik & Hsi & Hf). split_and!; try lia; try done.
        destruct Hf as [(j & Hj & Hsj & Hbetween)|[Hhide Hno]].
        -- left. exists j. split_and!; try lia; done.
        -- right. split; [done|]. intros k Hk.
           destruct (decide (k = S a)) as [->|]; [done|]. apply Hno. lia.
      * intros (Hi & Hik & Hsi & Hf).
        assert (i ≠ S a) by (intros ->; by apply Hns, separator_shown).
        split_and!; try lia; try done.
        destruct Hf as [(j & Hj & Hsj & Hbetween)|[Hhide Hno]].
        -- left. assert (j ≠ S a) by (intros ->; by apply Hns, separator_shown).
           exists j. split_and!; try lia; try done.
        -- right. split; [done|]. intros k Hk. apply Hno. lia.
    + (* an entry: the next separator is kept *)
      rewrite sep_eqb_false by done. simpl.
      eapply hiddenAdded_ext; [|apply (IH (S a) false nodes Hrest)]. simpl.
      intros i. split.
      * intros (Hi & Hik & Hsi & Hf). split_and!; try lia; try done.
        destruct Hf as [(j & Hj & Hsj & Hbetween)|[Hhide Hno]]; [|done].
        left. exists j. split_and!; try lia; done.
      * intros (Hi & Hik & Hsi & Hf).
        assert (i ≠ S a) by (intros ->; by eapply separator_not_entry).
        split_and!; try lia; try done.
        destruct Hf as [(j & Hj & Hsj & Hbetween)|[Hhide Hno]].
        -- left. assert (j ≠ S a) by (intros ->; by eapply separator_not_entry).
           exists j. split_and!; try lia; try done.
        -- exfalso. apply (Hno (S a)); [lia|]. by apply entry_shown.
    + (* a separator *)
      rewrite sep_eqb_true by done. simpl.
      destruct hide.
      * (* it follows a separator: hidden *)
        eapply hiddenAdded_ext;
          [|eapply hiddenAdded_then;
            [|apply (hideNode_added nodes (S a))|apply (IH (S a) true _ Hrest)]].
        -- simpl. intros i. split.
           ++ intros [->|(Hi & Hik & Hsi & Hf)].
              ** split_and!; try lia; try done. right. split; [done|]. lia.
              ** split_and!; try lia; try done.
                 destruct Hf as [(j & Hj & Hsj & Hbetween)|[_ Hno]].
                 --- left. exists j. split_and!; try lia; done.
                 --- left. exists (S a). split_and!; try lia; done.
           ++ intros (Hi & Hik & Hsi & Hf).
              destruct (decide (i = S a)) as [->|]; [by left|right].
              split_and!; try lia; try done.
              destruct Hf as [(j & Hj & Hsj & Hbetween)|[_ Hno]].
              ** destruct (decide (j = S a)) as [->|].
                 --- right. done.
                 --- left. exists j. split_and!; try lia; try done.
              ** exfalso. apply (Hno (S a)); [lia|]. by apply separator_shown.
        -- simpl. intros i -> (Hi & _). lia.
      * (* the first of a run: kept, and the next one is hidden *)
        eapply hiddenAdded_ext; [|apply (IH (S a) true nodes Hrest)]. simpl.
        intros i. split.
        -- intros (Hi & Hik & Hsi & Hf). split_and!; try lia; try done.
           destruct Hf as [(j & Hj & Hsj & Hbetween)|[_ Hno]].
           ++ left. exists j. split_and!; try lia; done.
           ++ left. exists (S a). split_and!; try lia; done.
        -- intros (Hi & Hik & Hsi & Hf).
           destruct Hf as [(j & Hj & Hsj & Hbetween)|[Hf _]]; [|done].
           assert (i ≠ S a) by lia.
           split_and!; try lia; try done.
           destruct (decide (j = S a)) as [->|].
           ++ right. done.
           ++ left. exists j. split_and!; try lia; try done.
Qed.

Lemma classList_add_twice c n : classList_add c (classList_add c n) = classList_add c n.
Proof.
  destruct (classList_contains c n) eqn:E.
  - unfold classList_add. rewrite E. by rewrite E.
  - unfold classList_add. rewrite E.
    match goal with |- (if ?b then _ else _) = _ => assert (b = true) as -> end; [|done].
    unfold classList_contains. simpl.
    apply bool_decide_eq_true_2, elem_of_app. right. by apply list_elem_of_singleton.
Qed.

Lemma hiddenAdded_again S T a b c :
  (∀ i, S i ∨ ¬ S i) -> (∀ i, T i ∨ ¬ T i) ->
  hiddenAdded S a b -> hiddenAdded T b c -> hiddenAdded (λ i, S i ∨ T i) a c.
Proof.
  intros HdS HdT Hab Hbc i. destruct (Hab i) as [Ha1 Ha2], (Hbc i) as [Hb1 Hb2].
  destruct (HdS i) as [HS|HS], (HdT i) as [HT|HT].
  - split; [|tauto]. intros _. rewrite Hb1, Ha1 by done.
    destruct (a !! i); simpl; [|done]. by rewrite classList_add_twice.
  - split; [|tauto]. intros _. by rewrite Hb2, Ha1.
  - split; [|tauto]. intros _. by rewrite Hb1, Ha2.
  - split; [tauto|]. intros _. by rewrite Hb2, Ha2.
Qed.

Lemma separatorAt_dec items i : separatorAt items i ∨ ¬ separatorAt items i.
Proof.
  destruct (items !! i) as [item|] eqn:Hi.
  - destruct (shown_cases _ _ _ Hi) as [[Hh Hns]|[[Hh [Hty He]]|[Hh [Hty Hs]]]].
    + right. intros H. by apply Hns, separator_shown.
    + right. intros H. by eapply separator_not_entry.
    + by left.
  - right. intros (x & Hx & _). congruence.
Qed.

Lemma shown_kind items i : shownAt items i -> entryAt items i ∨ separatorAt items i.
Proof.
  intros (x & Hx & Hh).
  destruct (shown_cases _ _ _ Hx) as [[Hh' Hns]|[[_ [_ He]]|[_ [_ Hs]]]];
    [congruence|by left|by right].
Qed.

Lemma shownAt_dec items i : shownAt items i ∨ ¬ shownAt items i.
Proof.
  destruct (items !! i) as [item|] eqn:Hi.
  - destruct (shown_cases _ _ _ Hi) as [[Hh Hns]|[[Hh [Hty He]]|[Hh [Hty Hs]]]].
    + by right.
    + left. by apply entry_shown.
    + left. by apply separator_shown.
  - right. intros (x & Hx & _). congruence.
Qed.

(** The shown item just before position [i]. *)
Lemma last_shown_before items : ∀ i j0,
  (j0 < i)%nat -> shownAt items j0 ->
  ∃ j, (j0 <= j < i)%nat ∧ shownAt items j ∧
       ∀ k, (j < k < i)%nat -> ¬ shownAt items k.
Proof.
  induction i as [|i IH]; intros j0 Hj0 Hs; [lia|].
  destruct (shownAt_dec items i) as [Hi|Hi].
  - exists i. split_and!; try lia; try done.
  - destruct (decide (j0 = i)) as [->|]; [done|].
    destruct (IH j0 ltac:(lia) Hs) as (j & Hj & Hsj & Hbetween).
    exists j. split_and!; try lia; try done.
    intros k Hk. destruct (decide (k = i)) as [->|]; [done|]. apply Hbetween. lia.
Qed.

(** What the three loops hide, together. *)
Lemma hideExtraSeparators_added items nodes :
  hiddenAdded (λ i, separatorAt items i ∧ ¬ dividesEntries items i)
    nodes (hideExtraSeparators items nodes).
Proof.
  unfold hideExtraSeparators.
  destruct (hideLeading items 0 nodes) as [k1 nodes1] eqn:H1.
  destruct (hideTrailing (reverse items) (len items - 1) nodes1) as [k2 nodes2] eqn:H2.
  destruct (hideLeading_spec items items 0%nat nodes k1 nodes1 eq_refl ltac:(lia) H1)
    as (c1 & -> & Hc1 & Hno1 & Hent1 & Hadd1).
  destruct (hideTrailing_spec items (reverse items) (length items) nodes1 k2 nodes2
              ltac:(lia) ltac:(by rewrite firstn_all) H2)
    as (c2 & -> & Hc2 & Hno2 & Hent2 & Hadd2).
  replace (Z.to_nat (Z.of_nat c1 + 1)) with (S c1) by lia.
  pose proof (hideConsecutive_spec items (Z.of_nat c2 - 1) _ c1 false nodes2 eq_refl)
    as Hadd3.
  eapply hiddenAdded_ext;
    [|eapply hiddenAdded_then;
      [|eapply hiddenAdded_again; [| |exact Hadd1|exact Hadd2]|exact Hadd3]].
  - simpl. intros i. split.
    + intros [[[Hi Hs]|[Hi Hs]]|(Hi & Hik & Hs & Hf)]; (split; [done|]).
      * intros [(j & Hj & He & _) _]. apply (Hno1 j); [lia|done].
      * intros [_ (j & Hj & He)]. apply (Hno2 j); [|done].
        apply entry_shown, shown_in_range in He. lia.
      * intros [(j' & Hj' & He' & Hb') _].
        destruct Hf as [(j & Hj & Hsj & Hb)|[? _]]; [|done].
        destruct (Nat.lt_total j j') as [Hlt|[->|Hlt]].
        -- apply (Hb j'); [lia|]. by apply entry_shown.
        -- by eapply separator_not_entry.
        -- apply (Hb' j); [lia|]. by apply separator_shown.
    + intros [Hs Hnd].
      destruct (decide (i < c1)%nat); [left; left; split; [lia|done]|].
      destruct (decide (c2 <= i)%nat) as [|Hc2i].
      { left; right. split; [|done]. apply separator_shown, shown_in_range in Hs. lia. }
      right.
      assert (He1 : entryAt items c1) by (apply Hent1; lia).
      destruct c2 as [|c2']; [lia|].
      assert (He2 : entryAt items c2') by by apply Hent2.
      assert (i ≠ c1) by (intros ->; by eapply separator_not_entry).
      assert (i ≠ c2') by (intros ->; by eapply separator_not_entry).
      split_and!; try lia; try done.
      left.
      destruct (last_shown_before items i c1 ltac:(lia) (entry_shown _ _ He1))
        as (j & Hj & Hsj & Hb).
      destruct (shown_kind _ _ Hsj) as [Hej|Hsepj].
      * exfalso. apply Hnd. split.
        -- exists j. split_and!; try lia; done.
        -- exists c2'. split; [lia|done].
      * assert (j ≠ c1) by (intros ->; by eapply separator_not_entry).
        exists j. split_and!; try lia; done.
  - simpl. intros i [[Hi _]|[Hi _]] (Hi3 & Hik & _); lia.
  - intros i. simpl. destruct (separatorAt_dec items i) as [Hs|Hs]; [|right; tauto].
    destruct (decide (0 <= i < c1)%nat); [left; split; [lia|done]|right; lia].
  - intros i. simpl. destruct (separatorAt_dec items i) as [Hs|Hs]; [|right; tauto].
    destruct (decide (c2 <= i < length items)%nat); [left; split; [lia|done]|right; lia].
Qed.

(** X3.  [hideExtraSeparators] on paired vectors of any length: the node
    at position [i] gets the hidden class when the item there is a
    separator, not hidden itself, that does not divide two groups of
    entries (it leads, it trails, or the shown item before it is a
    separator too); every other node is left as it was. *)
Theorem separators_hidden_exactly (items : list MenuItem) (nodes : list Node)
    (i : nat) (node : Node) :
  length items = length nodes ->
  nodes !! i = Some node ->
  let after := hideExtraSeparators items nodes in
  (separatorAt items i ∧ ¬ dividesEntries items i ->
   after !! i = Some (classList_add HIDDEN_CLASS node)) ∧
  (¬ (separatorAt items i ∧ ¬ dividesEntries items i) -> after !! i = Some node).
Proof.
  intros _ Hi after. destruct (hideExtraSeparators_added items nodes i) as [H1 H2].
  split; intros H.
  - unfold after. rewrite H1 by done. by rewrite Hi.
  - unfold after. rewrite H2 by done. done.
Qed.

(** ** The arrow keys inside one menu *)

Lemma rem_small x n : 0 <= x < n -> Z.rem x n = x.
Proof. intros. apply Z.rem_small. lia. Qed.

Lemma rem_wrap x n : 0 < n -> n <= x < 2 * n -> Z.rem x n = x - n.
Proof.
  intros Hn Hx. rewrite Z.rem_mod_nonneg by lia.
  symmetry. apply (Z.mod_unique_pos x n 1); lia.
Qed.

(** [Z.rem x n] for an [x] known to lie in [0, 2n). *)
Ltac rem_cases :=
  repeat match goal with
  | |- context [Z.rem ?x ?n] =>
      first [ rewrite (rem_small x n) by lia
            | rewrite (rem_wrap x n) by lia ]
  | H : context [Z.rem ?x ?n] |- _ =>
      first [ rewrite (rem_small x n) in H by lia
            | rewrite (rem_wrap x n) in H by lia ]
  end.

Lemma scan_None_inv {A} (body : Z -> option A) n : ∀ i,
  scan body i n = None -> ∀ k, i <= k < i + Z.of_nat n -> body k = None.
Proof.
  induction n as [|n IH]; intros i H k Hk; [lia|].
  simpl in H. destruct (body i) eqn:Hb; [discriminate|].
  destruct (decide (k = i)) as [->|]; [done|].
  apply (IH (i + 1)); [done|lia].
Qed.

(** The cyclic distance from a selectable position to the next one. *)
Lemma next_selectable_at items a :
  selectableAt items a = true ->
  ∀ x, _items x = items -> _activeIndex x = a ->
  ∃ d, 1 <= d <= len items ∧
       selectableAt items (Z.rem (a + d) (len items)) = true ∧
       (∀ t, 1 <= t < d -> selectableAt items (Z.rem (a + t) (len items)) = false) ∧
       _activeIndex (activateNextSelectable x) = Z.rem (a + d) (len items).
Proof.
  intros Hsel x Hitems Ha.
  destruct (selectableAt_true _ _ Hsel) as (item & Hat & _).
  apply at_in_range in Hat.
  unfold activateNextSelectable. rewrite Hitems, Ha.
  set (n := len items) in *.
  set (body := λ i, let k := Z.rem (i + (a + 1)) n in
                    if selectableAt items k then Some k else None).
  destruct (scan body 0 (length items)) as [k|] eqn:Hscan.
  - apply scan_Some in Hscan as (i & Hi & Hbody & Hmin).
    exists (i + 1). unfold body in Hbody. simpl in Hbody.
    replace (a + (i + 1)) with (i + (a + 1)) by lia.
    destruct (selectableAt items (Z.rem (i + (a + 1)) n)) eqn:Hk; [|discriminate].
    injection Hbody as <-. split_and!; try (unfold n, len; lia); try done.
    + intros t Ht. specialize (Hmin (t - 1) ltac:(lia)).
      unfold body in Hmin. simpl in Hmin.
      replace (t - 1 + (a + 1)) with (a + t) in Hmin by lia.
      by destruct (selectableAt items (Z.rem (a + t) n)).
    + rewrite setActiveIndex_value, Hitems. unfold coerceIndex. by rewrite Hk.
  - exfalso.
    pose proof (scan_None_inv _ _ _ Hscan (n - 1) ltac:(unfold n, len in *; lia)) as Hb.
    unfold body in Hb. simpl in Hb.
    replace (n - 1 + (a + 1)) with (a + n) in Hb by lia.
    rewrite rem_wrap in Hb by lia.
    replace (a + n - n) with a in Hb by lia. by rewrite Hsel in Hb.
Qed.

Lemma prev_selectable_at items a :
  selectableAt items a = true ->
  ∀ x, _items x = items -> _activeIndex x = a ->
  ∃ d, 1 <= d <= len items ∧
       selectableAt items (Z.rem (a - d + len items) (len items)) = true ∧
       (∀ t, 1 <= t < d ->
             selectableAt items (Z.rem (a - t + len items) (len items)) = false) ∧
       _activeIndex (activatePrevSelectable x) = Z.rem (a - d + len items) (len items).
Proof.
  intros Hsel x Hitems Ha.
  destruct (selectableAt_true _ _ Hsel) as (item & Hat & _).
  apply at_in_range in Hat.
  unfold activatePrevSelectable. rewrite Hitems, Ha.
  set (n := len items) in *.
  set (j := if a <=? 0 then n - 1 else a - 1).
  assert (Hj : ∀ i, 0 <= i < n -> Z.rem (j - i + n) n = Z.rem (a - (i + 1) + n) n).
  { intros i Hi. unfold j. destruct (a <=? 0) eqn:E.
    - apply Z.leb_le in E. assert (a = 0) as -> by lia.
      destruct (decide (i = 0)) as [->|].
      + rewrite rem_wrap by lia. rewrite rem_small by lia. lia.
      + rewrite rem_wrap by lia. rewrite rem_small by lia. lia.
    - f_equal. lia. }
  set (body := λ i, let k := Z.rem (j - i + n) n in
                    if selectableAt items k then Some k else None).
  destruct (scan body 0 (length items)) as [k|] eqn:Hscan.
  - apply scan_Some in Hscan as (i & Hi & Hbody & Hmin).
    assert (Hin : 0 <= i < n) by (unfold n, len; lia).
    exists (i + 1). unfold body in Hbody. simpl in Hbody.
    rewrite Hj in Hbody by done.
    destruct (selectableAt items (Z.rem (a - (i + 1) + n) n)) eqn:Hk; [|discriminate].
    injection Hbody as <-. split_and!; try lia; try done.
    + intros t Ht. specialize (Hmin (t - 1) ltac:(lia)).
      unfold body in Hmin. simpl in Hmin. rewrite Hj in Hmin by lia.
      replace (t - 1 + 1) with t in Hmin by lia.
      by destruct (selectableAt items (Z.rem (a - t + n) n)).
    + rewrite setActiveIndex_value, Hitems. unfold coerceIndex. by rewrite Hk.
  - exfalso.
    pose proof (scan_None_inv _ _ _ Hscan (n - 1) ltac:(unfold n, len in *; lia)) as Hb.
    unfold body in Hb. simpl in Hb. rewrite Hj in Hb by lia.
    replace (a - (n - 1 + 1) + n) with a in Hb by lia.
    rewrite rem_small in Hb by lia. by rewrite Hsel in Hb.
Qed.

(** X4.  With a selectable item selected, [activateNextSelectable]
    followed by [activatePrevSelectable] comes back to the same index, and
    so do the two in the other order. *)
Theorem next_then_prev_returns (x : Menu) :
  selectableAt (_items x) (_activeIndex x) = true ->
  _activeIndex (activatePrevSelectable (activateNextSelectable x)) = _activeIndex x ∧
  _activeIndex (activateNextSelectable (activatePrevSelectable x)) = _activeIndex x.
Proof.
  intros Hsel.
  set (items := _items x) in *. set (a := _activeIndex x) in *.
  set (n := len items).
  destruct (selectableAt_true _ _ Hsel) as (item & Hat & _).
  apply at_in_range in Hat. fold n in Hat.
  split.
  - destruct (next_selectable_at items a Hsel x eq_refl eq_refl)
      as (d & Hd & Hb & Hmin & Hnext). fold n in Hd, Hb, Hmin, Hnext.
    set (x1 := activateNextSelectable x) in *.
    assert (Hitems1 : _items x1 = items).
    { unfold x1, activateNextSelectable. case_match; apply setActiveIndex_items. }
    destruct (prev_selectable_at items _ Hb x1 Hitems1 Hnext)
      as (d' & Hd' & Hb' & Hmin' & Hprev). fold n in Hd', Hb', Hmin', Hprev.
    rewrite Hprev.
    (* the way back has the length of the way forth *)
    destruct (Z.lt_trichotomy d d') as [Hlt|[->|Hgt]].
    + (* going back, position [a] is met after [d] steps *)
      exfalso. specialize (Hmin' d ltac:(lia)).
      assert (Z.rem (Z.rem (a + d) n - d + n) n = a) as Heq.
      { destruct (decide (a + d < n)); rem_cases; lia. }
      rewrite Heq in Hmin'. congruence.
    + destruct (decide (a + d' < n)); rem_cases; lia.
    + exfalso. specialize (Hmin (d - d') ltac:(lia)).
      assert (Z.rem (Z.rem (a + d) n - d' + n) n = Z.rem (a + (d - d')) n) as Heq.
      { destruct (decide (a + d < n)), (decide (a + (d - d') < n)); rem_cases; lia. }
      rewrite Heq in Hb'. congruence.
  - destruct (prev_selectable_at items a Hsel x eq_refl eq_refl)
      as (d & Hd & Hb & Hmin & Hprev). fold n in Hd, Hb, Hmin, Hprev.
    set (x1 := activatePrevSelectable x) in *.
    assert (Hitems1 : _items x1 = items).
    { unfold x1, activatePrevSelectable. case_match; apply setActiveIndex_items. }
    destruct (next_selectable_at items _ Hb x1 Hitems1 Hprev)
      as (d' & Hd' & Hb' & Hmin' & Hnext). fold n in Hd', Hb', Hmin', Hnext.
    rewrite Hnext.
    destruct (Z.lt_trichotomy d d') as [Hlt|[->|Hgt]].
    + exfalso. specialize (Hmin' d ltac:(lia)).
      assert (Z.rem (Z.rem (a - d + n) n + d) n = a) as Heq.
      { destruct (decide (a - d + n < n)); rem_cases; lia. }
      rewrite Heq in Hmin'. congruence.
    + destruct (decide (a - d' + n < n)); rem_cases; lia.
    + exfalso. specialize (Hmin (d - d') ltac:(lia)).
      assert (Z.rem (Z.rem (a - d + n) n + d') n = Z.rem (a - (d - d') + n) n) as Heq.
      { destruct (decide (a - d + n < n)), (decide (a - (d - d') + n < n));
          rem_cases; lia. }
      rewrite Heq in Hb'. congruence.
Qed.

(** ** The items that are triggered *)

Lemma logsRegular_refl w : logsRegular w w.
Proof. exists []. by rewrite app_nil_r. Qed.

Lemma logsRegular_trans a b c :
  logsRegular a b -> logsRegular b c -> logsRegular a c.
Proof.
  intros (l1 & H1 & F1) (l2 & H2 & F2). exists (l1 ++ l2).
  rewrite H2, H1, app_assoc. split; [done|]. by apply Forall_app.
Qed.

Lemma logsRegular_same w w' : emitted w' = emitted w -> logsRegular w w'.
Proof. intros H. exists []. by rewrite app_nil_r. Qed.

Lemma logsRegular_modify w m f : logsRegular w (modify m f w).
Proof. by apply logsRegular_same. Qed.

Lemma logsRegular_emit s w : regularSignal s -> logsRegular w (emit s w).
Proof. intros Hs. exists [s]. split; [done|]. by constructor. Qed.

Lemma close_fuel_logs n w m w' : close_fuel n w m = Some w' -> logsRegular w w'.
Proof.
  apply close_fuel_rel.
  - apply logsRegular_refl.
  - apply logsRegular_trans.
  - intros; apply logsRegular_modify.
  - intros; apply logsRegular_modify.
  - intros; apply logsRegular_modify.
  - intros; apply logsRegular_modify.
  - intros; apply logsRegular_modify.
  - intros; apply logsRegular_modify.
  - intros. by apply logsRegular_emit.
Qed.

Lemma close_logs w m w' : close w m = Some w' -> logsRegular w w'.
Proof. apply close_fuel_logs. Qed.

Lemma closeChildMenu_logs w m w' : _closeChildMenu w m = Some w' -> logsRegular w w'.
Proof.
  unfold _closeChildMenu. destruct (_childMenu (menu w m)) as [c|].
  - intros Hc. eapply logsRegular_trans; [|eapply close_logs, Hc].
    unfold unlinkChild.
    eapply logsRegular_trans; apply logsRegular_modify.
  - intros [= ->]. apply logsRegular_refl.
Qed.

Lemma triggerLoop_logs item :
  isSelectable item = true -> type item ≠ submenu ->
  ∀ n w m w' root, triggerLoop n w m item = Some (w', root) -> logsRegular w w'.
Proof.
  intros Hsel Hty. induction n as [|n IH]; intros w m w' root; simpl; [discriminate|].
  assert (H1 : logsRegular w (emit (triggered m item) w)) by by apply logsRegular_emit.
  destruct (_parentMenu _) as [p|].
  - intros H. eapply logsRegular_trans; [exact H1|]. by eapply IH.
  - by intros [= <- <-].
Qed.

Lemma triggerItem_logs w m item w' :
  isSelectable item = true -> type item ≠ submenu ->
  _triggerItem w m item = Some w' -> logsRegular w w'.
Proof.
  intros Hsel Hty. unfold _triggerItem.
  destruct (triggerLoop _ w m item) as [[w1 root]|] eqn:Hloop; [|discriminate].
  simpl. intros Hclose.
  eapply logsRegular_trans; [by eapply triggerLoop_logs|by eapply close_logs].
Qed.

Lemma prepareOpen_emitted dom m h w : emitted (prepareOpen dom m h w) = emitted w.
Proof. unfold prepareOpen. by case_match. Qed.

Lemma openSubmenu_emitted dom w m itemNode :
  emitted (after (openSubmenu dom w m itemNode)) = emitted w.
Proof.
  unfold openSubmenu. case_match. destruct itemNode as [[owner i]|]; simpl;
    apply prepareOpen_emitted.
Qed.

Lemma openRootMenu_emitted dom w m x y fx fy :
  emitted (openRootMenu dom w m x y fx fy) = emitted w.
Proof. unfold openRootMenu. case_match. simpl. apply prepareOpen_emitted. Qed.

Lemma openChildMenu_logs dom w m o :
  _openChildMenu dom w m = Some o -> logsRegular w (after o).
Proof.
  unfold _openChildMenu. intros Hopen.
  repeat case_match; outcome_inv; simplify_eq; try apply logsRegular_refl;
    try (by eapply closeChildMenu_logs).
  destruct (_closeChildMenu w m) as [w1|] eqn:Hc; [|discriminate].
  simpl in Hopen. simplify_eq.
  eapply logsRegular_trans; [by eapply closeChildMenu_logs|].
  apply logsRegular_same. by rewrite openSubmenu_emitted.
Qed.

Lemma openThenActivate_logs dom w m o :
  andThen (_openChildMenu dom w m) (activateChild m) = Some o ->
  logsRegular w (after o).
Proof.
  intros Ho.
  apply andThen_Some in Ho as [(w1 & Ho & ->)|(w1 & Ho & Hact)];
    apply openChildMenu_logs in Ho; [done|].
  unfold activateChild in Hact. simpl in Ho.
  case_match; simplify_eq; simpl; [|done].
  eapply logsRegular_trans; [exact Ho|apply logsRegular_modify].
Qed.

Lemma syncAncestors_emitted n : ∀ w cur w',
  syncAncestors n w cur = Some w' -> emitted w' = emitted w.
Proof.
  induction n as [|n IH]; intros w cur w'; simpl; [discriminate|].
  destruct cur as [k|]; [|by intros [= ->]].
  intros Hs. by apply IH in Hs.
Qed.

Lemma startOpenTimer_emitted m w : emitted (_startOpenTimer m w) = emitted w.
Proof. unfold _startOpenTimer. by case_match. Qed.

Lemma startCloseTimer_emitted m w : emitted (_startCloseTimer m w) = emitted w.
Proof. unfold _startCloseTimer. by case_match. Qed.

Lemma activeItem_selectable x item :
  activeOK x -> activeItem x = Some item -> isSelectable item = true.
Proof.
  intros [Hno|(item' & Hat & Hsel)]; unfold activeItem.
  - rewrite Hno. discriminate.
  - destruct (negb _); [|discriminate]. congruence.
Qed.

Lemma activeOK_after_set w m hit :
  activeOK (menu (modify m (setActiveIndex hit) w) m).
Proof.
  destruct (decide (m < length (menus w))%nat).
  - rewrite menu_modify_eq by done. apply setActiveIndex_activeOK.
  - rewrite modify_outside, menu_outside by lia. by left.
Qed.

Lemma sep_type_ne item :
  MenuItemType_eqb (type item) submenu = false -> type item ≠ submenu.
Proof. intros E H. apply MenuItemType_eqb_eq in H. congruence. Qed.

Lemma evtMouseUp_logs dom w m button hit o :
  _evtMouseUp dom w m button hit = Some o -> logsRegular w (after o).
Proof.
  unfold _evtMouseUp. intros Hev.
  destruct (negb (button =? 0)); [simplify_eq; apply logsRegular_refl|].
  pose proof (activeOK_after_set w m hit) as Hok.
  destruct (activeItem _) as [item|] eqn:Hitem;
    [|simplify_eq; apply logsRegular_modify].
  destruct (MenuItemType_eqb _ _) eqn:Hty.
  - apply openChildMenu_logs in Hev.
    eapply logsRegular_trans; [|exact Hev]. by apply logsRegular_same.
  - outcome_inv. apply triggerItem_logs in Hev.
    + eapply logsRegular_trans; [|exact Hev]. by apply logsRegular_same.
    + by eapply activeItem_selectable.
    + by apply sep_type_ne.
Qed.

Lemma evtMouseMove_logs w m hit w' :
  _evtMouseMove w m hit = Some w' -> logsRegular w w'.
Proof.
  unfold _evtMouseMove. intros Hev. apply logsRegular_same.
  destruct (hit =? _); [by simplify_eq|].
  destruct (syncAncestors _ _ _) as [w1|] eqn:Hs; [|discriminate].
  simpl in Hev. apply syncAncestors_emitted in Hs. simpl in Hs.
  repeat case_match; simplify_eq; simpl;
    rewrite ?startOpenTimer_emitted; simpl; rewrite ?startCloseTimer_emitted; done.
Qed.

Lemma evtKeyDown_logs dom w m kc o :
  activeOK (menu w m) ->
  _evtKeyDown dom w m kc = Some o -> logsRegular w (after o).
Proof.
  unfold _evtKeyDown. intros Hok Hev.
  repeat case_match; outcome_inv; simplify_eq; try apply logsRegular_refl;
    try apply logsRegular_modify;
    try (by eapply close_logs).
  - apply triggerItem_logs in Hev.
    + eapply logsRegular_trans; [|exact Hev]. by apply logsRegular_same.
    + by eapply activeItem_selectable.
    + apply sep_type_ne. by destruct (MenuItemType_eqb _ _).
  - apply openThenActivate_logs in Hev.
    eapply logsRegular_trans; [|exact Hev]. by apply logsRegular_same.
  - apply openThenActivate_logs in Hev.
    eapply logsRegular_trans; [|exact Hev]. by apply logsRegular_same.
Qed.

Lemma evtMouseDown_logs w m hitTest w' :
  _evtMouseDown w m hitTest = Some w' -> logsRegular w w'.
Proof.
  unfold _evtMouseDown. intros Hev.
  case_match; [simplify_eq; apply logsRegular_refl|].
  destruct (pressInChain _ _ _ _) as [[|]|]; simpl in Hev; simplify_eq;
    [apply logsRegular_refl|]. by eapply close_logs.
Qed.

Lemma closeIfAttached_logs w m w' : closeIfAttached w m = Some w' -> logsRegular w w'.
Proof.
  unfold closeIfAttached. case_match; [apply close_logs|].
  intros [= ->]. apply logsRegular_refl.
Qed.

Lemma exec_logs dom op w w' :
  allP activeOK w -> exec dom op w = Some w' -> logsRegular w w'.
Proof.
  intros Hok. unfold exec. destruct op; simpl; intros Hex; outcome_inv.
  - simplify_eq. apply logsRegular_modify.
  - unfold addItem, insertItem in Hex.
    destruct (closeIfAttached w m) as [w1|] eqn:Hc; [|discriminate].
    simpl in Hex. simplify_eq.
    eapply logsRegular_trans; [by eapply closeIfAttached_logs|apply logsRegular_modify].
  - unfold insertItem in Hex.
    destruct (closeIfAttached w m) as [w1|] eqn:Hc; [|discriminate].
    simpl in Hex. simplify_eq.
    eapply logsRegular_trans; [by eapply closeIfAttached_logs|apply logsRegular_modify].
  - unfold removeItem in Hex. case_match; [simplify_eq; apply logsRegular_refl|].
    destruct (closeIfAttached w m) as [w1|] eqn:Hc; [|discriminate].
    simpl in Hex. simplify_eq.
    eapply logsRegular_trans; [by eapply closeIfAttached_logs|apply logsRegular_modify].
  - unfold clearItems in Hex.
    destruct (closeIfAttached w m) as [w1|] eqn:Hc; [|discriminate].
    simpl in Hex. simplify_eq.
    eapply logsRegular_trans; [by eapply closeIfAttached_logs|apply logsRegular_modify].
  - simplify_eq. apply logsRegular_same. unfold open. case_match; [done|].
    apply openRootMenu_emitted.
  - by eapply close_logs.
  - destruct event; simpl in Hex; outcome_inv; simplify_eq;
      try apply logsRegular_refl.
    + by eapply evtMouseUp_logs.
    + by eapply evtMouseMove_logs.
    + apply logsRegular_same. unfold _evtMouseLeave.
      repeat case_match; simpl; rewrite ?startCloseTimer_emitted; done.
    + by eapply evtKeyDown_logs.
    + apply logsRegular_same. unfold _evtKeyPress. by case_match.
    + by eapply evtMouseDown_logs.
  - unfold openTimerFires in Hex. case_match; [simplify_eq; apply logsRegular_refl|].
    apply openChildMenu_logs in Hex.
    eapply logsRegular_trans; [|exact Hex]. by apply logsRegular_same.
  - unfold closeTimerFires in Hex. case_match; [simplify_eq; apply logsRegular_refl|].
    apply closeChildMenu_logs in Hex.
    eapply logsRegular_trans; [|exact Hex]. by apply logsRegular_same.
  - simplify_eq. apply logsRegular_modify.
Qed.

Lemma allP_activeOK_initial rs : allP activeOK (initial rs).
Proof.
  intros k. unfold menu, initial; simpl. rewrite list_lookup_fmap.
  destruct (rs !! k); simpl; by left.
Qed.

Lemma run_logs ops : ∀ w w',
  allP activeOK w -> run ops w = Some w' -> logsRegular w w'.
Proof.
  induction ops as [|[dom op] ops IH]; intros w w' Hok; simpl.
  - intros [= ->]. apply logsRegular_refl.
  - destruct (exec dom op w) as [w1|] eqn:Hex; [|discriminate]. simpl.
    intros Hrun. eapply logsRegular_trans; [by eapply exec_logs|].
    apply IH; [|done]. by eapply exec_activeOK.
Qed.

(** X5.  Whatever operations are run on freshly created menus, every
    [triggered] signal of the log carries an item that is not a
    separator, not disabled, not hidden and not a submenu item. *)
Theorem only_selectable_items_triggered (ops : list (Dom * Op))
    (renderers : list IMenuItemRenderer) (w : World) (sender : MenuId)
    (item : MenuItem) :
  run ops (initial renderers) = Some w ->
  triggered sender item ∈ emitted w ->
  type item ≠ separator ∧ disabled item = false ∧ hidden item = false ∧
  type item ≠ submenu.
Proof.
  intros Hrun Hin.
  destruct (run_logs ops _ _ (allP_activeOK_initial renderers) Hrun) as (l & Hl & Hreg).
  simpl in Hl. subst. rewrite Forall_forall in Hreg.
  destruct (Hreg _ Hin) as [Hsel Hty]. unfold isSelectable in Hsel.
  destruct (hidden item), (disabled item), (MenuItemType_eqb _ _) eqn:E;
    try discriminate.
  split_and!; try done. intros H. apply MenuItemType_eqb_eq in H. congruence.
Qed.

Lemma only_selectable_items_triggered_witness :
  run clickRun threeMenus = Some clickedWorld ∧
  triggered 0%nat leafItem ∈ emitted clickedWorld ∧
  disabled leafItem = false ∧ hidden leafItem = false.
Proof.
  assert (Hrun : run clickRun (initial [MenuItemRenderer.instance;
            MenuItemRenderer.instance; MenuItemRenderer.instance]) = Some clickedWorld)
    by (vm_compute; reflexivity).
  assert (Hin : triggered 0%nat leafItem ∈ emitted clickedWorld).
  { vm_compute. apply list_elem_of_In. simpl. tauto. }
  split; [exact Hrun|]. split; [exact Hin|].
  destruct (only_selectable_items_triggered _ _ _ _ _ Hrun Hin) as (_ & H1 & H2 & _).
  by split.
Defined.

(** ** Escape and Left on a submenu *)

Lemma childClosed_fields x :
  _childMenu (childClosed x) = None ∧ _childIndex (childClosed x) = -1 ∧
  _parentMenu (childClosed x) = _parentMenu x ∧
  _activeIndex (childClosed x) = _activeIndex x ∧
  parent (childClosed x) = parent x ∧ isAttached (childClosed x) = isAttached x ∧
  _items (childClosed x) = _items x ∧ _nodes (childClosed x) = _nodes x.
Proof. unfold childClosed. unfold_menu_fns. repeat case_match; done. Qed.

Lemma close_leaf w m p :
  childOf w m = None -> parentOf w m = Some p -> p ≠ m ->
  displayed (menu w m) -> (p < length (menus w))%nat ->
  ∃ w', close w m = Some w' ∧
        emitted w' = emitted w ++ [closed m] ∧
        shut (menu w' m) ∧
        menu w' p = childClosed (menu w p) ∧
        (∀ k, k ≠ m -> k ≠ p -> menu w' k = menu w k) ∧
        length (menus w') = length (menus w).
Proof.
  intros Hc Hp Hne Hd Hpin.
  set (w0 := closeHead w m).
  set (w1 := modify p (set_childLink (-1) None)
               (modify p _cancelCloseTimer
                  (modify p _cancelOpenTimer (modify m (set_parentMenu None) w0)))).
  assert (Hclose : close w m = Some (emit (closed m) (modify m unmount w1))).
  { unfold close, fuelOf. cbn [close_fuel]. fold w0.
    destruct (closeHead_sameLinks w m m) as (E1 & E2 & _). fold w0 in E1, E2.
    unfold childOf, parentOf in *. rewrite E1, Hc. simpl.
    unfold closeTail. rewrite E2, Hp. fold w1.
    assert (Hd1 : displayed (menu w1 m)).
    { unfold displayed, w1 in *. rewrite !menu_modify_ne by done.
      rewrite !(field_modify_keep parent), !(field_modify_keep isAttached) by done.
      unfold w0. by destruct (closeHead_mount w m m) as [-> ->]. }
    destruct Hd1 as [Hd1|Hd1].
    - by rewrite bool_decide_eq_true_2.
    - rewrite Hd1. by case_bool_decide. }
  exists (emit (closed m) (modify m unmount w1)).
  split; [exact Hclose|]. split; [done|]. split; [|split; [|split]].
  - unfold close in Hclose. by eapply close_fuel_shut.
  - rewrite menu_emit, menu_modify_ne by done. unfold w1.
    rewrite !menu_modify_eq by (rewrite ?length_modify; unfold w0, closeHead;
                                 rewrite ?length_modify; done).
    rewrite menu_modify_ne by done. unfold w0. by rewrite closeHead_other.
  - intros k Hkm Hkp. rewrite menu_emit. unfold w1.
    rewrite !menu_modify_ne by done. unfold w0. by rewrite closeHead_other.
  - unfold emit; cbn [menus]. unfold w1, w0, closeHead. by rewrite !length_modify.
Qed.

Lemma adjacent_app_last w : ∀ up p m,
  adjacent w (up ++ [p; m]) ->
  childOf w p = Some m ∧ parentOf w m = Some p ∧ childOf w m = None.
Proof.
  intros up p m H. apply adjacent_suffix in H. simpl in H. tauto.
Qed.

(** Dropping the last menu of a chain whose parent lost its child. *)
Lemma adjacent_drop_last w w' : ∀ up p m,
  adjacent w (up ++ [p; m]) -> NoDup (up ++ [p; m]) ->
  childOf w' p = None ->
  (∀ k, k ≠ m -> k ≠ p -> menu w' k = menu w k) ->
  parentOf w' p = parentOf w p ->
  adjacent w' (up ++ [p]).
Proof.
  induction up as [|q up IH]; intros p m Hadj Hnd Hcp Hframe Hpp.
  - simpl. done.
  - simpl in Hadj, Hnd. apply NoDup_cons in Hnd as [Hq Hnd].
    destruct Hadj as [Hq1 Hadj].
    assert (Hqm : q ≠ m) by (intros ->; apply Hq; rewrite elem_of_app, !elem_of_cons; auto).
    assert (Hqp : q ≠ p) by (intros ->; apply Hq; rewrite elem_of_app, !elem_of_cons; auto).
    simpl. split; [|by eapply IH].
    destruct up as [|q1 up]; simpl in *.
    + destruct Hq1 as [Hq1 Hq2]. unfold childOf, parentOf in *.
      rewrite (Hframe q) by done. split; [done|]. by rewrite Hpp.
    + destruct Hq1 as [Hq1 Hq2]. unfold childOf, parentOf in *.
      apply NoDup_cons in Hnd as [Hq1' Hnd].
      rewrite (Hframe q) by done. rewrite (Hframe q1); [done| |];
        intros ->; apply Hq1'; rewrite elem_of_app, !elem_of_cons; auto.
Qed.

(** X6.  Escape (27) or Left (37) on the deepest menu [m] of an open chain,
    under its parent [p]: the handler returns, [m] emits [closed], the
    only signal, and ends closed; the chain down to [p] stays open, [p]
    now its deepest menu with its selection kept; no other menu
    changes. *)
Theorem leaf_key_closes_leaf_only (w : World) (up : list MenuId) (p m : MenuId)
    (dom : Dom) (kc : Z) :
  openChain w (up ++ [p; m]) ->
  kc = 27 ∨ kc = 37 ->
  ∃ w', _evtKeyDown dom w m kc = Some (returned w') ∧
        emitted w' = emitted w ++ [closed m] ∧
        shut (menu w' m) ∧
        openChain w' (up ++ [p]) ∧
        _activeIndex (menu w' p) = _activeIndex (menu w p) ∧
        (∀ k, k ≠ m -> k ≠ p -> menu w' k = menu w k).
Proof.
  intros (Hroot & Hadj & Hnd & Hdisp) Hkc.
  destruct (adjacent_app_last _ _ _ _ Hadj) as (Hpc & Hmp & Hmc).
  assert (Hne : p ≠ m).
  { intros ->. apply NoDup_app in Hnd as (_ & _ & Hnd).
    apply NoDup_cons in Hnd as [Hnd _]. apply Hnd, list_elem_of_here. }
  rewrite Forall_app in Hdisp. destruct Hdisp as [Hdup Hdpm].
  apply Forall_cons in Hdpm as [Hdp Hdm]. apply Forall_cons in Hdm as [Hdm _].
  destruct (close_leaf w m p Hmc Hmp Hne Hdm (displayed_in_store _ _ Hdp))
    as (w' & Hclose & Hem & Hshut & Hpar & Hframe & Hlen).
  exists w'. split.
  { unfold _evtKeyDown. unfold childOf, parentOf in *.
    rewrite bool_decide_eq_false_2 by (rewrite Hmc; intros H; by apply H).
    destruct Hkc as [-> | ->]; simpl; [by rewrite Hclose|].
    rewrite bool_decide_eq_true_2; [by rewrite Hclose|]. by rewrite Hmp. }
  split; [done|]. split; [done|]. split; [|split; [|done]].
  - split; [|split; [|split]].
    + destruct up as [|root up]; simpl in *.
      * unfold parentOf in *. rewrite Hpar.
        by destruct (childClosed_fields (menu w p)) as (_ & _ & -> & _).
      * unfold parentOf in *. rewrite Hframe; [done| |];
          intros ->; apply NoDup_cons in Hnd as [Hnd _]; apply Hnd;
          rewrite elem_of_app, !elem_of_cons; auto.
    + eapply adjacent_drop_last; try done.
      * unfold childOf. rewrite Hpar. apply childClosed_fields.
      * unfold parentOf. rewrite Hpar. apply childClosed_fields.
    + replace (up ++ [p; m]) with ((up ++ [p]) ++ [m]) in Hnd by by rewrite <- app_assoc.
      by apply NoDup_app in Hnd as (Hnd & _ & _).
    + rewrite Forall_app. split.
      * rewrite Forall_forall in Hdup |- *. intros k Hk.
        rewrite Hframe; [by apply Hdup| |]; intros ->;
          apply NoDup_app in Hnd as (_ & Hnd & _); apply (Hnd _ Hk);
          rewrite !elem_of_cons; auto.
      * constructor; [|constructor]. rewrite Hpar. unfold displayed in *.
        by destruct (childClosed_fields (menu w p)) as (_ & _ & _ & _ & -> & -> & _).
  - rewrite Hpar. apply childClosed_fields.
Qed.

(** ** Enter and Right on a submenu item *)

Lemma prepareOpen_other dom m h w k : k ≠ m -> menu (prepareOpen dom m h w) k = menu w k.
Proof.
  intros Hk. unfold prepareOpen. case_match; by rewrite !menu_modify_ne.
Qed.

(** What [openSubmenu] does when it is handed [undefined]. *)
Lemma openSubmenu_undefined dom w sub :
  openSubmenu dom w sub None = raised (prepareOpen dom sub (clientHeight dom) w).
Proof. unfold openSubmenu. by case_match. Qed.

Lemma prepareOpen_fields dom m h w :
  (m < length (menus w))%nat ->
  let x := menu (prepareOpen dom m h w) m in
  isAttached x = true ∧ parent x = parent (menu w m) ∧
  _items x = _items (menu w m) ∧ _activeIndex x = _activeIndex (menu w m) ∧
  style_hidden (style x) = true ∧
  style_top (style x) = None ∧ style_left (style x) = None.
Proof.
  intros Hm. unfold prepareOpen.
  case_match; simpl;
    rewrite !menu_modify_eq by (rewrite ?length_modify; done);
    unfold_menu_fns; simpl; done.
Qed.

(** Appending a freshly linked child to a chain. *)
Lemma adjacent_extend w w' sub : ∀ up m,
  adjacent w (up ++ [m]) -> NoDup (up ++ [m]) -> sub ∉ up ++ [m] ->
  (∀ k, k ∈ up -> menu w' k = menu w k) ->
  childOf w' m = Some sub -> parentOf w' sub = Some m -> childOf w' sub = None ->
  parentOf w' m = parentOf w m ->
  adjacent w' (up ++ [m; sub]).
Proof.
  induction up as [|q up IH]; intros m Hadj Hnd Hsub Hframe Hmc Hsp Hsc Hmp.
  - simpl. done.
  - simpl in Hadj, Hnd. apply NoDup_cons in Hnd as [Hq Hnd].
    destruct Hadj as [Hq1 Hadj].
    simpl. split.
    + destruct up as [|q1 up]; simpl in *.
      * destruct Hq1 as [Hq1 Hq2]. unfold childOf, parentOf in *.
        rewrite (Hframe q) by apply list_elem_of_here. split; [done|].
        by rewrite Hmp.
      * destruct Hq1 as [Hq1 Hq2]. unfold childOf, parentOf in *.
        rewrite (Hframe q) by apply list_elem_of_here.
        rewrite (Hframe q1); [done|].
        apply list_elem_of_further, list_elem_of_here.
    + apply IH; try done.
      * intros H. apply Hsub. by apply list_elem_of_further.
      * intros k Hk. apply Hframe. by apply list_elem_of_further.
Qed.

Lemma cancelTimers_fields x :
  let y := _cancelCloseTimer (_cancelOpenTimer x) in
  activeItem y = activeItem x ∧ _activeIndex y = _activeIndex x ∧
  _childMenu y = _childMenu x ∧ _parentMenu y = _parentMenu x ∧
  _items y = _items x ∧ parent y = parent x ∧ isAttached y = isAttached x.
Proof.
  simpl. unfold _cancelCloseTimer, _cancelOpenTimer.
  destruct (negb (_openTimerID x =? 0)); simpl;
    destruct (negb (_ =? 0)); simpl; done.
Qed.

(** What [Enter] or [Right Arrow] does on a leaf whose active item is a
    submenu item: the handler is ended by the [TypeError] of
    [openSubmenu]. *)
Lemma open_by_key dom w m item sub kc :
  childOf w m = None ->
  activeItem (menu w m) = Some item -> type item = submenu ->
  item_submenu item = Some sub ->
  (m < length (menus w))%nat -> (sub < length (menus w))%nat -> sub ≠ m ->
  kc = 13 ∨ kc = 39 ->
  ∃ w',
    _evtKeyDown dom w m kc = Some (raised w') ∧
    emitted w' = emitted w ∧
    (∀ k, k ≠ m -> k ≠ sub -> menu w' k = menu w k) ∧
    menu w' m = set_childLink (_activeIndex (menu w m)) (Some sub)
                  (_cancelCloseTimer (_cancelOpenTimer (menu w m))) ∧
    _parentMenu (menu w' sub) = Some m ∧
    _childMenu (menu w' sub) = _childMenu (menu w sub) ∧
    isAttached (menu w' sub) = true ∧
    _items (menu w' sub) = _items (menu w sub) ∧
    _activeIndex (menu w' sub) = _activeIndex (menu w sub) ∧
    style_hidden (style (menu w' sub)) = true ∧
    style_top (style (menu w' sub)) = None ∧
    style_left (style (menu w' sub)) = None.
Proof.
  intros Hmc Hact Hty Hsub Hm Hs Hne Hkc.
  set (w0 := modify m _cancelCloseTimer (modify m _cancelOpenTimer w)).
  set (x0 := _cancelCloseTimer (_cancelOpenTimer (menu w m))).
  assert (Hx0 : menu w0 m = x0).
  { unfold w0, x0. by rewrite !menu_modify_eq by (rewrite ?length_modify; done). }
  destruct (cancelTimers_fields (menu w m)) as (Hact0 & Hai0 & Hc0 & _).
  fold x0 in Hact0, Hai0, Hc0. rewrite Hact in Hact0.
  unfold childOf in Hmc. rewrite Hmc in Hc0.
  set (w2 := modify sub (set_parentMenu (Some m))
               (modify m (λ x, set_childLink (_activeIndex x) (Some sub) x) w0)).
  set (w3 := prepareOpen dom sub (clientHeight dom) w2).
  assert (Hlen2 : length (menus w2) = length (menus w)).
  { unfold w2, w0. by rewrite !length_modify. }
  assert (Hopen : _openChildMenu dom w0 m = Some (raised w3)).
  { unfold _openChildMenu. rewrite Hx0, Hact0, Hty, Hsub.
    rewrite bool_decide_eq_false_2 by (rewrite Hc0; discriminate).
    unfold _closeChildMenu. rewrite Hx0, Hc0. simpl.
    unfold activeItemNode. by rewrite openSubmenu_undefined. }
  assert (Hm3 : menu w3 m = set_childLink (_activeIndex (menu w m)) (Some sub) x0).
  { unfold w3. rewrite prepareOpen_other by done. unfold w2.
    rewrite menu_modify_ne by done.
    rewrite menu_modify_eq by (unfold w0; rewrite !length_modify; done).
    by rewrite Hx0, Hai0. }
  assert (Hs2 : menu w2 sub = set_parentMenu (Some m) (menu w sub)).
  { unfold w2. rewrite menu_modify_eq by (unfold w0; rewrite !length_modify; done).
    unfold w0. by rewrite !menu_modify_ne by done. }
  exists w3.
  assert (Hkey : _evtKeyDown dom w m kc = Some (raised w3)).
  { unfold _evtKeyDown.
    rewrite bool_decide_eq_false_2 by (rewrite Hmc; intros H; by apply H).
    destruct Hkc as [-> | ->]; simpl; rewrite Hact, Hty; simpl; fold w0;
      rewrite Hopen; done. }
  split; [exact Hkey|].
  destruct (prepareOpen_fields dom sub (clientHeight dom) w2 ltac:(lia))
    as (F1 & F2 & F3 & F4 & F5 & F6 & F7).
  fold w3 in F1, F2, F3, F4, F5, F6, F7.
  destruct (prepareOpen_sameLinks dom sub (clientHeight dom) w2 sub) as (L1 & L2 & _).
  fold w3 in L1, L2. unfold childOf, parentOf in L1, L2.
  split_and!; try done.
  - unfold w3. by rewrite prepareOpen_emitted.
  - intros k Hkm Hks. unfold w3.
    rewrite prepareOpen_other by done. unfold w2, w0.
    by rewrite !menu_modify_ne by done.
  - rewrite L2, Hs2. done.
  - rewrite L1, Hs2. done.
  - rewrite F3, Hs2. done.
  - rewrite F4, Hs2. done.
Qed.

Lemma shut_not_displayed x : shut x -> ¬ displayed x.
Proof.
  intros (_ & _ & _ & _ & _ & Hp & Ha) [H|H]; congruence.
Qed.

(** X7.  Enter (13) or Right (39) on the deepest menu [m] of an open
    chain, when its active item is a submenu item for a closed menu [sub]
    of the store: the handler does not return, it is ended by the
    [TypeError] that [openSubmenu] raises on the undefined
    [this.activeItemNode].  No signal is emitted; by then [m] has [sub] as
    its child with its selection as child index, and [sub] is attached, so
    the chain is longer by [sub]; but [sub] is left hidden and without a
    position, and the first item of [sub] is not activated: nothing is
    selected in it. *)
Theorem key_on_submenu_item_raises (w : World) (up : list MenuId)
    (m sub : MenuId) (item : MenuItem) (dom : Dom) (kc : Z) :
  openChain w (up ++ [m]) ->
  activeItem (menu w m) = Some item ->
  type item = submenu -> item_submenu item = Some sub ->
  (sub < length (menus w))%nat -> shut (menu w sub) ->
  kc = 13 ∨ kc = 39 ->
  ∃ w', _evtKeyDown dom w m kc = Some (raised w') ∧
        emitted w' = emitted w ∧
        openChain w' (up ++ [m; sub]) ∧
        _childIndex (menu w' m) = _activeIndex (menu w m) ∧
        _activeIndex (menu w' m) = _activeIndex (menu w m) ∧
        _activeIndex (menu w' sub) = -1 ∧
        style_hidden (style (menu w' sub)) = true ∧
        style_top (style (menu w' sub)) = None ∧
        style_left (style (menu w' sub)) = None ∧
        (∀ k, k ≠ m -> k ≠ sub -> menu w' k = menu w k).
Proof.
  intros (Hroot & Hadj & Hnd & Hdisp) Hact Hty Hsub Hs Hshut Hkc.
  assert (Hmc : childOf w m = None).
  { apply adjacent_suffix in Hadj. simpl in Hadj. tauto. }
  assert (Hdm : displayed (menu w m)).
  { rewrite Forall_app in Hdisp. destruct Hdisp as [_ Hd].
    by apply Forall_cons in Hd as [Hd _]. }
  assert (Hnotin : sub ∉ up ++ [m]).
  { intros Hin. rewrite Forall_forall in Hdisp.
    by apply (shut_not_displayed _ Hshut), Hdisp. }
  assert (Hne : sub ≠ m).
  { intros ->. apply Hnotin. rewrite elem_of_app, elem_of_cons. auto. }
  destruct (open_by_key dom w m item sub kc Hmc Hact Hty Hsub
              (displayed_in_store _ _ Hdm) Hs Hne Hkc)
    as (w' & Hkey & Hem & Hframe & Hm' & Hsp & Hsc & Hsa & Hsi & Hsai
        & Hhid & Htop & Hleft).
  destruct (cancelTimers_fields (menu w m)) as (_ & C2 & C3 & C4 & _ & C6 & C7).
  simpl in C2, C3, C4, C6, C7.
  assert (Hup : ∀ k, k ∈ up -> menu w' k = menu w k).
  { intros k Hk. apply Hframe.
    - intros ->. apply NoDup_app in Hnd as (_ & Hnd & _). apply (Hnd _ Hk).
      apply list_elem_of_here.
    - intros ->. apply Hnotin. rewrite elem_of_app. auto. }
  exists w'. split; [exact Hkey|]. split; [exact Hem|]. split_and!; try done.
  - split_and!.
    + destruct up as [|root up]; simpl in *.
      * unfold parentOf in *. rewrite Hm'. simpl. by rewrite C4.
      * unfold parentOf in *. rewrite Hup; [done|apply list_elem_of_here].
    + eapply adjacent_extend; try done; unfold childOf, parentOf.
      * by rewrite Hm'.
      * rewrite Hsc. apply Hshut.
      * rewrite Hm'. simpl. by rewrite C4.
    + replace (up ++ [m; sub]) with ((up ++ [m]) ++ [sub]) by by rewrite <- app_assoc.
      apply NoDup_app. split; [done|]. split; [|apply NoDup_singleton].
      intros k Hk Hk'. apply list_elem_of_singleton in Hk' as ->. by apply Hnotin.
    + replace (up ++ [m; sub]) with ((up ++ [m]) ++ [sub]) by by rewrite <- app_assoc.
      rewrite Forall_app. split.
      * rewrite Forall_forall in Hdisp |- *. intros k Hk.
        apply elem_of_app in Hk as [Hk|Hk].
        -- rewrite Hup by done. apply Hdisp. rewrite elem_of_app. auto.
        -- apply list_elem_of_singleton in Hk as ->.
           unfold displayed in *. rewrite Hm'. simpl. by rewrite C6, C7.
      * constructor; [|constructor]. by right.
  - rewrite Hm'. done.
  - rewrite Hm'. simpl. done.
  - rewrite Hsai. apply Hshut.
Qed.

(** ** A press outside the menus *)

Lemma pressInChain_adjacent w hitTest : ∀ l c fuel,
  adjacent w (c :: l) -> (S (length l) < fuel)%nat ->
  pressInChain fuel w (Some c) hitTest = Some (existsb hitTest (c :: l)).
Proof.
  induction l as [|c1 l IH]; intros c fuel Hadj Hfuel;
    (destruct fuel as [|fuel]; [simpl in Hfuel; lia|]).
  - destruct Hadj as [Hc _]. unfold childOf in Hc. simpl.
    destruct (hitTest c); [done|]. rewrite Hc.
    destruct fuel; [simpl in Hfuel; lia|done].
  - destruct Hadj as [[Hc _] Hadj]. unfold childOf in Hc.
    cbn [pressInChain]. cbn [existsb]. destruct (hitTest c); [done|].
    rewrite Hc. rewrite IH; [done|done|simpl in *; lia].
Qed.

Lemma adjacent_has_parent w : ∀ l c k,
  adjacent w (c :: l) -> k ∈ l -> parentOf w k ≠ None.
Proof.
  induction l as [|c1 l IH]; intros c k Hadj Hk.
  - by apply elem_of_nil in Hk.
  - destruct Hadj as [[_ Hp] Hadj].
    apply elem_of_cons in Hk as [->|Hk]; [by rewrite Hp|].
    by eapply IH.
Qed.

(** X8.  A mouse press handled by the root of an open chain: when it hits
    no menu of the chain, every menu of the chain emits [closed], the
    deepest first and the root last, and ends closed, and the menus
    outside the chain are untouched; when it hits one of them nothing
    changes.  A press handled by a menu below the root changes
    nothing. *)
Theorem press_outside_closes_chain (w : World) (root : MenuId)
    (l : list MenuId) (hitTest : MenuId -> bool) :
  openChain w (root :: l) ->
  ((∀ k, k ∈ root :: l -> hitTest k = false) ->
   ∃ w', _evtMouseDown w root hitTest = Some w' ∧
         emitted w' = emitted w ++ map closed (reverse (root :: l)) ∧
         (∀ k, k ∈ root :: l -> shut (menu w' k)) ∧
         (∀ k, k ∉ root :: l -> menu w' k = menu w k)) ∧
  (∀ k, k ∈ root :: l -> hitTest k = true ->
        _evtMouseDown w root hitTest = Some w) ∧
  (∀ k, k ∈ l -> _evtMouseDown w k hitTest = Some w).
Proof.
  intros (Hroot & Hadj & Hnd & Hdisp).
  pose proof (chain_length _ _ Hnd Hdisp) as Hlen. simpl in Hlen.
  assert (Hpress : pressInChain (fuelOf w) w (Some root) hitTest
                   = Some (existsb hitTest (root :: l))).
  { apply pressInChain_adjacent; [done|]. unfold fuelOf. lia. }
  unfold parentOf in Hroot.
  split_and!.
  - intros Hout. unfold _evtMouseDown.
    rewrite bool_decide_eq_false_2 by (rewrite Hroot; intros H; by apply H).
    rewrite Hpress. simpl.
    assert (existsb hitTest (root :: l) = false) as Hex.
    { destruct (existsb _ _) eqn:E; [|done].
      apply existsb_exists in E as (k & Hk & Hhit).
      apply list_elem_of_In in Hk. rewrite Hout in Hhit by done. discriminate. }
    simpl in Hex. rewrite Hex.
    apply close_fuel_chain; try done. unfold fuelOf. lia.
  - intros k Hk Hhit. unfold _evtMouseDown.
    rewrite bool_decide_eq_false_2 by (rewrite Hroot; intros H; by apply H).
    rewrite Hpress. simpl.
    assert (existsb hitTest (root :: l) = true) as Hex.
    { apply existsb_exists. exists k. split; [by apply list_elem_of_In|done]. }
    simpl in Hex. by rewrite Hex.
  - intros k Hk. unfold _evtMouseDown.
    rewrite bool_decide_eq_true_2; [done|].
    by apply (adjacent_has_parent w l root).
Qed.

(** ** The active class after rendering *)

Lemma contains_add_ne c d n :
  c ≠ d -> classList_contains c (classList_add d n) = classList_contains c n.
Proof.
  intros Hne. unfold classList_add. destruct (classList_contains d n); [done|].
  unfold classList_contains. simpl. apply bool_decide_ext.
  rewrite elem_of_app, list_elem_of_singleton. naive_solver.
Qed.

Lemma contains_add_eq c n : classList_contains c (classList_add c n) = true.
Proof.
  unfold classList_add. destruct (classList_contains c n) eqn:E; [done|].
  unfold classList_contains. simpl. apply bool_decide_eq_true_2.
  rewrite elem_of_app, list_elem_of_singleton. auto.
Qed.

(** The classes other than the hidden one, through the three loops. *)
Lemma hideNode_others nodes k i c :
  c ≠ HIDDEN_CLASS ->
  classList_contains c <$> hideNode nodes k !! i = classList_contains c <$> nodes !! i.
Proof.
  intros Hc. unfold hideNode, update_at. case_match; [done|].
  destruct (decide (i = Z.to_nat k)) as [->|Hne].
  - rewrite list_lookup_alter_eq. destruct (nodes !! _); simpl; [|done].
    by rewrite contains_add_ne.
  - by rewrite list_lookup_alter_ne.
Qed.

Lemma hideLeading_others c i : c ≠ HIDDEN_CLASS -> ∀ rest k nodes,
  classList_contains c <$> (hideLeading rest k nodes).2 !! i
  = classList_contains c <$> nodes !! i.
Proof.
  intros Hc. induction rest as [|item rest IH]; intros k nodes; simpl; [done|].
  repeat case_match; simpl; rewrite ?IH; try done. by apply hideNode_others.
Qed.

Lemma hideTrailing_others c i : c ≠ HIDDEN_CLASS -> ∀ rest k nodes,
  classList_contains c <$> (hideTrailing rest k nodes).2 !! i
  = classList_contains c <$> nodes !! i.
Proof.
  intros Hc. induction rest as [|item rest IH]; intros k nodes; simpl; [done|].
  repeat case_match; simpl; rewrite ?IH; try done. by apply hideNode_others.
Qed.

Lemma hideConsecutive_others c i : c ≠ HIDDEN_CLASS -> ∀ rest k1 k2 hide nodes,
  classList_contains c <$> hideConsecutive rest k1 k2 hide nodes !! i
  = classList_contains c <$> nodes !! i.
Proof.
  intros Hc. induction rest as [|item rest IH]; intros k1 k2 hide nodes; simpl; [done|].
  repeat case_match; simpl; rewrite ?IH; try done. by apply hideNode_others.
Qed.

Lemma hideExtraSeparators_others c i items nodes :
  c ≠ HIDDEN_CLASS ->
  classList_contains c <$> hideExtraSeparators items nodes !! i
  = classList_contains c <$> nodes !! i.
Proof.
  intros Hc. unfold hideExtraSeparators.
  pose proof (hideLeading_others c i Hc items 0 nodes) as H1.
  destruct (hideLeading items 0 nodes) as [k1 nodes1]. simpl in H1.
  pose proof (hideTrailing_others c i Hc (reverse items) (len items - 1) nodes1) as H2.
  destruct (hideTrailing _ _ nodes1) as [k2 nodes2]. simpl in H2.
  by rewrite hideConsecutive_others, H2, H1.
Qed.

(** The first loop of [onUpdateRequest]. *)
Lemma updateNodes_lookup r : ∀ rest k nodes i,
  updateNodes r rest (Z.of_nat k) nodes !! i =
  match rest !! (i - k)%nat with
  | Some item =>
      if decide (k <= i)%nat then (λ node, updateItemNode r node item) <$> nodes !! i
      else nodes !! i
  | None => nodes !! i
  end.
Proof.
  induction rest as [|item rest IH]; intros k nodes i; simpl.
  - done.
  - replace (Z.of_nat k + 1) with (Z.of_nat (S k)) by lia. rewrite IH.
    unfold update_at. rewrite (proj2 (Z.ltb_ge _ _)) by lia. rewrite Nat2Z.id.
    destruct (decide (i = k)) as [->|Hne].
    + replace (k - S k)%nat with 0%nat by lia. rewrite Nat.sub_diag. simpl.
      destruct (rest !! 0%nat); repeat case_decide; try lia;
        by rewrite list_lookup_alter_eq.
    + rewrite list_lookup_alter_ne by done.
      destruct (decide (k < i)%nat).
      * replace (i - k)%nat with (S (i - S k)) by lia. simpl.
        destruct (rest !! _); [|done]. repeat case_decide; try lia; done.
      * replace (i - S k)%nat with 0%nat by lia.
        replace (i - k)%nat with 0%nat by lia. simpl.
        destruct (rest !! 0%nat); repeat case_decide; try lia; done.
Qed.

Lemma default_class_active item :
  ACTIVE_CLASS ∉ words (className item) ->
  ACTIVE_CLASS ∉ MenuItemRenderer.createItemClassName item.
Proof.
  intros Hno Hin. apply Hno. unfold MenuItemRenderer.createItemClassName in Hin.
  destruct (type item), (disabled item), (checked item), (hidden item); simpl in Hin;
    rewrite ?elem_of_app, ?elem_of_cons, ?elem_of_nil in Hin;
    unfold ACTIVE_CLASS, SEPARATOR_TYPE_CLASS, DISABLED_CLASS, HIDDEN_CLASS, ITEM_CLASS,
      NORMAL_TYPE_CLASS, CHECK_TYPE_CLASS, RADIO_TYPE_CLASS, SUBMENU_TYPE_CLASS,
      CHECKED_CLASS in *;
    naive_solver.
Qed.

(** X9.  After [onUpdateRequest] with the default renderer, on a menu
    with paired vectors and a selectable selection, the node of an item
    whose own class name does not hold the active mark carries the active
    class exactly when the item is the active one. *)
Theorem render_marks_active_only (x : Menu) (i : nat) (item : MenuItem) :
  _renderer x = MenuItemRenderer.instance ->
  sameLength x -> activeOK x ->
  _items x !! i = Some item ->
  ACTIVE_CLASS ∉ words (className item) ->
  ∃ node, _nodes (onUpdateRequest x) !! i = Some node ∧
          (classList_contains ACTIVE_CLASS node = true ↔ _activeIndex x = Z.of_nat i).
Proof.
  intros Hr Hlen _ Hitem Hno. unfold sameLength in Hlen.
  assert (Hi : (i < length (_nodes x))%nat).
  { rewrite <- Hlen. by eapply lookup_lt_Some. }
  destruct (lookup_lt_is_Some_2 _ _ Hi) as [node0 Hnode0].
  unfold onUpdateRequest. cbn [_nodes set_nodes set_vectors].
  set (nodes1 := updateNodes (_renderer x) (_items x) 0 (_nodes x)).
  set (nodes2 := if negb (_activeIndex x =? -1)
                 then update_at nodes1 (_activeIndex x) (classList_add ACTIVE_CLASS)
                 else nodes1).
  assert (H1 : nodes1 !! i = Some (MenuItemRenderer.updateItemNode node0 item)).
  { unfold nodes1. rewrite (updateNodes_lookup _ _ 0%nat).
    rewrite Nat.sub_0_r, Hitem, decide_True by lia. rewrite Hnode0, Hr. done. }
  assert (H2 : ∃ node, nodes2 !! i = Some node ∧
                (classList_contains ACTIVE_CLASS node = true ↔
                 _activeIndex x = Z.of_nat i)).
  { assert (Hplain : classList_contains ACTIVE_CLASS
                       (MenuItemRenderer.updateItemNode node0 item) = false).
    { unfold classList_contains. simpl. apply bool_decide_eq_false_2.
      by apply default_class_active. }
    unfold nodes2. destruct (_activeIndex x =? -1) eqn:E; simpl.
    - apply Z.eqb_eq in E. eexists. split; [exact H1|]. rewrite Hplain. split; [done|lia].
    - unfold update_at. destruct (_activeIndex x <? 0) eqn:E0.
      + apply Z.ltb_lt in E0. eexists. split; [exact H1|]. rewrite Hplain.
        split; [done|lia].
      + apply Z.ltb_ge in E0.
        destruct (decide (i = Z.to_nat (_activeIndex x))) as [->|Hne].
        * rewrite list_lookup_alter_eq, H1. simpl. eexists. split; [done|].
          rewrite contains_add_eq. split; [lia|done].
        * rewrite list_lookup_alter_ne, H1 by done. eexists. split; [done|].
          rewrite Hplain. split; [done|lia]. }
  destruct H2 as (node2 & Hn2 & Hiff).
  pose proof (hideExtraSeparators_others ACTIVE_CLASS i (_items x) nodes2
                ltac:(discriminate)) as H3.
  rewrite Hn2 in H3. simpl in H3.
  destruct (hideExtraSeparators (_items x) nodes2 !! i) as [node|]; [|discriminate].
  exists node. split; [done|]. simpl in H3. injection H3 as H3. by rewrite H3.
Qed.

(** ** A root menu stays on the screen *)

(** X10.  A root menu opened without forced placement whose measured size
    is at most [pageXOffset + clientWidth] by [pageYOffset + clientHeight]
    is placed with its left and top at or after [0] and its right and
    bottom edges at or before those two bounds. *)
Theorem root_menu_stays_on_screen (dom : Dom) (w : World) (m : MenuId)
    (x y width height : Z) :
  (m < length (menus w))%nat ->
  isAttached (menu w m) = false ->
  measure dom (prepareOpen dom m (clientHeight dom - 0) w) m = (width, height) ->
  width <= pageXOffset dom + clientWidth dom ->
  height <= pageYOffset dom + clientHeight dom ->
  ∃ left top,
    style_left (style (menu (open dom w m x y false false) m)) = Some left ∧
    style_top (style (menu (open dom w m x y false false) m)) = Some top ∧
    0 <= left ∧ left + width <= pageXOffset dom + clientWidth dom ∧
    0 <= top ∧ top + height <= pageYOffset dom + clientHeight dom.
Proof.
  intros Hm Hatt Hsize Hw Hh. unfold open. rewrite Hatt.
  unfold openRootMenu. cbn zeta. simpl (if false then _ else _). rewrite Hsize.
  destruct (style_place m (adjustX false x width (pageXOffset dom) (clientWidth dom))
              (adjustY false y height (pageYOffset dom) (clientHeight dom))
              (prepareOpen dom m (clientHeight dom - 0) w)) as [Ht Hl].
  { by rewrite length_prepareOpen. }
  eexists _, _. split; [exact Hl|]. split; [exact Ht|].
  unfold adjustX, adjustY. simpl.
  destruct (x + width >? _) eqn:Ex; destruct (y + height >? _) eqn:Ey;
    try destruct (y >? _) eqn:Ey2;
    rewrite ?Z.gtb_gt in *; rewrite ?Z.gtb_ltb, ?Z.ltb_ge in *; lia.
Qed.

(** ** Inserting and removing an item *)

Lemma vec_remove_insert {A} (l : list A) i v :
  0 <= i <= len l -> vec_remove (vec_insert l i v) i = l.
Proof.
  intros Hi. unfold vec_remove, vec_insert, len in *.
  assert (Hlen : length (take (Z.to_nat i) l) = Z.to_nat i).
  { rewrite length_take. lia. }
  rewrite <- Hlen at 1. rewrite delete_middle. apply take_drop.
Qed.

Lemma at_vec_insert {A} (l : list A) i v :
  0 <= i <= len l -> at_ (vec_insert l i v) i = Some v.
Proof.
  intros Hi. unfold at_, vec_insert, len in *.
  rewrite (proj2 (Z.ltb_ge _ _)) by lia.
  assert (Hlen : length (take (Z.to_nat i) l) = Z.to_nat i).
  { rewrite length_take. lia. }
  rewrite <- Hlen at 3. by rewrite list_lookup_middle.
Qed.

Lemma closeIfAttached_detached w m :
  ∃ w0, closeIfAttached w m = Some w0 ∧
        isAttached (menu w0 m) = false ∧
        _items (menu w0 m) = _items (menu w m) ∧
        length (_nodes (menu w0 m)) = length (_nodes (menu w m)) ∧
        length (menus w0) = length (menus w) ∧
        (isAttached (menu w m) = false -> w0 = w).
Proof.
  unfold closeIfAttached. destruct (isAttached (menu w m)) eqn:Hatt.
  - destruct (close_returns w m) as [w0 Hc]. exists w0. split; [done|].
    unfold close in Hc.
    pose proof (close_fuel_shut _ _ _ _ Hc) as Hshut.
    destruct (close_fuel_quieter _ _ _ _ Hc) as (Hq & Hl & _).
    destruct (Hq m) as (_ & _ & _ & _ & _ & _ & _ & _ & Hi & Hn & _).
    split_and!; try done. apply Hshut.
  - exists w. split_and!; done.
Qed.

(** X11.  [insertItem] at any index, followed by [removeItem] at that
    index clamped to the bounds of the items: both return, the item is
    at the clamped index in between, and afterwards the items are the
    ones before with nothing selected; when the menu was not attached
    its nodes are the ones before as well and no other menu changes. *)
Theorem insert_then_remove_restores (w : World) (m : MenuId) (index : Z)
    (item : MenuItem) :
  (m < length (menus w))%nat ->
  sameLength (menu w m) ->
  let i := Z.max 0 (Z.min index (len (_items (menu w m)))) in
  ∃ w1 w2,
    insertItem w m index item = Some w1 ∧
    at_ (_items (menu w1 m)) i = Some item ∧
    removeItem w1 m i = Some w2 ∧
    _items (menu w2 m) = _items (menu w m) ∧
    _activeIndex (menu w2 m) = -1 ∧
    (isAttached (menu w m) = false ->
     _nodes (menu w2 m) = _nodes (menu w m) ∧
     ∀ k, k ≠ m -> menu w2 k = menu w k).
Proof.
  intros Hm Hsl i.
  destruct (closeIfAttached_detached w m) as (w0 & Hc & Hatt & Hitems & Hnodes & Hlen & Hsame).
  set (w1 := modify m (insertedAt index item) w0).
  assert (Hx1 : menu w1 m = insertedAt index item (menu w0 m)).
  { unfold w1. rewrite menu_modify_eq; [done|lia]. }
  assert (Hi : 0 <= i <= len (_items (menu w0 m))).
  { rewrite Hitems. unfold i, len. lia. }
  assert (Hitems1 : _items (menu w1 m) = vec_insert (_items (menu w0 m)) i item).
  { rewrite Hx1. unfold insertedAt. simpl. by rewrite Hitems. }
  assert (Hnodes1 : _nodes (menu w1 m) =
            vec_insert (_nodes (menu w0 m)) i (createItemNode (_renderer (menu w0 m)))).
  { rewrite Hx1. unfold insertedAt. simpl. by rewrite Hitems. }
  assert (Hatt1 : isAttached (menu w1 m) = false).
  { rewrite Hx1. unfold insertedAt. simpl. done. }
  set (w2 := modify m (removedAt i) w1).
  exists w1, w2. split_and!.
  - unfold insertItem. rewrite Hc. done.
  - rewrite Hitems1. by apply at_vec_insert.
  - unfold removeItem.
    assert (Hrange : (i <? 0) || (i >=? len (_items (menu w1 m))) = false).
    { rewrite Hitems1. unfold len in *. rewrite length_vec_insert.
      apply orb_false_iff. split; [apply Z.ltb_ge; lia|].
      rewrite Z.geb_leb. apply Z.leb_gt. lia. }
    rewrite Hrange. unfold closeIfAttached. rewrite Hatt1. done.
  - unfold w2. rewrite menu_modify_eq by (unfold w1; rewrite length_modify; lia).
    unfold removedAt. simpl. rewrite Hitems1, vec_remove_insert by done. done.
  - unfold w2. rewrite menu_modify_eq by (unfold w1; rewrite length_modify; lia).
    done.
  - intros Hd. pose proof (Hsame Hd) as E. split.
    + unfold w2. rewrite menu_modify_eq by (unfold w1; rewrite length_modify; lia).
      unfold removedAt. simpl. rewrite Hnodes1, <- E.
      apply vec_remove_insert. unfold sameLength, len in *. lia.
    + intros k Hk. unfold w2, w1. rewrite !menu_modify_ne by done. by rewrite E.
Qed.

(** ** The arrow keys end on a selectable item *)

Lemma scan_selectable items (f : Z -> Z) n i0 :
  0 <= i0 < Z.of_nat n -> selectableAt items (f i0) = true ->
  ∃ k, scan (λ i, if selectableAt items (f i) then Some (f i) else None) 0 n
       = Some k ∧ selectableAt items k = true.
Proof.
  intros Hi Hsel.
  destruct (scan _ 0 n) as [k|] eqn:Hscan.
  - exists k. split; [done|].
    apply scan_Some in Hscan as (i & _ & Hb & _). simpl in Hb.
    destruct (selectableAt items (f i)) eqn:E; [|discriminate]. congruence.
  - pose proof (scan_None_inv _ _ _ Hscan i0 ltac:(lia)) as Hb. simpl in Hb.
    by rewrite Hsel in Hb.
Qed.

(** X12.  In a menu with a selectable item, whose selection is [-1] or a
    selectable item, [activateNextSelectable] and
    [activatePrevSelectable] end on a selectable item; with nothing
    selected [activateNextSelectable] is [activateFirstSelectable]. *)
Theorem arrows_reach_selectable (x : Menu) (k0 : Z) :
  activeOK x ->
  selectableAt (_items x) k0 = true ->
  selectableAt (_items x) (_activeIndex (activateNextSelectable x)) = true ∧
  selectableAt (_items x) (_activeIndex (activatePrevSelectable x)) = true ∧
  (_activeIndex x = -1 -> activateNextSelectable x = activateFirstSelectable x).
Proof.
  intros Hok Hk0.
  destruct (selectableAt_true _ _ Hk0) as (item0 & Hat0 & _).
  apply at_in_range in Hat0. set (n := len (_items x)) in *.
  assert (Hn : n = Z.of_nat (length (_items x))) by done.
  assert (Hset : ∀ k, selectableAt (_items x) k = true ->
            selectableAt (_items x) (_activeIndex (setActiveIndex k x)) = true).
  { intros k Hk. rewrite setActiveIndex_value. unfold coerceIndex. by rewrite Hk. }
  split_and!.
  - destruct Hok as [Hno|(item & Hat & Hsel)].
    + unfold activateNextSelectable. cbv zeta. rewrite Hno. fold n.
      destruct (scan_selectable (_items x) (λ i, Z.rem (i + (-1 + 1)) n)
                  (length (_items x)) k0) as (k & -> & Hk); [lia| |by apply Hset].
      simpl. replace (k0 + (-1 + 1)) with k0 by lia. by rewrite rem_small.
    + assert (Ha : selectableAt (_items x) (_activeIndex x) = true).
      { unfold selectableAt. by rewrite Hat. }
      destruct (next_selectable_at _ _ Ha x eq_refl eq_refl) as (d & _ & Hb & _ & ->).
      done.
  - destruct Hok as [Hno|(item & Hat & Hsel)].
    + unfold activatePrevSelectable. cbv zeta. rewrite Hno. fold n.
      change (-1 <=? 0) with true. cbv iota.
      destruct (scan_selectable (_items x) (λ i, Z.rem (n - 1 - i + n) n)
                  (length (_items x)) (n - 1 - k0)) as (k & -> & Hk);
        [lia| |by apply Hset].
      simpl. replace (n - 1 - (n - 1 - k0) + n) with (k0 + n) by lia.
      rewrite rem_wrap by lia. by replace (k0 + n - n) with k0 by lia.
    + assert (Ha : selectableAt (_items x) (_activeIndex x) = true).
      { unfold selectableAt. by rewrite Hat. }
      destruct (prev_selectable_at _ _ Ha x eq_refl eq_refl) as (d & _ & Hb & _ & ->).
      done.
  - intros Hno. unfold activateNextSelectable, activateFirstSelectable.
    cbv zeta. rewrite Hno. fold n.
    assert (Hscan : ∀ c i,
      (i + Z.of_nat c <= n) -> 0 <= i ->
      scan (λ i, if selectableAt (_items x) (Z.rem (i + (-1 + 1)) n)
                 then Some (Z.rem (i + (-1 + 1)) n) else None) i c
      = scan (λ i, if selectableAt (_items x) i then Some i else None) i c).
    { induction c as [|c IH]; intros i Hi Hi0; [done|]. simpl.
      replace (i + (-1 + 1)) with i by lia. rewrite rem_small by lia.
      destruct (selectableAt (_items x) i); [done|]. apply IH; lia. }
    rewrite Hscan by lia. done.
Qed.

(** ** Menus from templates *)

(** Induction on templates. *)
Lemma template_ind (P : ItemArg -> Prop) (Q : MenuArg -> Prop) :
  (∀ item, P (item_object item)) ->
  (∀ o, (∀ v, opt_submenu o = Some v -> Q v) -> P (item_options o)) ->
  (∀ m, Q (menu_object m)) ->
  (∀ t, Forall P t -> Q (menu_template t)) ->
  (∀ a, P a) ∧ (∀ v, Q v).
Proof.
  intros H1 H2 H3 H4.
  cut (∀ v, Q v).
  { intros HQ. split; [|done]. intros [it|o]; [apply H1|].
    apply H2. intros; apply HQ. }
  fix IH 1. intros [m|t]; [apply H3|]. apply H4.
  induction t as [|a t IHt]; constructor; [|exact IHt].
  destruct a as [it|o]; [apply H1|]. apply H2. intros v Hv.
  destruct o as [? ? ? ? ? ? ? ? ? sub]. simpl in Hv.
  destruct sub as [v'|]; [|discriminate].
  injection Hv as <-. apply IH.
Qed.

Lemma menuBuilt_template lo w t m :
  menuBuilt lo w (menu_template t) m ↔
  (lo <= m < length (menus w))%nat ∧ shut (menu w m) ∧
  length (_nodes (menu w m)) = length t ∧
  Forall2 (itemBuilt lo w) t (_items (menu w m)).
Proof.
  simpl. generalize (_items (menu w m)) as items.
  assert (H : ∀ l items,
    (fix all (l : list ItemArg) (items : list MenuItem) {struct l} : Prop :=
       match l, items with
       | [], [] => True
       | a :: l', item :: items' => itemBuilt lo w a item ∧ all l' items'
       | _, _ => False
       end) l items ↔ Forall2 (itemBuilt lo w) l items).
  { induction l as [|a l IH]; intros [|item items].
    - split; [constructor|done].
    - split; [done|]. intros H. inversion H.
    - split; [done|]. intros H. inversion H.
    - split.
      + intros [Ha Hl]. constructor; [done|]. by apply IH.
      + intros H. inversion H; subst. split; [done|]. by apply IH. }
  intros items. by rewrite H.
Qed.


Lemma Forall2_Forall_impl {A B} (R R' : A -> B -> Prop) l k :
  Forall (λ a, ∀ b, R a b -> R' a b) l -> Forall2 R l k -> Forall2 R' l k.
Proof.
  intros HP H. induction H as [|a b l k Hab H IH]; [constructor|].
  apply Forall_cons in HP as [Ha Hl]. constructor; auto.
Qed.

(** Menus built from templates stay built when the store grows and only
    menus below [lo'] change. *)
Lemma built_stable lo lo' w w' :
  (lo' <= lo)%nat -> (length (menus w) <= length (menus w'))%nat ->
  (∀ k, (lo <= k < length (menus w))%nat -> menu w' k = menu w k) ->
  (∀ a item, itemBuilt lo w a item -> itemBuilt lo' w' a item) ∧
  (∀ v m, menuBuilt lo w v m -> menuBuilt lo' w' v m).
Proof.
  intros Hlo Hlen Hframe.
  apply (template_ind (λ a, ∀ item, itemBuilt lo w a item -> itemBuilt lo' w' a item)
           (λ v, ∀ m, menuBuilt lo w v m -> menuBuilt lo' w' v m)).
  - done.
  - intros [ty tx ic sh ch di hi cn cm sub] Hsub item. simpl in *.
    intros (?&?&?&?&?&?&?&?&?&H). split_and!; try done.
    destruct sub as [v|]; [|done].
    destruct H as (m & Hm & Hb). exists m. split; [done|]. by apply Hsub.
  - done.
  - intros t Ht m. rewrite !menuBuilt_template.
    intros (Hm & Hshut & Hn & Hall).
    rewrite (Hframe m) by done. split_and!; try done; try lia.
    eapply Forall2_Forall_impl; [|exact Hall]. exact Ht.
Qed.

Lemma keepsStore_refl ex w : keepsStore ex w w.
Proof. unfold keepsStore. split_and!; done. Qed.

Lemma keepsStore_trans ex a b c :
  keepsStore ex a b -> keepsStore ex b c -> keepsStore ex a c.
Proof.
  intros (L1 & F1 & E1 & T1) (L2 & F2 & E2 & T2). split_and!; try lia; try congruence.
  intros k Hk Hex. rewrite F2, F1; try done; lia.
Qed.

Lemma keepsStore_weaken (ex ex' : MenuId -> Prop) a b :
  (∀ k, ex k -> ex' k) -> keepsStore ex a b -> keepsStore ex' a b.
Proof.
  intros Himp (L & F & E & T). split_and!; try done.
  intros k Hk Hex. apply F; [done|]. intros H. by apply Hex, Himp.
Qed.

Lemma keepsStore_modify m f w : keepsStore (λ k, k = m) w (modify m f w).
Proof.
  split_and!; try done.
  - by rewrite length_modify.
  - intros k _ Hk. by rewrite menu_modify_ne.
Qed.

Lemma allocMenu_spec w :
  let w' := (allocMenu w).1 in
  (allocMenu w).2 = length (menus w) ∧
  length (menus w') = S (length (menus w)) ∧
  menu w' (length (menus w)) = newMenu MenuItemRenderer.instance ∧
  keepsStore (λ _, False) w w'.
Proof.
  unfold allocMenu, keepsStore, menu. simpl. split_and!; try done.
  - rewrite length_app. simpl. lia.
  - by rewrite lookup_app_r, Nat.sub_diag by lia.
  - rewrite length_app. lia.
  - intros k Hk _. by rewrite lookup_app_l.
Qed.

Lemma shut_new r : shut (newMenu r).
Proof. unfold shut. simpl. tauto. Qed.

(** One step of the loop of [asMenu]. *)
Lemma addItemAs_builds conv w result a done :
  (∀ w0, ∃ w1 item, conv w0 = Some (w1, item) ∧ keepsStore (λ _, False) w0 w1 ∧
                    itemBuilt (length (menus w0)) w1 a item) ->
  (result < length (menus w))%nat -> shut (menu w result) ->
  length (_nodes (menu w result)) = length done ->
  Forall2 (itemBuilt (S result) w) done (_items (menu w result)) ->
  ∃ w', addItemAs conv w result = Some w' ∧
        keepsStore (λ k, k = result) w w' ∧
        shut (menu w' result) ∧
        length (_nodes (menu w' result)) = length (done ++ [a]) ∧
        Forall2 (itemBuilt (S result) w') (done ++ [a]) (_items (menu w' result)).
Proof.
  intros Hconv Hres Hshut Hnodes Hdone.
  assert (Hatt : isAttached (menu w result) = false) by apply Hshut.
  unfold addItemAs, insertItemAs, closeIfAttached. rewrite Hatt. simpl.
  set (w1 := modify result (λ x, set_active (-1) (_nodes x) x) w).
  assert (Hx1 : menu w1 result = set_active (-1) (_nodes (menu w result)) (menu w result)).
  { unfold w1. by rewrite menu_modify_eq. }
  destruct (Hconv w1) as (w2 & item & -> & (L2 & F2 & E2 & T2) & Hb). simpl.
  assert (Hlen1 : length (menus w1) = length (menus w)) by apply length_modify.
  assert (Hx2 : menu w2 result = menu w1 result) by (apply F2; [lia|tauto]).
  set (items := _items (menu w result)) in *.
  set (nodes := _nodes (menu w result)) in *.
  set (f := λ x : Menu, set_vectors _ _ x).
  set (w3 := modify result f w2).
  assert (Hx3 : menu w3 result = f (menu w2 result)).
  { unfold w3. rewrite menu_modify_eq; [done|lia]. }
  assert (Hsize : length items = length done) by by apply Forall2_length in Hdone.
  assert (Hi : Z.max 0 (Z.min (len items) (len (_items (menu w1 result)))) = len items).
  { rewrite Hx1. simpl. fold items. unfold len. lia. }
  assert (Hins : ∀ {A} (l : list A) v, vec_insert l (len l) v = l ++ [v]).
  { intros A l v. unfold vec_insert, len. rewrite Nat2Z.id.
    by rewrite firstn_all, drop_all. }
  exists w3. split; [done|].
  assert (Hstable : ∀ k, (S result <= k < length (menus w))%nat -> menu w3 k = menu w k).
  { intros k Hk. unfold w3. rewrite menu_modify_ne by lia.
    rewrite F2 by (try lia; tauto). unfold w1. rewrite menu_modify_ne by lia. done. }
  split_and!.
  - apply (keepsStore_trans _ w w1 w3); [apply keepsStore_modify|].
    apply (keepsStore_trans _ w1 w2 w3); [|apply keepsStore_modify].
    apply (keepsStore_weaken (λ _, False)); [done|]. by split_and!.
  - rewrite Hx3, Hx2, Hx1. unfold f, shut in *. simpl. tauto.
  - rewrite Hx3. unfold f. rewrite Hi, Hx2, Hx1. simpl. fold items nodes.
    rewrite length_vec_insert, length_app. simpl. lia.
  - rewrite Hx3. unfold f. rewrite Hi, Hx2, Hx1. simpl. fold items.
    rewrite Hins.
    apply Forall2_app.
    + eapply Forall2_impl; [exact Hdone|]. intros a0 item0.
      apply (built_stable (S result) (S result) w w3); try done.
      unfold w3. rewrite length_modify. lia.
    + constructor; [|constructor].
      eapply (built_stable (length (menus w1)) (S result) w2 w3); try done; try lia.
      * unfold w3. by rewrite length_modify.
      * intros k Hk. unfold w3. rewrite menu_modify_ne by lia. done.
Qed.

(** [asMenu] and [asMenuItem] return, touch no menu that was in the store
    and build what the template describes. *)
Lemma asMenu_builds :
  (∀ a w, ∃ w' item, asMenuItem a w = Some (w', item) ∧
                     keepsStore (λ _, False) w w' ∧
                     itemBuilt (length (menus w)) w' a item) ∧
  (∀ v w, ∃ w' m, asMenu v w = Some (w', m) ∧
                  keepsStore (λ _, False) w w' ∧
                  menuBuilt (length (menus w)) w' v m ∧
                  (∀ t, v = menu_template t -> m = length (menus w))).
Proof.
  apply template_ind.
  - intros item w. exists w, item. split_and!; try done; try apply keepsStore_refl.
  - intros [ty tx ic sh ch di hi cn cm sub] Hsub w. simpl in *.
    destruct sub as [v|].
    + destruct (Hsub v eq_refl w) as (w' & m & -> & Hk & Hb & _). simpl.
      eexists _, _. split; [done|]. split; [done|]. simpl. split_and!; try done.
      by exists m.
    + eexists _, _. split; [done|]. split; [apply keepsStore_refl|]. simpl.
      split_and!; done.
  - intros m w. exists w, m. split_and!; try done; try apply keepsStore_refl.
  - intros t Ht w.
    destruct (allocMenu_spec w) as (Hres & Hlen0 & Hnew & Hk0).
    cbn [asMenu]. destruct (allocMenu w) as [w0 result] eqn:Halloc.
    simpl in Hres, Hlen0, Hnew, Hk0. subst result.
    set (result := length (menus w)) in *.
    set (each := fix each (l : list ItemArg) (w : World) {struct l} : option World :=
                   match l with
                   | [] => Some w
                   | item :: l' =>
                       w ← addItemAs (asMenuItem item) w result; each l' w
                   end).
    assert (Heach : ∀ l, Forall (λ a, ∀ w, ∃ w' item, asMenuItem a w = Some (w', item) ∧
                     keepsStore (λ _, False) w w' ∧
                     itemBuilt (length (menus w)) w' a item) l ->
              ∀ w1 done,
                (result < length (menus w1))%nat -> shut (menu w1 result) ->
                length (_nodes (menu w1 result)) = length done ->
                Forall2 (itemBuilt (S result) w1) done (_items (menu w1 result)) ->
                ∃ w', each l w1 = Some w' ∧ keepsStore (λ k, k = result) w1 w' ∧
                      shut (menu w' result) ∧
                      length (_nodes (menu w' result)) = length (done ++ l) ∧
                      Forall2 (itemBuilt (S result) w') (done ++ l)
                              (_items (menu w' result))).
    { induction l as [|a l IH]; intros Hl w1 done Hr Hs Hn Hd.
      - exists w1. rewrite app_nil_r. split_and!; try done; try apply keepsStore_refl.
      - apply Forall_cons in Hl as [Ha Hl]. simpl.
        destruct (addItemAs_builds (asMenuItem a) w1 result a done Ha Hr Hs Hn Hd)
          as (w2 & -> & Hk2 & Hs2 & Hn2 & Hd2). simpl.
        destruct (IH Hl w2 (done ++ [a])) as (w3 & -> & Hk3 & Hs3 & Hn3 & Hd3);
          try done.
        { destruct Hk2 as (L & _). lia. }
        exists w3. rewrite <- app_assoc in Hn3, Hd3. split_and!; try done.
        by eapply keepsStore_trans. }
    destruct (Heach t Ht w0 []) as (w' & -> & Hk & Hs & Hn & Hd).
    { lia. }
    { rewrite Hnew. apply shut_new. }
    { by rewrite Hnew. }
    { rewrite Hnew. constructor. }
    exists w', result. split; [done|]. split; [|split; [|done]].
    + destruct Hk0 as (L0 & F0 & E0 & T0), Hk as (L & F & E & T).
      unfold keepsStore. split_and!; try lia; try congruence.
      intros k Hk _. rewrite F by (unfold result; lia). apply F0; [done|tauto].
    + apply menuBuilt_template. destruct Hk as (L & _). split_and!; try lia; try done.
      eapply Forall2_impl; [exact Hd|]. intros a item.
      apply (built_stable (S result) result w' w'); try done; lia.
Qed.

(** X13.  [Menu.fromTemplate] returns for every template, submenu
    templates at any depth included.  The menu it returns is the first
    object added to the store; the menus that were there and the log of
    signals are untouched; the menu is closed and has one item and one
    node for each entry of the template, in order: an item object as it
    is, an options object as the item with the options given and the
    defaults of the constructor for the rest, its submenu template built
    in the same way. *)
Theorem fromTemplate_builds (template : list ItemArg) (w : World) :
  ∃ w' r,
    fromTemplate template w = Some (w', r) ∧
    r = length (menus w) ∧
    (∀ k, (k < length (menus w))%nat -> menu w' k = menu w k) ∧
    emitted w' = emitted w ∧
    menuBuilt (length (menus w)) w' (menu_template template) r ∧
    length (_items (menu w' r)) = length template ∧
    sameLength (menu w' r) ∧
    (∀ i item, template !! i = Some (item_object item) ->
               _items (menu w' r) !! i = Some item).
Proof.
  destruct (proj2 asMenu_builds (menu_template template) w)
    as (w' & r & Hrun & (L & F & E & T) & Hb & Hr).
  exists w', r. split; [exact Hrun|]. split; [by apply (Hr template)|].
  pose proof Hb as Hb'. apply menuBuilt_template in Hb' as (Hm & Hs & Hn & Hall).
  pose proof (Forall2_length _ _ _ Hall) as Hlen.
  split_and!; try done.
  - intros k Hk. apply F; [done|tauto].
  - unfold sameLength. lia.
  - intros i item Hi.
    destruct (Forall2_lookup_l _ _ _ _ _ Hall Hi) as (it & Hit & Hbi).
    simpl in Hbi. by subst.
Qed.

(** ** Further worked examples *)

Lemma no_marks_in_empty : marksFree (words "").
Proof. intros c _ H. vm_compute in H. by apply elem_of_nil in H. Qed.

Lemma no_marker_in_Close : ¬ hasMarker "Close".
Proof.
  intros (pre & post & H).
  do 5 (destruct pre as [|? pre]; rewrite ?append_nil, ?append_cons in H;
        [discriminate|]; injection H as _ H).
  destruct pre; discriminate.
Qed.

Lemma hoverWorld_openChain : openChain hoverWorld ([] ++ [0%nat]).
Proof.
  unfold openChain. simpl. unfold childOf, parentOf.
  repeat split; try (vm_compute; reflexivity).
  - apply (bool_decide_unpack (NoDup [0%nat])). vm_compute. exact I.
  - repeat constructor; right; vm_compute; reflexivity.
Defined.

Lemma selectable_iff_unmarked_witness :
  marksFree (words (className leafItem)) ∧
  (isSelectable leafItem = true ↔
   marksFree (MenuItemRenderer.createItemClassName leafItem)).
Proof.
  split; [apply no_marks_in_empty|].
  apply (selectable_iff_unmarked leafItem), no_marks_in_empty.
Defined.

Lemma rendered_text_has_no_marker_witness :
  type (normalItem "Close") ≠ separator ∧
  textContent (MenuItemRenderer.updateItemNode MenuItemRenderer.createItemNode
                 (normalItem "Close")) = "Close".
Proof.
  split; [discriminate|].
  apply (proj2 (rendered_text_has_no_marker MenuItemRenderer.createItemNode
                  (normalItem "Close"))).
  - discriminate.
  - apply no_marker_in_Close.
Defined.

Lemma separators_hidden_exactly_witness :
  let nodes := replicate 6 MenuItemRenderer.createItemNode in
  length sixItems = length nodes ∧
  nodes !! 3%nat = Some MenuItemRenderer.createItemNode ∧
  hideExtraSeparators sixItems nodes !! 3%nat
    = Some (classList_add HIDDEN_CLASS MenuItemRenderer.createItemNode).
Proof.
  intros nodes. split; [reflexivity|]. split; [reflexivity|].
  apply (proj1 (separators_hidden_exactly sixItems nodes 3
                  MenuItemRenderer.createItemNode eq_refl eq_refl)).
  split.
  - exists separatorItem. by split_and!.
  - intros [(j & Hj & (item & Hitem & Hshown & Hty) & Hgap) _].
    assert (j = 2 ∨ j < 2)%nat as [-> | Hlt] by lia.
    + vm_compute in Hitem. injection Hitem as <-. by apply Hty.
    + apply (Hgap 2%nat); [lia|]. exists separatorItem. by split.
Defined.

Lemma next_then_prev_returns_witness :
  selectableAt (_items sixMenuAtA) (_activeIndex sixMenuAtA) = true ∧
  _activeIndex (activatePrevSelectable (activateNextSelectable sixMenuAtA))
    = _activeIndex sixMenuAtA ∧
  _activeIndex (activateNextSelectable (activatePrevSelectable sixMenuAtA))
    = _activeIndex sixMenuAtA.
Proof.
  split; [reflexivity|].
  apply (next_then_prev_returns sixMenuAtA). reflexivity.
Defined.

Lemma leaf_key_closes_leaf_only_witness :
  openChain chainWorld ([0%nat] ++ [1%nat; 2%nat]) ∧
  ∃ w', _evtKeyDown desk chainWorld 2 27 = Some (returned w') ∧
        emitted w' = emitted chainWorld ++ [closed 2] ∧
        shut (menu w' 2) ∧
        openChain w' ([0%nat] ++ [1%nat]) ∧
        _activeIndex (menu w' 1) = _activeIndex (menu chainWorld 1) ∧
        (∀ k, k ≠ 2%nat -> k ≠ 1%nat -> menu w' k = menu chainWorld k).
Proof.
  split; [apply chainWorld_openChain|].
  apply (leaf_key_closes_leaf_only chainWorld [0%nat] 1 2 desk 27).
  - apply chainWorld_openChain.
  - by left.
Defined.

Lemma key_on_submenu_item_raises_witness :
  openChain hoverWorld ([] ++ [0%nat]) ∧
  activeItem (menu hoverWorld 0) = Some (submenuItem "First" 1) ∧
  shut (menu hoverWorld 1) ∧
  ∃ w', _evtKeyDown desk hoverWorld 0 39 = Some (raised w') ∧
        emitted w' = emitted hoverWorld ∧
        openChain w' ([] ++ [0%nat; 1%nat]) ∧
        _childIndex (menu w' 0) = _activeIndex (menu hoverWorld 0) ∧
        _activeIndex (menu w' 0) = _activeIndex (menu hoverWorld 0) ∧
        _activeIndex (menu w' 1) = -1 ∧
        style_hidden (style (menu w' 1)) = true ∧
        style_top (style (menu w' 1)) = None ∧
        style_left (style (menu w' 1)) = None ∧
        (∀ k, k ≠ 0%nat -> k ≠ 1%nat -> menu w' k = menu hoverWorld k).
Proof.
  assert (Hshut : shut (menu hoverWorld 1)) by (vm_compute; repeat split; reflexivity).
  split; [apply hoverWorld_openChain|]. split; [reflexivity|]. split; [exact Hshut|].
  apply (key_on_submenu_item_raises hoverWorld [] 0 1 (submenuItem "First" 1) desk 39).
  - apply hoverWorld_openChain.
  - reflexivity.
  - reflexivity.
  - reflexivity.
  - vm_compute. lia.
  - exact Hshut.
  - by right.
Defined.

Lemma press_outside_closes_chain_witness :
  openChain chainWorld (0 :: [1; 2])%nat ∧
  ∃ w', _evtMouseDown chainWorld 0 (λ _, false) = Some w' ∧
        emitted w' = emitted chainWorld ++ map closed (reverse (0 :: [1; 2])%nat) ∧
        (∀ k, k ∈ (0 :: [1; 2])%nat -> shut (menu w' k)) ∧
        (∀ k, k ∉ (0 :: [1; 2])%nat -> menu w' k = menu chainWorld k).
Proof.
  split; [apply chainWorld_openChain|].
  apply (proj1 (press_outside_closes_chain chainWorld 0 [1; 2]%nat (λ _, false)
                  chainWorld_openChain)).
  reflexivity.
Defined.

Lemma render_marks_active_only_witness :
  _renderer sixMenuAtA = MenuItemRenderer.instance ∧
  sameLength sixMenuAtA ∧ activeOK sixMenuAtA ∧
  _items sixMenuAtA !! 1%nat = Some (normalItem "A") ∧
  ∃ node, _nodes (onUpdateRequest sixMenuAtA) !! 1%nat = Some node ∧
          (classList_contains ACTIVE_CLASS node = true
           ↔ _activeIndex sixMenuAtA = Z.of_nat 1).
Proof.
  assert (Hok : activeOK sixMenuAtA).
  { right. exists (normalItem "A"). split; reflexivity. }
  split; [reflexivity|]. split; [reflexivity|]. split; [exact Hok|].
  split; [reflexivity|].
  apply (render_marks_active_only sixMenuAtA 1 (normalItem "A")
           eq_refl eq_refl Hok eq_refl).
  intros H. vm_compute in H. by apply elem_of_nil in H.
Defined.

Lemma root_menu_stays_on_screen_witness :
  let dom := domOf 0 0 100 100 20 30 in
  (0 < length (menus oneMenu))%nat ∧
  measure dom (prepareOpen dom 0 (clientHeight dom - 0) oneMenu) 0 = (20, 30) ∧
  ∃ left top,
    style_left (style (menu (open dom oneMenu 0 90 90 false false) 0)) = Some left ∧
    style_top (style (menu (open dom oneMenu 0 90 90 false false) 0)) = Some top ∧
    0 <= left ∧ left + 20 <= pageXOffset dom + clientWidth dom ∧
    0 <= top ∧ top + 30 <= pageYOffset dom + clientHeight dom.
Proof.
  intros dom. split; [vm_compute; lia|]. split; [reflexivity|].
  apply (root_menu_stays_on_screen dom oneMenu 0%nat 90 90 20 30).
  - vm_compute. lia.
  - reflexivity.
  - reflexivity.
  - vm_compute. discriminate.
  - vm_compute. discriminate.
Defined.

Lemma insert_then_remove_restores_witness :
  (0 < length (menus oneMenu))%nat ∧ sameLength (menu oneMenu 0) ∧
  ∃ w1 w2,
    insertItem oneMenu 0 7 leafItem = Some w1 ∧
    at_ (_items (menu w1 0)) 0 = Some leafItem ∧
    removeItem w1 0 0 = Some w2 ∧
    _items (menu w2 0) = _items (menu oneMenu 0) ∧
    _activeIndex (menu w2 0) = -1 ∧
    (isAttached (menu oneMenu 0) = false ->
     _nodes (menu w2 0) = _nodes (menu oneMenu 0) ∧
     ∀ k, k ≠ 0%nat -> menu w2 k = menu oneMenu k).
Proof.
  assert (Hin : (0 < length (menus oneMenu))%nat) by (vm_compute; lia).
  split; [exact Hin|]. split; [reflexivity|].
  apply (insert_then_remove_restores oneMenu 0%nat 7 leafItem Hin eq_refl).
Defined.

Lemma arrows_reach_selectable_witness :
  activeOK sixMenu ∧ selectableAt (_items sixMenu) 1 = true ∧
  selectableAt (_items sixMenu) (_activeIndex (activateNextSelectable sixMenu)) = true ∧
  selectableAt (_items sixMenu) (_activeIndex (activatePrevSelectable sixMenu)) = true ∧
  (_activeIndex sixMenu = -1 ->
   activateNextSelectable sixMenu = activateFirstSelectable sixMenu).
Proof.
  assert (Hok : activeOK sixMenu) by (left; reflexivity).
  split; [exact Hok|]. split; [reflexivity|].
  apply (arrows_reach_selectable sixMenu 1 Hok eq_refl).
Defined.

(** * The box layout: properties *)

Import BoxLayout.

Lemma layoutLoop_row spacing width height sizers : ∀ rest i left top calls,
  layoutLoop LeftToRight spacing width height sizers rest i left top = Some calls ->
  map geo_widget calls = visibleFrom rest i ∧
  Forall (λ g, geo_top g = top ∧ geo_height g = height ∧
               ∃ sizer, sizers !! geo_widget g = Some sizer ∧
                        geo_width g = size sizer) calls ∧
  contiguous spacing calls ∧
  (∀ g, head calls = Some g -> geo_left g = left) ∧
  (∀ g, last calls = Some g ->
        geo_left g + geo_width g
        = left + totalWidth calls + spacing * (len calls - 1)).
Proof.
  induction rest as [|widget rest IH]; intros i left top calls Hrun; simpl in Hrun.
  - simplify_eq. split_and!; try done.
  - simpl. destruct (isHidden widget); [by apply IH|].
    destruct (sizers !! i) as [sizer|] eqn:Hs; [|discriminate]. simpl in Hrun.
    destruct (layoutLoop _ _ _ _ _ rest (S i) _ _) as [calls'|] eqn:Hrec;
      [|discriminate].
    simpl in Hrun. simplify_eq.
    destruct (IH _ _ _ _ Hrec) as (H1 & H2 & H3 & H4 & H5).
    split_and!.
    + simpl. by rewrite H1.
    + constructor; [|done]. simpl. split_and!; try done. by exists sizer.
    + simpl. split; [|done]. destruct calls' as [|g' calls']; [done|].
      simpl. rewrite (H4 g') by done. lia.
    + intros g [= <-]. done.
    + intros g Hg. destruct calls' as [|g' calls'].
      * simpl in Hg. simplify_eq. simpl. unfold totalWidth, len. simpl. lia.
      * rewrite last_cons_cons in Hg. rewrite (H5 g Hg).
        unfold totalWidth, len. simpl. lia.
Qed.

(** The loop returns when every widget that is shown has a sizer. *)
Lemma layoutLoop_returns dir spacing width height sizers : ∀ rest i left top,
  (i + length rest <= length sizers)%nat ->
  is_Some (layoutLoop dir spacing width height sizers rest i left top).
Proof.
  induction rest as [|widget rest IH]; intros i left top Hlen; simpl; [by eexists|].
  simpl in Hlen. destruct (isHidden widget); [apply IH; lia|].
  destruct (lookup_lt_is_Some_2 sizers i ltac:(lia)) as [sizer ->]. simpl.
  destruct dir;
    match goal with
    | |- context [layoutLoop ?d ?s ?w ?h ?z rest (S i) ?l ?t] =>
        destruct (IH (S i) l t ltac:(lia)) as [calls ->]
    end; by eexists.
Qed.

(** The loop in a reversed direction. *)
Lemma layoutLoop_reverseX spacing width height sizers : ∀ rest i left left' top,
  layoutLoop RightToLeft spacing width height sizers rest i left' top
  = map (flipX (left + left')) <$>
    layoutLoop LeftToRight spacing width height sizers rest i left top.
Proof.
  induction rest as [|widget rest IH]; intros i left left' top; simpl; [done|].
  destruct (isHidden widget); [apply IH|].
  destruct (sizers !! i) as [sizer|]; [|done]. simpl.
  rewrite (IH (S i) (left + (size sizer + spacing)) (left' - (size sizer + spacing)) top).
  replace (left + (size sizer + spacing) + (left' - (size sizer + spacing)))
    with (left + left') by lia.
  destruct (layoutLoop LeftToRight _ _ _ _ _ _ _ _) as [calls|]; [|done]. simpl.
  unfold flipX at 2. simpl. do 3 f_equal. lia.
Qed.

Lemma layoutLoop_reverseY spacing width height sizers : ∀ rest i left top top',
  layoutLoop BottomToTop spacing width height sizers rest i left top'
  = map (flipY (top + top')) <$>
    layoutLoop TopToBottom spacing width height sizers rest i left top.
Proof.
  induction rest as [|widget rest IH]; intros i left top top'; simpl; [done|].
  destruct (isHidden widget); [apply IH|].
  destruct (sizers !! i) as [sizer|]; [|done]. simpl.
  rewrite (IH (S i) left (top + (size sizer + spacing)) (top' - (size sizer + spacing))).
  replace (top + (size sizer + spacing) + (top' - (size sizer + spacing)))
    with (top + top') by lia.
  destruct (layoutLoop TopToBottom _ _ _ _ _ _ _ _) as [calls|]; [|done]. simpl.
  unfold flipY at 2. simpl. do 3 f_equal. lia.
Qed.

(** The loop with the axes exchanged. *)
Lemma layoutLoop_transpose dir spacing width height sizers : ∀ rest i left top,
  layoutLoop (transposeDirection dir) spacing height width sizers
    (map transposeWidget rest) i top left
  = map transposeGeometry <$>
    layoutLoop dir spacing width height sizers rest i left top.
Proof.
  induction rest as [|widget rest IH]; intros i left top; simpl; [done|].
  destruct (isHidden widget); [apply IH|].
  destruct (sizers !! i) as [sizer|]; [|done]. simpl.
  destruct dir; simpl; rewrite IH;
    match goal with
    | |- context [layoutLoop ?d ?s ?w ?h ?z rest (S i) ?l ?t] =>
        destruct (layoutLoop d s w h z rest (S i) l t) as [calls|]
    end; done.
Qed.

(** ** The four directions *)

(** X14.  [_update] from right to left gives every widget the mirror
    image, in the layout area, of the box it gets from left to right; the
    same holds for bottom to top and top to bottom. *)
Theorem update_reversed (boxCalc : list BoxSizer -> Z -> list BoxSizer)
    (parent : Parent) (offsetWidth offsetHeight : Z) (layout : Layout) :
  let box := default (boxSizing parent) (_box layout) in
  let width := (if offsetWidth <? 0 then BoxLayout.offsetWidth parent
                else offsetWidth) - horizontalSum box in
  let height := (if offsetHeight <? 0 then BoxLayout.offsetHeight parent
                 else offsetHeight) - verticalSum box in
  _update boxCalc parent offsetWidth offsetHeight (withDirection RightToLeft layout)
  = (λ r, (withDirection RightToLeft r.1,
           map (flipX (2 * paddingLeft box + width)) r.2))
    <$> _update boxCalc parent offsetWidth offsetHeight
          (withDirection LeftToRight layout) ∧
  _update boxCalc parent offsetWidth offsetHeight (withDirection BottomToTop layout)
  = (λ r, (withDirection BottomToTop r.1,
           map (flipY (2 * paddingTop box + height)) r.2))
    <$> _update boxCalc parent offsetWidth offsetHeight
          (withDirection TopToBottom layout).
Proof.
  intros box width height. destruct layout as [fx sp d bx sz dir ws].
  unfold _update, withDirection. simpl in *. split.
  - case_bool_decide; [done|]. fold box. fold width. fold height.
    rewrite (layoutLoop_reverseX _ _ _ _ _ _ (paddingLeft box)).
    replace (paddingLeft box + (paddingLeft box + width))
      with (2 * paddingLeft box + width) by lia.
    by destruct (layoutLoop LeftToRight _ _ _ _ _ _ _ _).
  - case_bool_decide; [done|]. fold box. fold width. fold height.
    rewrite (layoutLoop_reverseY _ _ _ _ _ _ _ (paddingTop box)).
    replace (paddingTop box + (paddingTop box + height))
      with (2 * paddingTop box + height) by lia.
    by destruct (layoutLoop TopToBottom _ _ _ _ _ _ _ _).
Qed.

Lemma countVisible_transpose ws :
  countVisible (map transposeWidget ws) = countVisible ws.
Proof. induction ws as [|w ws IH]; simpl; [done|]. by rewrite IH. Qed.

Lemma isHorizontal_transpose dir :
  isHorizontal (transposeDirection dir) = negb (isHorizontal dir).
Proof. by destruct dir. Qed.

Lemma fitLoop_transpose horz : ∀ rest i sizers minW minH maxW maxH,
  fitLoop (negb horz) (map transposeWidget rest) i sizers minH minW maxH maxW
  = (λ r, (r.1, (r.2.1.1.2, r.2.1.1.1, r.2.2, r.2.1.2)))
    <$> fitLoop horz rest i sizers minW minH maxW maxH.
Proof.
  induction rest as [|widget rest IH]; intros i sizers minW minH maxW maxH; simpl;
    [done|].
  destruct (sizers !! i) as [sizer|]; [|done]. simpl.
  destruct (isHidden widget); [apply IH|].
  destruct horz; simpl; apply IH.
Qed.

Lemma fitConstraints_transpose parent layout :
  fitConstraints (transposeParent parent) (transposeLayout layout)
  = (λ r, (transposeLayout r.1, transposeStyle r.2)) <$> fitConstraints parent layout.
Proof.
  destruct layout as [fx sp d bx sz dir ws], parent as [ow oh pb vis att].
  unfold fitConstraints, transposeLayout, transposeParent. simpl.
  rewrite countVisible_transpose, isHorizontal_transpose.
  destruct (isHorizontal dir) eqn:Hh; simpl.
  - rewrite (fitLoop_transpose true).
    destruct (fitLoop true ws 0 sz _ _ _ _) as [[s [[[a b] c] e]]|]; [|done].
    simpl. unfold transposeStyle. simpl. done.
  - rewrite (fitLoop_transpose false).
    destruct (fitLoop false ws 0 sz _ _ _ _) as [[s [[[a b] c] e]]|]; [|done].
    simpl. unfold transposeStyle. simpl. done.
Qed.

Lemma update_transpose boxCalc parent offsetWidth offsetHeight layout :
  _update boxCalc (transposeParent parent) offsetHeight offsetWidth
    (transposeLayout layout)
  = (λ r, (transposeLayout r.1, map transposeGeometry r.2))
    <$> _update boxCalc parent offsetWidth offsetHeight layout.
Proof.
  destruct layout as [fx sp d bx sz dir ws], parent as [ow oh pb vis att].
  unfold _update, transposeLayout, transposeParent. simpl.
  rewrite length_map. case_bool_decide; [done|].
  assert (Hbox : default (transposeBox pb) (transposeBox <$> bx)
                 = transposeBox (default pb bx)) by by destruct bx.
  rewrite Hbox. set (box := default pb bx). simpl.
  pose proof (λ w h z l t, layoutLoop_transpose dir sp w h z ws 0%nat l t) as Ht.
  destruct dir; simpl in *; rewrite Ht;
    match goal with
    | |- context [layoutLoop ?d ?s ?w ?h ?z ws 0 ?l ?t] =>
        destruct (layoutLoop d s w h z ws 0 l t) as [calls|]
    end; done.
Qed.

Lemma onResize_transpose boxCalc parent width height layout :
  onResize boxCalc (transposeParent parent) height width (transposeLayout layout)
  = (λ r, (transposeLayout r.1, map transposeGeometry r.2))
    <$> onResize boxCalc parent width height layout.
Proof.
  unfold onResize. replace (isVisible (transposeParent parent)) with (isVisible parent)
    by by destruct parent.
  destruct (isVisible parent); [apply update_transpose | done].
Qed.

Lemma deliver_transpose boxCalc parent : ∀ resizes layout,
  deliver boxCalc (transposeParent parent) (map transposeResize resizes)
    (transposeLayout layout)
  = (λ r, (transposeLayout r.1, map transposeGeometry r.2))
    <$> deliver boxCalc parent resizes layout.
Proof.
  induction resizes as [|[width height] resizes IH]; intros layout; simpl; [done|].
  rewrite onResize_transpose.
  destruct (onResize boxCalc parent width height layout) as [[layout1 calls]|];
    [|done].
  simpl. rewrite IH.
  destruct (deliver boxCalc parent resizes layout1) as [[layout2 calls']|]; [|done].
  simpl. by rewrite map_app.
Qed.

(** X15.  Exchanging the two axes (in the direction, the limits of the
    widgets, the measures and the box sizing of the parent, the resize
    messages) exchanges them in what [_update] and [_fit] compute, and in
    what the first part of [_fit] computes by itself: the calls of
    [setGeometry], the state of the layout and the size constraints of
    the parent. *)
Theorem layout_transposed (boxCalc : list BoxSizer -> Z -> list BoxSizer)
    (parent : Parent) (offsetWidth offsetHeight : Z) (layout : Layout)
    (ancestor : option (list (Z * Z))) :
  _update boxCalc (transposeParent parent) offsetHeight offsetWidth
    (transposeLayout layout)
  = (λ r, (transposeLayout r.1, map transposeGeometry r.2))
    <$> _update boxCalc parent offsetWidth offsetHeight layout ∧
  fitConstraints (transposeParent parent) (transposeLayout layout)
  = (λ r, (transposeLayout r.1, transposeStyle r.2))
    <$> fitConstraints parent layout ∧
  _fit boxCalc (transposeParent parent) (transposeAncestor ancestor)
    (transposeLayout layout)
  = (λ r, (transposeLayout r.1.1, transposeStyle r.1.2, map transposeGeometry r.2))
    <$> _fit boxCalc parent ancestor layout.
Proof.
  split; [apply update_transpose|]. split; [apply fitConstraints_transpose|].
  unfold _fit. rewrite fitConstraints_transpose.
  destruct (fitConstraints parent layout) as [[layout1 style]|]; [|done]. simpl.
  assert (Hdel :
    match transposeAncestor ancestor with
    | Some resizes => deliver boxCalc (transposeParent parent) resizes
                        (transposeLayout layout1)
    | None => Some (transposeLayout layout1, [])
    end
    = (λ r, (transposeLayout r.1, map transposeGeometry r.2))
      <$> match ancestor with
          | Some resizes => deliver boxCalc parent resizes layout1
          | None => Some (layout1, [])
          end).
  { destruct ancestor as [resizes|]; simpl; [apply deliver_transpose | done]. }
  rewrite Hdel.
  destruct (match ancestor with
            | Some resizes => deliver boxCalc parent resizes layout1
            | None => Some (layout1, [])
            end) as [[layout2 calls]|]; [|done].
  simpl. replace (_dirty (transposeLayout layout2)) with (_dirty layout2)
    by by destruct layout2.
  destruct (_dirty layout2); [|done].
  unfold onUpdateRequest.
  replace (isVisible (transposeParent parent)) with (isVisible parent)
    by by destruct parent.
  destruct (isVisible parent); simpl.
  - rewrite (update_transpose boxCalc parent (-1) (-1)).
    destruct (_update boxCalc parent (-1) (-1) layout2) as [[layout3 calls']|];
      [|done].
    simpl. by rewrite map_app.
  - by rewrite !app_nil_r.
Qed.

(** ** A row, left to right *)

Lemma totalWidth_sumSizes sizers calls :
  Forall (λ g, ∃ sizer, sizers !! geo_widget g = Some sizer ∧
                        geo_width g = size sizer) calls ->
  totalWidth calls = sumSizes sizers (map geo_widget calls).
Proof.
  induction 1 as [|g calls (sizer & Hs & Hw) _ IH]; [done|].
  unfold totalWidth, sumSizes in *. simpl. rewrite IH. unfold sizeAt.
  rewrite Hs. simpl. lia.
Qed.

Lemma visibleFrom_length ws : ∀ i,
  Z.of_nat (length (visibleFrom ws i)) = countVisible ws.
Proof.
  induction ws as [|w ws IH]; intros i; simpl; [done|].
  destruct (isHidden w); simpl; rewrite <- (IH (S i)); lia.
Qed.

(** X16.  [_update] from left to right, when [boxCalc] returns a sizer for
    every widget: it returns with the dirty flag cleared and calls
    [setGeometry] once for each widget that is not hidden, in order, with
    the top padding as top, the height of the layout area as height and
    the size of the widget's sizer as width, the first box at the left
    padding and each next one [spacing] after the end of the one
    before. *)
Theorem update_lays_out_row (boxCalc : list BoxSizer -> Z -> list BoxSizer)
    (parent : Parent) (offsetWidth offsetHeight : Z) (layout : Layout) :
  let box := default (boxSizing parent) (_box layout) in
  let width := (if offsetWidth <? 0 then BoxLayout.offsetWidth parent
                else offsetWidth) - horizontalSum box in
  let height := (if offsetHeight <? 0 then BoxLayout.offsetHeight parent
                 else offsetHeight) - verticalSum box in
  let sizers := boxCalc (_sizers layout) (Z.max 0 (width - _fixed layout)) in
  _direction layout = LeftToRight ->
  (length (widgets layout) <= length sizers)%nat ->
  ∃ layout' calls,
    _update boxCalc parent offsetWidth offsetHeight layout = Some (layout', calls) ∧
    map geo_widget calls = visibleFrom (widgets layout) 0 ∧
    Forall (λ g, geo_top g = paddingTop box ∧ geo_height g = height ∧
                 geo_width g = sizeAt sizers (geo_widget g)) calls ∧
    contiguous (_spacing layout) calls ∧
    (∀ g, head calls = Some g -> geo_left g = paddingLeft box) ∧
    _dirty layout' = false ∧ widgets layout' = widgets layout ∧
    _direction layout' = LeftToRight.
Proof.
  intros box width height sizers Hdir Hlen.
  destruct layout as [fx sp d bx sz dir ws]. simpl in *. subst dir.
  unfold _update. simpl.
  case_bool_decide as Hempty.
  - apply length_zero_iff_nil in Hempty as ->. simpl.
    eexists _, []. split_and!; done.
  - fold box. fold width. fold height. fold sizers.
    destruct (layoutLoop_returns LeftToRight sp width height sizers ws 0
                (paddingLeft box) (paddingTop box) Hlen) as [calls Hloop].
    rewrite Hloop. simpl. eexists _, calls. split; [done|].
    destruct (layoutLoop_row _ _ _ _ _ _ _ _ _ Hloop) as (H1 & H2 & H3 & H4 & _).
    split_and!; try done.
    eapply Forall_impl; [exact H2|]. simpl.
    intros g (Ht & Hh & sizer & Hs & Hw). split_and!; try done.
    unfold sizeAt. by rewrite Hs.
Qed.

(** ** [_fit], then [_update] *)

Lemma fitLoop_sizers horz : ∀ rest i sizers minW minH maxW maxH sizers' r,
  (i <= length sizers)%nat ->
  fitLoop horz rest i sizers minW minH maxW maxH = Some (sizers', r) ->
  length sizers' = length sizers ∧ (i + length rest <= length sizers)%nat.
Proof.
  induction rest as [|widget rest IH];
    intros i sizers minW minH maxW maxH sizers' r Hi Hrun; simpl in Hrun.
  - simplify_eq. split; [done|]. simpl. lia.
  - destruct (sizers !! i) as [sizer|] eqn:Hs; [|discriminate]. simpl in Hrun.
    apply lookup_lt_Some in Hs.
    destruct (isHidden widget); [|destruct horz];
      apply IH in Hrun as [H1 H2]; rewrite ?length_insert in *; simpl;
      try split; lia.
Qed.

(** X17.  From left to right, [_update] on the state that the first
    part of [_fit] leaves returns; when [boxCalc] hands the sizers of the
    shown widgets exactly the space it was given and the gaps fit in the
    width, the row starts at the left padding and ends at the right end of
    the layout area.  With a visible parent this is the update that
    [_fit] runs before it returns: on the resize message of the
    ancestor, or, when none arrives, on the update request, with the
    measures of the parent. *)
Theorem fit_then_update_fills (boxCalc : list BoxSizer -> Z -> list BoxSizer)
    (parent : Parent) (offsetWidth offsetHeight : Z) (layout layout1 : Layout)
    (style : SizeStyle) :
  _direction layout = LeftToRight ->
  fitConstraints parent layout = Some (layout1, style) ->
  let box := boxSizing parent in
  let width := (if offsetWidth <? 0 then BoxLayout.offsetWidth parent
                else offsetWidth) - horizontalSum box in
  let fixed := _spacing layout * Z.max 0 (countVisible (widgets layout) - 1) in
  let sizers := boxCalc (_sizers layout1) (Z.max 0 (width - fixed)) in
  length sizers = length (_sizers layout1) ->
  sumSizes sizers (visibleFrom (widgets layout) 0) = Z.max 0 (width - fixed) ->
  fixed <= width ->
  ∃ layout2 calls,
    _update boxCalc parent offsetWidth offsetHeight layout1 = Some (layout2, calls) ∧
    map geo_widget calls = visibleFrom (widgets layout) 0 ∧
    contiguous (_spacing layout) calls ∧
    (∀ g, head calls = Some g -> geo_left g = paddingLeft box) ∧
    (∀ g, last calls = Some g -> geo_left g + geo_width g = paddingLeft box + width) ∧
    (isVisible parent = true ->
     _fit boxCalc parent (Some [(offsetWidth, offsetHeight)]) layout
     = Some (layout2, style, calls) ∧
     (offsetWidth = -1 -> offsetHeight = -1 ->
      _fit boxCalc parent None layout = Some (layout2, style, calls) ∧
      _fit boxCalc parent (Some []) layout = Some (layout2, style, calls))).
Proof.
  intros Hdir Hfit box width fixed sizers Hlen Hsum Hfixed.
  assert (Hrow : ∃ layout2 calls,
    _update boxCalc parent offsetWidth offsetHeight layout1 = Some (layout2, calls) ∧
    _dirty layout1 = true ∧ _dirty layout2 = false ∧
    map geo_widget calls = visibleFrom (widgets layout) 0 ∧
    contiguous (_spacing layout) calls ∧
    (∀ g, head calls = Some g -> geo_left g = paddingLeft box) ∧
    (∀ g, last calls = Some g -> geo_left g + geo_width g = paddingLeft box + width)).
  { destruct layout as [fx sp d bx sz dir ws]. simpl in *. subst dir.
    unfold fitConstraints in Hfit. simpl in Hfit.
    destruct (fitLoop true ws 0 sz _ _ _ _) as [[sz1 [[[a b] c] e]]|] eqn:Hloop;
      [|discriminate].
    simpl in Hfit. simplify_eq. simpl in *.
    destruct (fitLoop_sizers true ws 0%nat sz _ _ _ _ _ _ ltac:(lia) Hloop) as [Hl1 Hl2].
    fold fixed.
    unfold _update. simpl.
    case_bool_decide as Hempty.
    - apply length_zero_iff_nil in Hempty as ->. simpl.
      eexists _, []. split_and!; done.
    - fold box. fold width. fold fixed. fold sizers.
      destruct (layoutLoop_returns LeftToRight sp width
                  ((if offsetHeight <? 0 then BoxLayout.offsetHeight parent
                    else offsetHeight) - verticalSum box)
                  sizers ws 0 (paddingLeft box) (paddingTop box)) as [calls Hcalls].
      { simpl in *. lia. }
      rewrite Hcalls. simpl. eexists _, calls. split; [done|].
      destruct (layoutLoop_row _ _ _ _ _ _ _ _ _ Hcalls) as (H1 & H2 & H3 & H4 & H5).
      split_and!; try done.
      intros g Hg. rewrite (H5 g Hg).
      rewrite (totalWidth_sumSizes sizers).
      2:{ eapply Forall_impl; [exact H2|]. simpl. intros ? (_ & _ & H). exact H. }
      rewrite H1, Hsum.
      assert (Hn : len calls = countVisible ws).
      { unfold len. rewrite <- (length_map geo_widget), H1. apply visibleFrom_length. }
      rewrite Hn.
      assert (1 <= countVisible ws).
      { rewrite <- Hn. destruct calls; [done|]. unfold len. simpl. lia. }
      assert (Hf : fixed = sp * (countVisible ws - 1)).
      { unfold fixed. f_equal. lia. }
      rewrite <- Hf. lia. }
  destruct Hrow as (layout2 & calls & Hupd & Hd1 & Hd2 & H1 & H2 & H3 & H4).
  exists layout2, calls. split_and!; try done.
  intros Hvis. split.
  - unfold _fit. rewrite Hfit. simpl. unfold onResize. rewrite Hvis, Hupd. simpl.
    by rewrite Hd2, app_nil_r.
  - intros -> ->. unfold _fit. rewrite Hfit. simpl.
    unfold onUpdateRequest. by rewrite Hd1, Hvis, Hupd.
Qed.

(** ** The limits [_fit] computes for a row *)

Lemma ext_add_assoc a b c : ext_add (ext_add a b) c = ext_add a (ext_add b c).
Proof. destruct a, b, c; simpl; try done. f_equal. lia. Qed.

Lemma ext_min_assoc a b c : ext_min (ext_min a b) c = ext_min a (ext_min b c).
Proof. destruct a, b, c; simpl; try done. f_equal. lia. Qed.

Lemma ext_min_Infinity a : ext_min a Infinity = a.
Proof. by destruct a. Qed.

Lemma ext_add_0 a : ext_add a (px 0) = a.
Proof. destruct a; simpl; [|done]. f_equal. lia. Qed.

Lemma fitLoop_row : ∀ rest i sizers minW minH maxW maxH,
  (i + length rest <= length sizers)%nat ->
  0 <= minH ->
  ∃ sizers',
    fitLoop true rest i sizers minW minH maxW maxH
    = Some (sizers', (minW + sumMinWidth (shown rest),
                      Z.max minH (largestMinHeight (shown rest)),
                      ext_add maxW (sumMaxWidth (shown rest)),
                      ext_min maxH (smallestMaxHeight (shown rest)))) ∧
    length sizers' = length sizers ∧
    (∀ j, (j < i)%nat ∨ (i + length rest <= j)%nat -> sizers' !! j = sizers !! j) ∧
    (∀ j widget, rest !! j = Some widget ->
       ∃ old, sizers !! (i + j)%nat = Some old ∧
              sizers' !! (i + j)%nat = Some (rowSizer widget old)).
Proof.
  induction rest as [|widget rest IH]; intros i sizers minW minH maxW maxH Hlen HminH.
  - simpl. exists sizers. split_and!; try done.
    rewrite ext_add_0, ext_min_Infinity. do 4 f_equal.
    unfold sumMinWidth, largestMinHeight. simpl. f_equal; lia.
  - simpl in Hlen. simpl fitLoop.
    destruct (lookup_lt_is_Some_2 sizers i ltac:(lia)) as [old Hold].
    rewrite Hold. simpl.
    set (new := rowSizer widget old).
    assert (Hstep : ∀ sizers',
      length sizers' = length (<[i := new]> sizers) ->
      (∀ j, (j < S i)%nat ∨ (S i + length rest <= j)%nat ->
            sizers' !! j = <[i := new]> sizers !! j) ->
      (∀ j w, rest !! j = Some w ->
         ∃ o, <[i := new]> sizers !! (S i + j)%nat = Some o ∧
              sizers' !! (S i + j)%nat = Some (rowSizer w o)) ->
      length sizers' = length sizers ∧
      (∀ j, (j < i)%nat ∨ (i + length (widget :: rest) <= j)%nat ->
            sizers' !! j = sizers !! j) ∧
      (∀ j w, (widget :: rest) !! j = Some w ->
         ∃ o, sizers !! (i + j)%nat = Some o ∧
              sizers' !! (i + j)%nat = Some (rowSizer w o))).
    { intros sizers' H1 H2 H3. rewrite length_insert in H1. split_and!; [done| |].
      - intros j Hj. simpl in Hj. rewrite H2 by lia.
        apply list_lookup_insert_ne. lia.
      - intros [|j] w Hw; simpl in Hw.
        + simplify_eq. exists old. rewrite Nat.add_0_r. split; [done|].
          rewrite H2 by lia. by rewrite list_lookup_insert_eq by lia.
        + destruct (H3 j w Hw) as (o & Ho1 & Ho2).
          rewrite list_lookup_insert_ne in Ho1 by lia.
          exists o. replace (i + S j)%nat with (S i + j)%nat by lia. done. }
    unfold new, rowSizer in *. simpl shown.
    destruct (isHidden widget) eqn:Hh; simpl.
    + destruct (IH (S i) (<[i := mkSizer (sizeHint old) 0 (px 0) (stretch old) (size old)]> sizers)
                  minW minH maxW maxH) as (sizers' & Hrun & H1 & H2 & H3);
        [rewrite length_insert; lia | done |].
      exists sizers'. split; [exact Hrun|]. by apply Hstep.
    + destruct (IH (S i) (<[i := mkSizer (sizeBasis widget) (minWidth (limits widget))
                                   (maxWidth (limits widget)) (stretchFactor widget)
                                   (size old)]> sizers)
                  (minW + minWidth (limits widget))
                  (Z.max minH (minHeight (limits widget)))
                  (ext_add maxW (maxWidth (limits widget)))
                  (ext_min maxH (maxHeight (limits widget))))
        as (sizers' & Hrun & H1 & H2 & H3);
        [rewrite length_insert; lia | lia |].
      exists sizers'. split; [|by apply Hstep].
      rewrite Hrun, ext_add_assoc, ext_min_assoc. do 4 f_equal.
      unfold sumMinWidth, largestMinHeight. simpl. f_equal; lia.
Qed.

Lemma sameButSize_refl a : sameButSize a a.
Proof. by repeat split. Qed.

Lemma sameButSize_trans a b c : sameButSize a b -> sameButSize b c -> sameButSize a c.
Proof. unfold sameButSize. intros (-> & -> & -> & ->) (-> & -> & -> & ->). done. Qed.

Lemma sizers_refl l : Forall2 sameButSize l l.
Proof. apply Forall_Forall2_diag, Forall_forall. intros. apply sameButSize_refl. Qed.

Lemma sizers_trans l1 l2 l3 :
  Forall2 sameButSize l1 l2 -> Forall2 sameButSize l2 l3 -> Forall2 sameButSize l1 l3.
Proof.
  intros H12. revert l3. induction H12 as [|a b l1 l2 Hab _ IH]; intros l3 H23.
  - by inversion H23.
  - inversion H23 as [|? c ? l3' Hbc H23']; subst. constructor.
    + by eapply sameButSize_trans.
    + by apply IH.
Qed.

(** What [_update] keeps, when [boxCalc] computes sizes and nothing
    else. *)
Lemma update_keeps boxCalc parent offsetWidth offsetHeight layout b :
  sizesOnly boxCalc ->
  (length (widgets layout) <= length (_sizers layout))%nat ->
  _box layout = Some b ->
  ∃ layout' calls,
    _update boxCalc parent offsetWidth offsetHeight layout = Some (layout', calls) ∧
    _fixed layout' = _fixed layout ∧ _dirty layout' = false ∧
    _box layout' = Some b ∧ widgets layout' = widgets layout ∧
    Forall2 sameButSize (_sizers layout) (_sizers layout').
Proof.
  intros Hcalc Hlen Hbox.
  destruct layout as [fx sp d bx sz dir ws]. simpl in *. subst bx.
  unfold _update. simpl.
  case_bool_decide as Hempty.
  - eexists _, []. split_and!; try done. apply sizers_refl.
  - set (width := (if offsetWidth <? 0 then BoxLayout.offsetWidth parent
                   else offsetWidth) - horizontalSum b).
    set (height := (if offsetHeight <? 0 then BoxLayout.offsetHeight parent
                    else offsetHeight) - verticalSum b).
    assert (Hret : ∀ space left top,
      is_Some (layoutLoop dir sp width height (boxCalc sz space) ws 0 left top)).
    { intros space left top. apply layoutLoop_returns.
      rewrite <- (Forall2_length _ _ _ (Hcalc sz space)). simpl. lia. }
    destruct dir; simpl;
      match goal with
      | |- context [layoutLoop ?dir sp width height (boxCalc sz ?space) ws 0 ?l ?t] =>
          destruct (Hret space l t) as [calls ->]
      end; simpl; eexists _, calls; split_and!; try done; apply Hcalc.
Qed.

Lemma deliver_keeps boxCalc parent b :
  sizesOnly boxCalc ->
  ∀ resizes layout,
    (length (widgets layout) <= length (_sizers layout))%nat ->
    _box layout = Some b ->
    ∃ layout' calls,
      deliver boxCalc parent resizes layout = Some (layout', calls) ∧
      _fixed layout' = _fixed layout ∧ _box layout' = Some b ∧
      widgets layout' = widgets layout ∧
      Forall2 sameButSize (_sizers layout) (_sizers layout') ∧
      (_dirty layout' = false ∨ (layout' = layout ∧ calls = [])) ∧
      (isVisible parent = false -> layout' = layout ∧ calls = []).
Proof.
  intros Hcalc. induction resizes as [|[width height] resizes IH];
    intros layout Hlen Hbox; simpl.
  - eexists _, []. split_and!; try done; [apply sizers_refl | by right].
  - unfold onResize. destruct (isVisible parent) eqn:Hvis.
    + destruct (update_keeps boxCalc parent width height layout b Hcalc Hlen Hbox)
        as (layout1 & calls & -> & F1 & D1 & B1 & W1 & S1).
      simpl.
      destruct (IH layout1) as (layout2 & calls' & -> & F2 & B2 & W2 & S2 & D2 & _);
        [|done|].
      { rewrite W1, <- (Forall2_length _ _ _ S1). done. }
      simpl. eexists _, _. split; [done|].
      split_and!; try congruence; [by eapply sizers_trans|].
      left. destruct D2 as [D2|[-> _]]; done.
    + simpl.
      destruct (IH layout Hlen Hbox)
        as (layout2 & calls' & -> & F2 & B2 & W2 & S2 & D2 & V2).
      simpl. eexists _, _. split; [done|].
      destruct (V2 eq_refl) as [-> ->].
      split_and!; done.
Qed.

(** X18.  [_fit] of a horizontal layout with a sizer for every widget,
    when [boxCalc] writes sizes and nothing else, returns and stores the
    box sizing; when it returns, the dirty flag is clear if the parent is
    visible, the layout having been updated, and is set, with no call of
    [setGeometry], if it is not.  The fixed space is the spacing for each
    gap between shown widgets.  The minimum width of the parent is border
    and padding, the fixed space and the minimum widths of the shown
    widgets; its minimum height border and padding and their largest
    minimum height; its maximum width ['none'] when no widget is shown,
    otherwise border and padding, the fixed space and their maximum
    widths; its maximum height their smallest maximum height with border
    and padding.  But for its size, the sizer of a hidden widget has [0]
    as minimum and maximum size and the sizer of a shown widget the
    basis, the stretch and the width limits of the widget.  In the first
    part of [_fit] taken alone, the dirty flag is set and the sizes of
    the sizers are the old ones. *)
Theorem fit_limits_of_row (boxCalc : list BoxSizer -> Z -> list BoxSizer)
    (parent : Parent) (ancestor : option (list (Z * Z))) (layout : Layout) :
  isHorizontal (_direction layout) = true ->
  (length (widgets layout) <= length (_sizers layout))%nat ->
  sizesOnly boxCalc ->
  let box := boxSizing parent in
  let visible := shown (widgets layout) in
  let fixed := _spacing layout * Z.max 0 (len visible - 1) in
  ∃ layout1 layout2 style calls,
    fitConstraints parent layout = Some (layout1, style) ∧
    _fit boxCalc parent ancestor layout = Some (layout2, style, calls) ∧
    _fixed layout1 = fixed ∧ _dirty layout1 = true ∧ _box layout1 = Some box ∧
    _fixed layout2 = fixed ∧ _dirty layout2 = negb (isVisible parent) ∧
    _box layout2 = Some box ∧
    (isVisible parent = false -> layout2 = layout1 ∧ calls = []) ∧
    style_minWidth style = horizontalSum box + fixed + sumMinWidth visible ∧
    style_minHeight style = verticalSum box + largestMinHeight visible ∧
    style_maxWidth style
    = (if bool_decide (visible = []) then Infinity
       else ext_add (px (horizontalSum box + fixed)) (sumMaxWidth visible)) ∧
    style_maxHeight style
    = ext_add (smallestMaxHeight visible) (px (verticalSum box)) ∧
    length (_sizers layout1) = length (_sizers layout) ∧
    length (_sizers layout2) = length (_sizers layout) ∧
    (∀ i widget, widgets layout !! i = Some widget ->
       ∃ old sizer, _sizers layout !! i = Some old ∧
                    _sizers layout1 !! i = Some (rowSizer widget old) ∧
                    _sizers layout2 !! i = Some sizer ∧
                    sameButSize (rowSizer widget old) sizer) ∧
    (∀ i, (length (widgets layout) <= i)%nat ->
          _sizers layout1 !! i = _sizers layout !! i).
Proof.
  intros Hh Hlen Hcalc box visible fixed.
  assert (Hfirst : ∃ layout1 style,
    fitConstraints parent layout = Some (layout1, style) ∧
    _fixed layout1 = fixed ∧ _dirty layout1 = true ∧ _box layout1 = Some box ∧
    widgets layout1 = widgets layout ∧
    style_minWidth style = horizontalSum box + fixed + sumMinWidth visible ∧
    style_minHeight style = verticalSum box + largestMinHeight visible ∧
    style_maxWidth style
    = (if bool_decide (visible = []) then Infinity
       else ext_add (px (horizontalSum box + fixed)) (sumMaxWidth visible)) ∧
    style_maxHeight style
    = ext_add (smallestMaxHeight visible) (px (verticalSum box)) ∧
    length (_sizers layout1) = length (_sizers layout) ∧
    (∀ i widget, widgets layout !! i = Some widget ->
       ∃ old, _sizers layout !! i = Some old ∧
              _sizers layout1 !! i = Some (rowSizer widget old)) ∧
    (∀ i, (length (widgets layout) <= i)%nat ->
          _sizers layout1 !! i = _sizers layout !! i)).
  { destruct layout as [fx sp d bx sz dir ws]. simpl in *.
    assert (Hcount : countVisible ws = len visible).
    { unfold visible, len. clear. induction ws as [|w ws IH]; simpl; [done|].
      destruct (isHidden w); simpl; lia. }
    assert (Hlargest : 0 <= largestMinHeight visible).
    { clear. induction visible as [|w l IH]; unfold largestMinHeight in *; simpl; lia. }
    unfold fitConstraints. simpl. rewrite Hh, Hcount. fold fixed.
    destruct (fitLoop_row ws 0 sz fixed 0
                (if len visible >? 0 then px fixed else Infinity) Infinity)
      as (sizers' & Hrun & H1 & H2 & H3); [simpl; lia | lia |].
    rewrite Hrun. simpl. eexists _, _. split; [reflexivity|]. simpl.
    fold visible. subst box. split_and!; try done; try lia.
    - case_bool_decide as Hnone.
      + rewrite Hnone. done.
      + assert ((len visible >? 0) = true) as ->.
        { apply Z.gtb_lt. destruct visible; [done|]. unfold len. simpl. lia. }
        destruct (sumMaxWidth visible); simpl; [|done]. f_equal. lia.
    - intros i Hi. apply H2. right. simpl. lia. }
  destruct Hfirst as (layout1 & style & Hfit & F1 & D1 & B1 & W1 & S1 & S2 & S3 & S4
                      & L1 & Z1 & Z2).
  assert (Hlen1 : (length (widgets layout1) <= length (_sizers layout1))%nat)
    by (rewrite W1, L1; done).
  assert (Htail : ∃ layout2 calls,
    _fit boxCalc parent ancestor layout = Some (layout2, style, calls) ∧
    _fixed layout2 = fixed ∧ _dirty layout2 = negb (isVisible parent) ∧
    _box layout2 = Some box ∧
    (isVisible parent = false -> layout2 = layout1 ∧ calls = []) ∧
    Forall2 sameButSize (_sizers layout1) (_sizers layout2)).
  { unfold _fit. rewrite Hfit. simpl.
    assert (Hdel : ∃ layout' calls,
      match ancestor with
      | Some resizes => deliver boxCalc parent resizes layout1
      | None => Some (layout1, [])
      end = Some (layout', calls) ∧
      _fixed layout' = _fixed layout1 ∧ _box layout' = Some box ∧
      widgets layout' = widgets layout1 ∧
      Forall2 sameButSize (_sizers layout1) (_sizers layout') ∧
      (_dirty layout' = false ∨ (layout' = layout1 ∧ calls = [])) ∧
      (isVisible parent = false -> layout' = layout1 ∧ calls = [])).
    { destruct ancestor as [resizes|].
      - by apply deliver_keeps.
      - eexists _, []. split_and!; try done; [apply sizers_refl | by right]. }
    destruct Hdel as (layout' & calls & -> & F2 & B2 & W2 & Z3 & D2 & V2). simpl.
    destruct (_dirty layout') eqn:Hd.
    - destruct D2 as [D2|[-> ->]]; [discriminate|].
      unfold onUpdateRequest. destruct (isVisible parent) eqn:Hvis.
      + destruct (update_keeps boxCalc parent (-1) (-1) layout1 box Hcalc Hlen1 B1)
          as (layout2 & calls' & -> & F3 & D3 & B3 & W3 & Z4).
        simpl. eexists _, _. split; [done|]. split_and!; try done; congruence.
      + simpl. eexists _, _. split; [done|]. split_and!; try done.
    - eexists _, _. split; [done|]. split_and!; try done; try congruence.
      rewrite Hd. destruct (isVisible parent) eqn:Hvis; [done|].
      destruct (V2 eq_refl) as [-> _]. congruence. }
  destruct Htail as (layout2 & calls & Hwhole & F2 & D2 & B2 & V2 & Z3).
  exists layout1, layout2, style, calls.
  split_and!; try done.
  - rewrite <- (Forall2_length _ _ _ Z3). done.
  - intros i widget Hw. destruct (Z1 i widget Hw) as (old & Ho1 & Ho2).
    destruct (Forall2_lookup_l _ _ _ _ _ Z3 Ho2) as (sizer & Hs1 & Hs2).
    by exists old, sizer.
Qed.

(** ** Examples *)

Lemma update_lays_out_row_witness :
  _direction rowLayout = LeftToRight ∧
  ∃ layout' calls,
    _update halfCalc rowParent (-1) (-1) rowLayout = Some (layout', calls) ∧
    map geo_widget calls = visibleFrom (widgets rowLayout) 0 ∧
    Forall (λ g, geo_top g = 2 ∧ geo_height g = 36 ∧
                 geo_width g = sizeAt (halfCalc (_sizers rowLayout) 108)
                                 (geo_widget g)) calls ∧
    contiguous (_spacing rowLayout) calls ∧
    (∀ g, head calls = Some g -> geo_left g = 3) ∧
    _dirty layout' = false ∧ widgets layout' = widgets rowLayout ∧
    _direction layout' = LeftToRight.
Proof.
  split; [reflexivity|].
  apply (update_lays_out_row halfCalc rowParent (-1) (-1) rowLayout eq_refl).
  vm_compute. lia.
Defined.

Lemma fit_then_update_fills_witness :
  isVisible rowParent = true ∧
  ∃ layout1 style,
    fitConstraints rowParent rowLayout = Some (layout1, style) ∧
    ∃ layout2 calls,
      _update halfCalc rowParent (-1) (-1) layout1 = Some (layout2, calls) ∧
      map geo_widget calls = visibleFrom (widgets rowLayout) 0 ∧
      contiguous (_spacing rowLayout) calls ∧
      (∀ g, head calls = Some g -> geo_left g = 3) ∧
      (∀ g, last calls = Some g -> geo_left g + geo_width g = 3 + 108) ∧
      _fit halfCalc rowParent (Some [(-1, -1)]) rowLayout
      = Some (layout2, style, calls) ∧
      _fit halfCalc rowParent None rowLayout = Some (layout2, style, calls) ∧
      _fit halfCalc rowParent (Some []) rowLayout = Some (layout2, style, calls).
Proof.
  split; [reflexivity|]. eexists _, _. split; [reflexivity|].
  destruct (fit_then_update_fills halfCalc rowParent (-1) (-1) rowLayout _ _
              eq_refl eq_refl)
    as (layout2 & calls & H1 & H2 & H3 & H4 & H5 & H6).
  - reflexivity.
  - reflexivity.
  - vm_compute. discriminate.
  - destruct (H6 eq_refl) as [H7 H8]. destruct (H8 eq_refl eq_refl) as [H9 H10].
    exists layout2, calls. split_and!; assumption.
Defined.

Lemma halfCalc_sizesOnly : sizesOnly halfCalc.
Proof.
  intros sizers space. unfold halfCalc. apply Forall2_fmap_r, Forall_Forall2_diag.
  apply Forall_forall. intros sizer _. by repeat split.
Qed.

(** The row fitted under an ancestor that answers with one resize
    message. *)
Lemma fit_limits_of_row_witness :
  isHorizontal (_direction rowLayout) = true ∧
  ∃ layout1 layout2 style calls,
    fitConstraints rowParent rowLayout = Some (layout1, style) ∧
    _fit halfCalc rowParent (Some [(114, 40)]) rowLayout
    = Some (layout2, style, calls) ∧
    _fixed layout1 = 8 ∧ _dirty layout1 = true ∧
    _box layout1 = Some (boxSizing rowParent) ∧
    _fixed layout2 = 8 ∧ _dirty layout2 = negb (isVisible rowParent) ∧
    _box layout2 = Some (boxSizing rowParent) ∧
    (isVisible rowParent = false -> layout2 = layout1 ∧ calls = []) ∧
    style_minWidth style = 6 + 8 + sumMinWidth (shown rowWidgets) ∧
    style_minHeight style = 4 + largestMinHeight (shown rowWidgets) ∧
    style_maxWidth style
    = (if bool_decide (shown rowWidgets = []) then Infinity
       else ext_add (px (6 + 8)) (sumMaxWidth (shown rowWidgets))) ∧
    style_maxHeight style = ext_add (smallestMaxHeight (shown rowWidgets)) (px 4) ∧
    length (_sizers layout1) = length (_sizers rowLayout) ∧
    length (_sizers layout2) = length (_sizers rowLayout) ∧
    (∀ i widget, rowWidgets !! i = Some widget ->
       ∃ old sizer, _sizers rowLayout !! i = Some old ∧
                    _sizers layout1 !! i = Some (rowSizer widget old) ∧
                    _sizers layout2 !! i = Some sizer ∧
                    sameButSize (rowSizer widget old) sizer) ∧
    (∀ i, (length rowWidgets <= i)%nat ->
          _sizers layout1 !! i = _sizers rowLayout !! i).
Proof.
  split; [reflexivity|].
  apply (fit_limits_of_row halfCalc rowParent (Some [(114, 40)]) rowLayout eq_refl).
  - vm_compute. lia.
  - apply halfCalc_sizesOnly.
Defined.
